(** * Product-trends: normalisation, selection, margin and scoring pipeline

    A shallow embedding of [server.js] (the recommendation pipeline, the
    analyze-product route, the configuration, proxy, image and content
    routes) together with the properties of its components.

    Conventions of the embedding.
    - A JavaScript Number is a double.  The margin calculator and the
      engagement percentage compute on IEEE binary64 itself: [double] is the
      Standard Library's [spec_float] at precision 53 and exponent bound
      1024, with its correctly rounded operations.  Prices, counts and
      scores are carried as their exact values: a [num] is an exact
      rational or one of NaN, +Infinity, -Infinity (a zero divisor is
      [+0]), a count is an integer.  A price enters the margin calculator
      as the double nearest to it, which is the code's double whenever the
      price was read from a decimal string, is a number of cents divided by
      100, or a whole number of dong below 2^53 divided by 25000; a count
      enters a division as the double it is.
    - A JavaScript String that names a product is a [text]: the list of
      its UTF-16 code units, surrogates included.  Every other string (a
      key, a price, a URL, a message) is a [string] of code units up to
      U+00FF.
    - Upstream records are typed: every field is optional, a field that is
      present has the type the code's operations expect (a string where the
      code calls [replace] or [parseFloat], an integer where it counts).
    - [Math.random] is an oracle threaded through a state monad.
    - [Array.prototype.sort] is a stable sort; the comparators of the
      pipeline's own sorts are differences of finite keys, hence
      consistent, so their order is the one ECMAScript prescribes.  The
      one sort under a random comparator (the choice of the categories) is
      left to the engine.
    - A function that can throw returns an [option]; the [catch] of the
      route that called it turns [None] into the error response. *)

From Stdlib Require Import NArith ZArith QArith Qround Qabs List String Ascii Bool.
From Stdlib Require Import Lia Lqa Sorted Permutation.
From Stdlib Require Floats.
Import Floats.SpecFloat.
From Stdlib Require DecimalString.
From Stdlib Require Qpower.
Import ListNotations.

Local Open Scope Q_scope.

(* ================================================================== *)
(** * Part I: the program *)
(* ================================================================== *)

(** ** JavaScript numbers *)

Inductive num : Type :=
| NaN : num
| Inf (neg : bool) : num
| Fin (q : Q) : num.

Definition Qlt_bool (a b : Q) : bool := negb (Qle_bool b a).

Definition nneg (a : num) : num :=
  match a with
  | NaN => NaN
  | Inf s => Inf (negb s)
  | Fin q => Fin (- q)
  end.

Definition nadd (a b : num) : num :=
  match a, b with
  | NaN, _ | _, NaN => NaN
  | Fin x, Fin y => Fin (x + y)
  | Inf s, Inf t => if Bool.eqb s t then Inf s else NaN
  | Inf s, Fin _ | Fin _, Inf s => Inf s
  end.

Definition nsub (a b : num) : num := nadd a (nneg b).

(** Division; a zero divisor is [+0], so [x / 0] is an infinity with the
    sign of [x], and [0 / 0] is NaN. *)
Definition ndiv (a b : num) : num :=
  match a, b with
  | NaN, _ | _, NaN => NaN
  | Fin x, Fin y =>
      if Qeq_bool y 0
      then (if Qeq_bool x 0 then NaN else Inf (Qlt_bool x 0))
      else Fin (x / y)
  | Fin _, Inf _ => Fin 0
  | Inf s, Fin y => Inf (xorb s (Qlt_bool y 0))
  | Inf _, Inf _ => NaN
  end.

(** [a < b]; every comparison with NaN is false. *)
Definition nlt (a b : num) : bool :=
  match a, b with
  | NaN, _ | _, NaN => false
  | Fin x, Fin y => Qlt_bool x y
  | Inf s, Inf t => s && negb t
  | Inf s, Fin _ => s
  | Fin _, Inf t => negb t
  end.

Definition ngt (a b : num) : bool := nlt b a.

Definition Z2num (z : Z) : num := Fin (inject_Z z).

(** ** Number.prototype.toFixed

    The result of [toFixed] is a string; [fixed] is that string in
    structured form and [fixed_to_string] spells it out. *)

Inductive fixed : Type :=
| FixNaN : fixed                             (* "NaN" *)
| FixInf (neg : bool) : fixed                (* "Infinity", "-Infinity" *)
| FixSci (neg : bool) (a : Q) : fixed        (* |x| >= 1e21: Number::toString *)
| FixDec (neg : bool) (n : Z) (f : nat) : fixed.
    (* sign, then the digits of [n] with a point before the last [f] *)

Definition pow10 (f : nat) : Z := (10 ^ Z.of_nat f)%Z.

(** "Let n be an integer for which n / 10^f - x is as close to zero as
    possible. If there are two such n, pick the larger n." (x >= 0)
    [toFixedQ] is [toFixed] at a finite value. *)
Definition round_half_up (x : Q) : Z := Qfloor (x + (1 # 2)).

Definition toFixedQ (q : Q) (f : nat) : fixed :=
  let neg := Qlt_bool q 0 in
  let a := Qabs q in
  if Qle_bool (inject_Z (pow10 21)) a
  then FixSci neg a
  else FixDec neg (round_half_up (a * inject_Z (pow10 f))) f.

(** The number a [toFixed] string denotes, when it denotes one. *)
Definition fixed_value (d : fixed) : option Q :=
  match d with
  | FixNaN | FixInf _ => None
  | FixSci neg a => Some (if neg then - a else a)
  | FixDec neg n f =>
      let v := inject_Z n / inject_Z (pow10 f) in
      Some (if neg then - v else v)
  end.

Definition digits_of (n : Z) : string :=
  DecimalString.NilZero.string_of_uint (N.to_uint (Z.to_N n)).

Fixpoint zeros (k : nat) : string :=
  match k with
  | O => EmptyString
  | S k' => String "0" (zeros k')
  end.

Definition fixed_to_string (d : fixed) : option string :=
  match d with
  | FixNaN => Some "NaN"%string
  | FixInf false => Some "Infinity"%string
  | FixInf true => Some "-Infinity"%string
  | FixSci _ _ => None
  | FixDec neg n f =>
      let s := if neg then "-"%string else EmptyString in
      let m := digits_of n in
      let m := if (String.length m <=? f)%nat
               then (zeros (f + 1 - String.length m) ++ m)%string else m in
      let k := String.length m in
      let body := match f with
                  | O => m
                  | _ => (substring 0 (k - f) m ++ "." ++ substring (k - f) f m)%string
                  end in
      Some (s ++ body)%string
  end.

(** [Math.floor] and [Math.round] on a finite number. *)
Definition Math_floor (x : Q) : Z := Qfloor x.
Definition Math_round (x : Q) : Z := Qfloor (x + (1 # 2)).

(** ** IEEE binary64 *)

Definition double : Type := spec_float.

Definition mul64 : double -> double -> double := SFmul 53 1024.
Definition add64 : double -> double -> double := SFadd 53 1024.
Definition sub64 : double -> double -> double := SFsub 53 1024.
Definition div64 : double -> double -> double := SFdiv 53 1024.

(** The double an integer-valued Number is. *)
Definition Z2SF (z : Z) : double :=
  match z with
  | Z0 => S754_zero false
  | Zpos p => S754_finite false p 0
  | Zneg p => S754_finite true p 0
  end.

(** The double nearest to the rational [q]: the decimal literals of the
    source, and a price on its way into the margin calculator. *)
Definition double_of_Q (q : Q) : double :=
  div64 (Z2SF (Qnum q)) (Z2SF (Zpos (Qden q))).

Definition to_double (x : num) : double :=
  match x with
  | NaN => S754_nan
  | Inf s => S754_infinity s
  | Fin q => double_of_Q q
  end.

Definition pow2 (e : Z) : Q := Qpower 2 e.

(** The rational a finite double denotes; [0] for the others. *)
Definition SF2Q (x : double) : Q :=
  match x with
  | S754_finite s m e =>
      let v := inject_Z (Zpos m) * pow2 e in if s then - v else v
  | _ => 0
  end.

(** ToBoolean on a double: the zeros and NaN are falsy. *)
Definition double_truthy (x : double) : bool :=
  match x with
  | S754_zero _ | S754_nan => false
  | S754_infinity _ | S754_finite _ _ _ => true
  end.

(** [toFixed] rounds the exact value of the double. *)
Definition toFixed (x : double) (f : nat) : fixed :=
  match x with
  | S754_nan => FixNaN
  | S754_infinity s => FixInf s
  | S754_zero _ | S754_finite _ _ _ => toFixedQ (SF2Q x) f
  end.

(** ** Margin calculator *)

Record MarginBreakdown : Type := {
  sellingPrice : double;
  supplierPrice : fixed;
  shippingCost : fixed;
  adCost : fixed;
  platformFees : fixed;
  totalCost : fixed;
  profit : fixed;
  profitMargin : fixed
}.

Definition calculateMargins (tiktokPrice : double) : MarginBreakdown :=
  let supplierPrice := mul64 tiktokPrice (double_of_Q (3 # 10)) in
  let shippingCost := double_of_Q 5 in
  let adCost := mul64 tiktokPrice (double_of_Q (25 # 100)) in
  let platformFees := mul64 tiktokPrice (double_of_Q (15 # 100)) in
  let totalCost :=
    add64 (add64 (add64 supplierPrice shippingCost) adCost) platformFees in
  let profit := sub64 tiktokPrice totalCost in
  let profitMargin := mul64 (div64 profit tiktokPrice) (double_of_Q 100) in
  {| sellingPrice := tiktokPrice;
     supplierPrice := toFixed supplierPrice 2;
     shippingCost := toFixed shippingCost 2;
     adCost := toFixed adCost 2;
     platformFees := toFixed platformFees 2;
     totalCost := toFixed totalCost 2;
     profit := toFixed profit 2;
     profitMargin := toFixed profitMargin 1 |}.

(** ** JavaScript strings *)

Local Open Scope string_scope.

Definition code (c : ascii) : nat := nat_of_ascii c.

Definition is_digit (c : ascii) : bool :=
  ((48 <=? code c) && (code c <=? 57))%nat.

Definition is_letter (c : ascii) : bool :=
  (((65 <=? code c) && (code c <=? 90)) || ((97 <=? code c) && (code c <=? 122)))%nat.

(** White space and line terminators (the class [\s] of regular expressions
    and the characters [parseFloat] skips), as far as U+00FF. *)
Definition is_space (c : ascii) : bool :=
  (((9 <=? code c) && (code c <=? 13)) || (code c =? 32) || (code c =? 160))%nat.

Fixpoint filter_string (keep : ascii -> bool) (s : string) : string :=
  match s with
  | EmptyString => EmptyString
  | String c r => if keep c then String c (filter_string keep r)
                  else filter_string keep r
  end.

Fixpoint count_string (p : ascii -> bool) (s : string) : nat :=
  match s with
  | EmptyString => O
  | String c r => (if p c then 1 else 0) + count_string p r
  end.

(** [s.replace(/\./g, '')], [s.replace(/,/g, '')], [s.replace(/[^0-9.]/g, '')] *)
Definition strip_dots (s : string) : string :=
  filter_string (fun c => negb (Ascii.eqb c ".")) s.
Definition strip_commas (s : string) : string :=
  filter_string (fun c => negb (Ascii.eqb c ",")) s.
Definition strip_non_numeric (s : string) : string :=
  filter_string (fun c => is_digit c || Ascii.eqb c ".") s.

Fixpoint trim_start (s : string) : string :=
  match s with
  | String c r => if is_space c then trim_start r else s
  | EmptyString => EmptyString
  end.

(** Reads the longest run of decimal digits: its value continuing [acc],
    how many digits were read, and the rest of the string. *)
Fixpoint span_digits (s : string) (acc : Z) (cnt : nat) : Z * nat * string :=
  match s with
  | String c r =>
      if is_digit c
      then span_digits r (acc * 10 + Z.of_nat (code c - 48))%Z (S cnt)
      else (acc, cnt, s)
  | EmptyString => (acc, cnt, s)
  end.

Definition read_sign (s : string) : bool * string :=
  match s with
  | String "+" r => (false, r)
  | String "-" r => (true, r)
  | _ => (false, s)
  end.

(** ExponentPart, when one is there: [e] or [E], a sign, at least one digit. *)
Definition read_exponent (s : string) : Z :=
  match s with
  | String c r =>
      if Ascii.eqb c "e" || Ascii.eqb c "E"
      then let '(neg, r') := read_sign r in
           let '(v, n, _) := span_digits r' 0%Z O in
           match n with
           | O => 0%Z
           | _ => if neg then (- v)%Z else v
           end
      else 0%Z
  | EmptyString => 0%Z
  end.

(** [parseFloat]: skip leading white space, take the longest prefix that
    is a StrDecimalLiteral, NaN when there is none.  The value is exact. *)
Definition parseFloat (s : string) : num :=
  let '(neg, s1) := read_sign (trim_start s) in
  if prefix "Infinity" s1 then Inf neg
  else
    let '(ip, ni, r1) := span_digits s1 0%Z O in
    let '(m, nf, r2) :=
      match r1 with
      | String "." r => span_digits r ip O
      | _ => (ip, O, r1)
      end in
    match ni, nf with
    | O, O => NaN
    | _, _ =>
        let e := (read_exponent r2 - Z.of_nat nf)%Z in
        let v := (inject_Z m * Qpower 10 e)%Q in
        Fin (if neg then (- v)%Q else v)
    end.

(** ** Texts: strings with all their code units *)

(** A UTF-16 code unit, as its two bytes. *)
Inductive unit16 : Type := U16 (high low : ascii).

Definition text : Type := list unit16.

Definition unit_code (u : unit16) : N :=
  let 'U16 h l := u in (256 * N_of_ascii h + N_of_ascii l)%N.

(** The text of a string of code units up to U+00FF. *)
Definition text_of_string (s : string) : text :=
  map (U16 zero) (list_ascii_of_string s).

(** [/[a-zA-Z]/] *)
Definition is_letter16 (u : unit16) : bool :=
  let 'U16 h l := u in Ascii.eqb h zero && is_letter l.

(** [/\s/]: the white space and line terminators of ECMAScript. *)
Definition is_space16 (u : unit16) : bool :=
  let c := unit_code u in
  (((9 <=? c) && (c <=? 13)) || (c =? 32) || (c =? 160) || (c =? 5760)
   || ((8192 <=? c) && (c <=? 8202)) || (c =? 8232) || (c =? 8233)
   || (c =? 8239) || (c =? 8287) || (c =? 12288) || (c =? 65279))%N.

(** [isEnglish]: at least half of the non-blank characters are ASCII
    letters.  Both counts are exact in binary64 and 0.5 is a double, so the
    rounded quotient reaches 0.5 exactly when [2 * letters >= total]. *)
Definition isEnglish (t : text) : bool :=
  match t with
  | [] => false
  | _ =>
      let englishChars := List.length (filter is_letter16 t) in
      let totalChars := List.length (filter (fun u => negb (is_space16 u)) t) in
      ((0 <? totalChars) && (totalChars <=? 2 * englishChars))%nat
  end.

(** [encodeURIComponent]: an unreserved code unit stays; any other code
    point becomes the [%XX] escapes of its UTF-8 bytes; a surrogate that is
    not half of a pair makes the call throw a URIError ([None]). *)
Definition is_unreserved (c : ascii) : bool :=
  is_letter c || is_digit c ||
  existsb (Ascii.eqb c) ["-"; "_"; "."; "!"; "~"; "*"; "'"; "("; ")"]%char.

Definition is_unreserved16 (u : unit16) : bool :=
  let 'U16 h l := u in Ascii.eqb h zero && is_unreserved l.

Definition is_high_surrogate (c : N) : bool := ((55296 <=? c) && (c <=? 56319))%N.
Definition is_low_surrogate (c : N) : bool := ((56320 <=? c) && (c <=? 57343))%N.

(** The code point of a surrogate pair. *)
Definition pair_code_point (lead trail : N) : N :=
  ((lead - 55296) * 1024 + (trail - 56320) + 65536)%N.

Definition utf8 (cp : N) : list N :=
  (if cp <? 128 then [cp]
   else if cp <? 2048 then [192 + cp / 64; 128 + cp mod 64]
   else if cp <? 65536 then
     [224 + cp / 4096; 128 + (cp / 64) mod 64; 128 + cp mod 64]
   else
     [240 + cp / 262144; 128 + (cp / 4096) mod 64; 128 + (cp / 64) mod 64;
      128 + cp mod 64])%N.

Definition hex_digit (n : N) : ascii :=
  ascii_of_N (if (n <? 10)%N then 48 + n else 55 + n).

Definition percent (byte : N) : string :=
  String "%" (String (hex_digit (byte / 16)) (String (hex_digit (byte mod 16)) EmptyString)).

Definition escape (cp : N) : string := concat EmptyString (map percent (utf8 cp)).

Fixpoint encodeURIComponent (t : text) : option string :=
  match t with
  | [] => Some EmptyString
  | u :: r =>
      let c := unit_code u in
      if is_unreserved16 u then
        let 'U16 _ l := u in option_map (String l) (encodeURIComponent r)
      else if is_high_surrogate c then
        match r with
        | v :: r' =>
            if is_low_surrogate (unit_code v)
            then option_map (append (escape (pair_code_point c (unit_code v))))
                            (encodeURIComponent r')
            else None
        | [] => None
        end
      else if is_low_surrogate c then None
      else option_map (append (escape c)) (encodeURIComponent r)
  end.

(** The message of the URIError (V8's wording). *)
Definition URIError_message : string := "URI malformed".

(** ** Data model *)

(** The fixed catalog [TRENDING_CATEGORIES]; a product's category is always
    one of its entries. *)
Inductive Category : Type :=
| ViralGadgets | BeautyProducts | HomeDecor | FitnessEquipment
| TechAccessories | KitchenGadgets | PetSupplies | FashionAccessories
| PhoneCases | CarAccessories | GamingAccessories | SmartHomeDevices
| Makeup | Skincare | Jewelry | WorkoutGear | LedLights | DeskAccessories.

Definition TRENDING_CATEGORIES : list Category :=
  [ViralGadgets; BeautyProducts; HomeDecor; FitnessEquipment;
   TechAccessories; KitchenGadgets; PetSupplies; FashionAccessories;
   PhoneCases; CarAccessories; GamingAccessories; SmartHomeDevices;
   Makeup; Skincare; Jewelry; WorkoutGear; LedLights; DeskAccessories].

Definition category_name (c : Category) : string :=
  match c with
  | ViralGadgets => "viral gadgets" | BeautyProducts => "beauty products"
  | HomeDecor => "home decor" | FitnessEquipment => "fitness equipment"
  | TechAccessories => "tech accessories" | KitchenGadgets => "kitchen gadgets"
  | PetSupplies => "pet supplies" | FashionAccessories => "fashion accessories"
  | PhoneCases => "phone cases" | CarAccessories => "car accessories"
  | GamingAccessories => "gaming accessories"
  | SmartHomeDevices => "smart home devices"
  | Makeup => "makeup" | Skincare => "skincare" | Jewelry => "jewelry"
  | WorkoutGear => "workout gear" | LedLights => "led lights"
  | DeskAccessories => "desk accessories"
  end.

Definition Category_eq_dec (a b : Category) : {a = b} + {a <> b}.
Proof. decide equality. Defined.

Definition Category_eqb (a b : Category) : bool :=
  if Category_eq_dec a b then true else false.

(** The upstream record, as far as the pipeline reads it. *)
Module PriceInfo.
Record t : Type := {
  sale_price_decimal : option string;
  sale_price_format : option string;
  min_price : option string;
  price : option string;
  currency_name : option string;
  currency_symbol : option string
}.
End PriceInfo.

Module Raw.
Record Statistics : Type := {
  play_count : option Z;
  digg_count : option Z
}.
Record RateInfo : Type := {
  view_count : option Z;
  like_count : option Z
}.
Record SoldInfo : Type := {
  sold_count : option Z;
  sales : option Z
}.
Record t : Type := {
  product_name : option text;
  title : option text;
  product_img_url : option string;
  image : option string;
  cover : option string;
  statistics : option Statistics;
  rate_info : option RateInfo;
  sold_info : option SoldInfo;
  top_sold_count : option Z;         (* item.sold_count *)
  top_sales : option Z;              (* item.sales *)
  product_price_info : option PriceInfo.t;
  price : option Z;                  (* minor units *)
  min_price : option string
}.
End Raw.

(** [engagement] is the string [toFixed] returns, or the number [0]. *)
Inductive Engagement : Type :=
| EngFixed (s : fixed)
| EngZero.

Record Product : Type := {
  title : text;
  image : string;
  views : Z;
  likes : Z;
  sold : Z;
  price : num;
  engagement : Engagement;
  category : Category;
  rawData : Raw.t
}.

Record SourcingOption : Type := {
  supplier : string;
  url : string;
  avgPrice : string;
  shippingTime : string;
  reliability : string
}.

(** A candidate with [margins] and [sourcing] spread onto it. *)
Record Analysed : Type := {
  product : Product;
  margins : MarginBreakdown;
  sourcing : list SourcingOption
}.

Record ScoredProduct : Type := {
  analysed : Analysed;
  aiScore : Q;
  trend : string;
  competition : string;
  recommendation : string
}.

Definition sp_category (p : ScoredProduct) : Category := category (product (analysed p)).
Definition sp_sold (p : ScoredProduct) : Z := sold (product (analysed p)).

(** One entry of the collaborator's answer; any field may be missing. *)
Module Assessment.
Record t : Type := {
  productIndex : option Z;
  aiScore : option Q;
  trend : option string;
  competition : option string;
  recommendation : option string
}.
Definition empty : t :=
  {| productIndex := None; aiScore := None; trend := None;
     competition := None; recommendation := None |}.
End Assessment.

Module Niche.
Record t : Type := {
  category : Category;
  count : Z;
  avgScore : Q;
  totalSales : Z
}.
End Niche.

(** ** The operator [||] on optional fields *)

Definition str_or (a : option string) (b : string) : string :=
  match a with
  | Some EmptyString | None => b
  | Some s => s
  end.

Definition text_or (a : option text) (b : text) : text :=
  match a with
  | Some [] | None => b
  | Some t => t
  end.

Definition int_or (a : option Z) (b : Z) : Z :=
  match a with
  | Some z => if (z =? 0)%Z then b else z
  | None => b
  end.

Definition Q_or (a : option Q) (b : Q) : Q :=
  match a with
  | Some q => if Qeq_bool q 0 then b else q
  | None => b
  end.

(** [o?.f] *)
Definition opt_get {A B : Type} (o : option A) (f : A -> option B) : option B :=
  match o with
  | Some a => f a
  | None => None
  end.

(** [x === "lit"] on an optional string field *)
Definition is_str (a : option string) (lit : string) : bool :=
  match a with
  | Some s => String.eqb s lit
  | None => false
  end.

(** ** Price normalizer and record normalizer *)

Definition priceStr (info : PriceInfo.t) : string :=
  str_or (PriceInfo.sale_price_decimal info)
    (str_or (PriceInfo.sale_price_format info)
       (str_or (PriceInfo.min_price info)
          (str_or (PriceInfo.price info) "0"))).

Definition normalizePrice (item : Raw.t) : num :=
  match Raw.product_price_info item with
  | Some info =>
      if is_str (PriceInfo.currency_name info) "VND" then
        let priceNum := parseFloat (strip_dots (priceStr info)) in
        ndiv priceNum (Fin 25000)
      else if is_str (PriceInfo.currency_name info) "USD"
              || is_str (PriceInfo.currency_symbol info) "$" then
        parseFloat (strip_commas (priceStr info))
      else
        parseFloat (strip_non_numeric (priceStr info))
  | None =>
      match int_or (Raw.price item) 0 with
      | Z0 =>
          match str_or (Raw.min_price item) EmptyString with
          | EmptyString => Fin 0
          | s => parseFloat s
          end
      | z => ndiv (Z2num z) (Fin 100)
      end
  end.

(** [parseInt] of an integer is that integer (integers below 1e21 print
    without an exponent). *)
Definition extractSold (item : Raw.t) : Z :=
  match Raw.sold_info item with
  | Some info => int_or (Raw.sold_count info) (int_or (Raw.sales info) 0)
  | None => int_or (Raw.top_sold_count item) (int_or (Raw.top_sales item) 0)
  end.

Definition extractEngagement (item : Raw.t) : Engagement :=
  match opt_get (Raw.statistics item) Raw.play_count with
  | Some play_count =>
      if (0 <? play_count)%Z
      then
        let digg := int_or (opt_get (Raw.statistics item) Raw.digg_count) 0 in
        EngFixed (toFixed (mul64 (div64 (Z2SF digg) (Z2SF play_count))
                                 (double_of_Q 100)) 2)
      else EngZero
  | None => EngZero
  end.

Definition normalizeItem (c : Category) (item : Raw.t) : Product :=
  {| title := text_or (Raw.product_name item)
                (text_or (Raw.title item) (text_of_string "No title"));
     image := str_or (Raw.product_img_url item)
                (str_or (Raw.image item) (str_or (Raw.cover item) EmptyString));
     views := int_or (opt_get (Raw.statistics item) Raw.play_count)
                (int_or (opt_get (Raw.rate_info item) Raw.view_count) 0);
     likes := int_or (opt_get (Raw.statistics item) Raw.digg_count)
                (int_or (opt_get (Raw.rate_info item) Raw.like_count) 0);
     sold := extractSold item;
     price := normalizePrice item;
     engagement := extractEngagement item;
     category := c;
     rawData := item |}.

(** ** Array.prototype.sort, filter, slice *)

Section Sort.
Context {A : Type} (comparefn : A -> A -> num).

(** [x] comes from the left of everything in [l]; it moves right past [y]
    only when [comparefn x y > 0], so equal elements keep their order. *)
Fixpoint insert_sorted (x : A) (l : list A) : list A :=
  match l with
  | [] => [x]
  | y :: r =>
      if ngt (comparefn x y) (Fin 0) then y :: insert_sorted x r
      else x :: l
  end.

Definition Array_sort (l : list A) : list A :=
  fold_right insert_sorted [] l.
End Sort.

(** ** Candidate selector *)

Definition popularity (p : Product) : Z := (views p + likes p + sold p)%Z.

Definition price_ok (p : Product) : bool :=
  ngt (price p) (Fin 0) && nlt (price p) (Fin 200).

Definition by_popularity (a b : Product) : num :=
  nsub (Z2num (popularity b)) (Z2num (popularity a)).

Definition validProducts (allProducts : list Product) : list Product :=
  firstn 20 (Array_sort by_popularity (filter price_ok allProducts)).

(** ** Sourcing catalog *)

(** Sequencing of calls that can throw. *)
Definition and_then {A B : Type} (c : option A) (k : A -> option B) : option B :=
  match c with
  | Some a => k a
  | None => None
  end.

Notation "x <-? c ;; k" := (and_then c (fun x => k))
  (at level 61, c at next level, right associativity).

(** [l.map(f)] when [f] can throw. *)
Fixpoint map_throwing {A B : Type} (f : A -> option B) (l : list A) : option (list B) :=
  match l with
  | [] => Some []
  | a :: r => b <-? f a ;; bs <-? map_throwing f r ;; Some (b :: bs)
  end.

Definition getSourcingRecommendations (productName : text)
    : option (list SourcingOption) :=
  name1 <-? encodeURIComponent productName ;;
  name2 <-? encodeURIComponent productName ;;
  name3 <-? encodeURIComponent productName ;;
  Some
  [ {| supplier := "AliExpress";
       url := "https://www.aliexpress.com/wholesale?SearchText=" ++ name1;
       avgPrice := "Low"; shippingTime := "15-30 days"; reliability := "Medium" |};
    {| supplier := "CJ Dropshipping";
       url := "https://cjdropshipping.com/search?keyword=" ++ name2;
       avgPrice := "Medium"; shippingTime := "7-15 days"; reliability := "High" |};
    {| supplier := "Spocket";
       url := "https://www.spocket.co/search/" ++ name3;
       avgPrice := "High"; shippingTime := "2-7 days"; reliability := "High" |} ].

(** [{...p, margins: calculateMargins(p.price),
      sourcing: getSourcingRecommendations(p.title)}] *)
Definition addAnalysis (p : Product) : option Analysed :=
  let margins := calculateMargins (to_double (price p)) in
  sourcing <-? getSourcingRecommendations (title p) ;;
  Some {| product := p; margins := margins; sourcing := sourcing |}.

(** ** Math.random as a state monad *)

Record Rng : Type := {
  draws : nat -> Q;        (* the values [Math.random] will return *)
  pos : nat                (* how many have been consumed *)
}.

Definition M (A : Type) : Type := Rng -> A * Rng.

Definition ret {A : Type} (a : A) : M A := fun g => (a, g).

Definition bind {A B : Type} (c : M A) (k : A -> M B) : M B :=
  fun g => let '(a, g') := c g in k a g'.

Notation "x <- c ;; k" := (bind c (fun x => k))
  (at level 61, c at next level, right associativity).

Definition Math_random : M Q :=
  fun g => (draws g (pos g), {| draws := draws g; pos := S (pos g) |}).

Fixpoint mapM {A B : Type} (f : A -> M B) (l : list A) : M (list B) :=
  match l with
  | [] => ret []
  | a :: r => b <- f a ;; bs <- mapM f r ;; ret (b :: bs)
  end.

(** [l.map((p, i) => f(p, i))], the index starting at [i]. *)
Fixpoint mapi_from {A B : Type} (i : nat) (f : A -> nat -> B) (l : list A) : list B :=
  match l with
  | [] => []
  | a :: r => f a i :: mapi_from (S i) f r
  end.

(** ** Scoring engine *)

(** What the prompt says of one product. *)
Record Summary : Type := {
  s_position : nat;
  s_title : text;
  s_price : num;
  s_views : Z;
  s_likes : Z;
  s_engagement : Engagement
}.

(** The collaborator's round trip: the request, the parse of the answer
    and the choice of the array in it either fail or yield the entries. *)
Inductive AIOutcome : Type :=
| Threw
| Returned (analysisArray : list Assessment.t).

Definition Collaborator : Type := list Summary -> AIOutcome.

Definition productSummaries (products : list Analysed) : list Summary :=
  mapi_from 0
    (fun p i =>
       {| s_position := i + 1;
          s_title := title (product p);
          s_price := price (product p);
          s_views := views (product p);
          s_likes := likes (product p);
          s_engagement := engagement (product p) |})
    (firstn 10 products).

(** [Math.floor(Math.random() * 30) + 70] *)
Definition random_score (r : Q) : Q := inject_Z (Math_floor (r * 30) + 70).

Definition basicAnalysis (p : Analysed) : M ScoredProduct :=
  r1 <- Math_random ;;
  r2 <- Math_random ;;
  r3 <- Math_random ;;
  ret {| analysed := p;
         aiScore := random_score r1;
         trend := if Qlt_bool (1 # 2) r2 then "Rising" else "Stable";
         competition := if Qlt_bool (1 # 2) r3 then "Medium" else "High";
         recommendation := "Analyze manually for best results" |}.

Definition errorAnalysis (p : Analysed) : M ScoredProduct :=
  r <- Math_random ;;
  ret {| analysed := p;
         aiScore := random_score r;
         trend := "Unknown";
         competition := "Medium";
         recommendation := "Manual analysis recommended" |}.

Definition matches_position (i : nat) (a : Assessment.t) : bool :=
  match Assessment.productIndex a with
  | Some k => (k =? Z.of_nat i + 1)%Z
  | None => false
  end.

Definition mergeAnalysis (analysisArray : list Assessment.t)
    (p : Analysed) (i : nat) : ScoredProduct :=
  let aiData :=
    match find (matches_position i) analysisArray with
    | Some a => a
    | None => Assessment.empty
    end in
  {| analysed := p;
     aiScore := Q_or (Assessment.aiScore aiData) 75;
     trend := str_or (Assessment.trend aiData) "Stable";
     competition := str_or (Assessment.competition aiData) "Medium";
     recommendation :=
       str_or (Assessment.recommendation aiData) "Good potential for dropshipping" |}.

Definition analyzeProductsWithAI (ai : option Collaborator)
    (products : list Analysed) : M (list ScoredProduct) :=
  match ai with
  | None => mapM basicAnalysis products
  | Some scoreBatch =>
      match scoreBatch (productSummaries products) with
      | Returned analysisArray =>
          ret (mapi_from 0 (mergeAnalysis analysisArray) products)
      | Threw => mapM errorAnalysis products
      end
  end.

(** ** Niche aggregator *)

Definition has_niche (c : Category) (niches : list Niche.t) : bool :=
  existsb (fun n => Category_eqb (Niche.category n) c) niches.

Definition bump (p : ScoredProduct) (n : Niche.t) : Niche.t :=
  {| Niche.category := Niche.category n;
     Niche.count := (Niche.count n + 1)%Z;
     Niche.avgScore := Niche.avgScore n + aiScore p;
     Niche.totalSales := (Niche.totalSales n + sp_sold p)%Z |}.

(** One turn of [sortedProducts.forEach]: the object [niches] is the list
    of its values in insertion order. *)
Definition niche_step (niches : list Niche.t) (p : ScoredProduct) : list Niche.t :=
  let c := sp_category p in
  let niches :=
    if has_niche c niches then niches
    else (niches ++ [ {| Niche.category := c; Niche.count := 0;
                         Niche.avgScore := 0; Niche.totalSales := 0 |} ])%list in
  map (fun n => if Category_eqb (Niche.category n) c then bump p n else n) niches.

Definition finish_niche (n : Niche.t) : Niche.t :=
  {| Niche.category := Niche.category n;
     Niche.count := Niche.count n;
     Niche.avgScore :=
       inject_Z (Math_round (Niche.avgScore n / inject_Z (Niche.count n)));
     Niche.totalSales := Niche.totalSales n |}.

Definition by_avgScore (a b : Niche.t) : num :=
  nsub (Fin (Niche.avgScore b)) (Fin (Niche.avgScore a)).

Definition trendingNiches (sortedProducts : list ScoredProduct) : list Niche.t :=
  Array_sort by_avgScore
    (map finish_niche (fold_left niche_step sortedProducts [])).

(** ** The recommendations route *)

Inductive Upstream : Type :=
| UpstreamThrew (message : string)
| UpstreamReturned (items : list Raw.t).

Inductive Response : Type :=
| Failure (error : string)
| Success (products : list ScoredProduct) (niches : list Niche.t)
          (totalProducts : nat).

Definition success (r : Response) : bool :=
  match r with
  | Failure _ => false
  | Success _ _ _ => true
  end.

(** The loop over the selected categories: a category whose query fails
    contributes nothing. *)
Definition collectProducts (scrapecreators : Category -> Upstream)
    (selectedCategories : list Category) : list Product :=
  flat_map
    (fun c =>
       match scrapecreators c with
       | UpstreamThrew _ => []
       | UpstreamReturned items =>
           let processed := map (normalizeItem c) (firstn 8 items) in
           filter (fun p => isEnglish (title p)) processed
       end)
    selectedCategories.

Definition by_aiScore (a b : ScoredProduct) : num :=
  nsub (Fin (aiScore b)) (Fin (aiScore a)).

(** From the check of the pool to the response.  A title that
    [encodeURIComponent] rejects makes the mapping of the candidates throw,
    before anything is scored; the route's [catch] answers with the
    message. *)
Definition recommendFrom (ai : option Collaborator)
    (allProducts : list Product) : M Response :=
  match allProducts with
  | [] => ret (Failure "No products found. Try again or check your API key.")
  | _ =>
      match map_throwing addAnalysis (validProducts allProducts) with
      | None => ret (Failure URIError_message)
      | Some productsWithAnalysis =>
          analyzedProducts <- analyzeProductsWithAI ai productsWithAnalysis ;;
          let sortedProducts := Array_sort by_aiScore analyzedProducts in
          ret (Success sortedProducts (trendingNiches sortedProducts)
                       (List.length sortedProducts))
      end
  end.

Definition recommendations (scrapecreators : Category -> Upstream)
    (selectedCategories : list Category) (ai : option Collaborator) : M Response :=
  recommendFrom ai (collectProducts scrapecreators selectedCategories).

(** ** The analyze-product route *)

Record ProductRequest : Type := {
  req_title : option text;
  req_price : option double
}.

Inductive AnalyzeResponse : Type :=
| AnalyzeFailure (error : string)
| AnalyzeSuccess (margins : MarginBreakdown) (sourcing : list SourcingOption).

(** [encodeURIComponent(undefined)] encodes the string ["undefined"]. *)
Definition title_text (t : option text) : text :=
  match t with
  | Some s => s
  | None => text_of_string "undefined"
  end.

Definition analyzeProduct (product : option ProductRequest) : AnalyzeResponse :=
  match product with
  | None => AnalyzeFailure "Invalid product data"
  | Some p =>
      match req_price p with
      | Some x =>
          if double_truthy x
          then
            let margins := calculateMargins x in
            match getSourcingRecommendations (title_text (req_title p)) with
            | Some sourcing => AnalyzeSuccess margins sourcing
            | None => AnalyzeFailure URIError_message
            end
          else AnalyzeFailure "Invalid product data"
      | None => AnalyzeFailure "Invalid product data"
      end
  end.

(** ** Vocabulary of the properties *)

(** Ordered by descending [key]: each element is at least every later one. *)
Definition descending {A : Type} (key : A -> Q) (a b : A) : Prop := key b <= key a.

Definition price_in_range (p : Product) : Prop :=
  exists q, price p = Fin q /\ 0 < q < 200.

(** The string [d] denotes a number within [tol] of [x]. *)
Definition within (d : fixed) (x tol : Q) : Prop :=
  exists v, fixed_value d = Some v /\ Qabs (v - x) <= tol.

(** The cost model in the words of the specification. *)
Definition spec_supplierPrice (p : Q) : Q := (30 # 100) * p.
Definition spec_shippingCost : Q := 5.
Definition spec_adCost (p : Q) : Q := (25 # 100) * p.
Definition spec_platformFees (p : Q) : Q := (15 # 100) * p.
Definition spec_totalCost (p : Q) : Q :=
  spec_supplierPrice p + spec_shippingCost + spec_adCost p + spec_platformFees p.
Definition spec_profit (p : Q) : Q := p - spec_totalCost p.
Definition spec_profitMargin (p : Q) : Q := spec_profit p / p * 100.

(** What the rounding of the calculator's own operations can add to the
    rounding of [toFixed], for prices up to a million. *)
Definition slack : Q := 1 # 1000000000.

(** Monetary fields to 2 decimals (half a cent), the margin to 1 decimal. *)
Definition monetary_fields_ok (m : MarginBreakdown) (p : Q) : Prop :=
  within (supplierPrice m) (spec_supplierPrice p) ((1 # 200) + slack) /\
  within (shippingCost m) spec_shippingCost ((1 # 200) + slack) /\
  within (adCost m) (spec_adCost p) ((1 # 200) + slack) /\
  within (platformFees m) (spec_platformFees p) ((1 # 200) + slack) /\
  within (totalCost m) (spec_totalCost p) ((1 # 200) + slack) /\
  within (profit m) (spec_profit p) ((1 # 200) + slack).

Definition margin_field_ok (m : MarginBreakdown) (p : Q) : Prop :=
  within (profitMargin m) (spec_profitMargin p) ((1 # 20) + slack).

(** The breakdown of the price [x] against the cost model at the value of
    [x]. *)
Definition margins_in_tolerance (x : double) : Prop :=
  monetary_fields_ok (calculateMargins x) (SF2Q x) /\
  margin_field_ok (calculateMargins x) (SF2Q x).

(** A finite double: a zero, or a mantissa below [2^53] with an exponent
    between -1074 and 971. *)
Definition finite64 (x : double) : Prop :=
  match x with
  | S754_zero _ => True
  | S754_finite _ m e => (Zpos m < 2 ^ 53)%Z /\ (-1074 <= e <= 971)%Z
  | _ => False
  end.

(** A zero or a mantissa with an exponent, of any size. *)
Definition is_finite (x : double) : Prop :=
  match x with
  | S754_zero _ | S754_finite _ _ _ => True
  | _ => False
  end.

(** The mantissa has all 53 bits. *)
Definition full_mantissa (y : double) : Prop :=
  match y with
  | S754_finite _ m _ => (2 ^ 52 <= Zpos m)%Z
  | _ => True
  end.

(** Half a unit in the last place of a normal double, relative to its
    value, and half the smallest subnormal. *)
Definition eps : Q := 1 # 9007199254740992.
Definition eta : Q := pow2 (-1075).

(** [r] is a finite double that a correctly rounded operation can return
    for the exact result [v]. *)
Definition rounds_to (r : double) (v : Q) : Prop :=
  finite64 r /\ Qabs (SF2Q r - v) <= eps * Qabs v + eta /\
  (0 <= v -> 0 <= SF2Q r) /\ (v <= 0 -> SF2Q r <= 0).

(** The shifted mantissa with its round and sticky bits stands for
    [N / D]: [m] is the quotient, the round bit tells whether the remainder
    reaches half of [D], the sticky bit whether anything is left beyond. *)
Definition represents (mrs : shr_record) (N D : Z) : Prop :=
  (0 <= shr_m mrs /\ 0 < D /\ 0 <= N - shr_m mrs * D < D /\
   (shr_r mrs = true <-> D <= 2 * (N - shr_m mrs * D)) /\
   (shr_s mrs = false <-> (N - shr_m mrs * D = 0 \/ 2 * (N - shr_m mrs * D) = D)))%Z.

(** The location [l] is that of [N / D] between [m] and [m + 1]. *)
Definition located (l : location) (N D m : Z) : Prop :=
  (0 <= m /\ 0 < D /\ 0 <= N - m * D < D /\
   match l with
   | loc_Exact => N - m * D = 0
   | loc_Inexact Lt => 0 < 2 * (N - m * D) < D
   | loc_Inexact Eq => 2 * (N - m * D) = D
   | loc_Inexact Gt => D < 2 * (N - m * D)
   end)%Z.

Definition mk_float (s : bool) (m e : Z) : double :=
  match m with
  | Zpos p => S754_finite s p e
  | _ => S754_zero s
  end.

(** The doubles of the calculator's literals. *)
Definition lit_supplier : double := double_of_Q (3 # 10).
Definition lit_ad : double := double_of_Q (25 # 100).
Definition lit_fees : double := double_of_Q (15 # 100).
Definition lit_shipping : double := double_of_Q 5.
Definition hundred : double := double_of_Q 100.

(** [likes / plays * 100] on doubles. *)
Definition percentage (likes plays : Z) : double :=
  mul64 (div64 (Z2SF likes) (Z2SF plays)) hundred.

(** Sample prices: one hundred, the smallest price the cost model is
    claimed for, a positive price too small to divide by, a price beyond
    2^49, a price in the rounding tie of the advertising cost, the double
    just below the break-even price 50/3, and ten. *)
Definition price_100 : double := double_of_Q 100.
Definition price_zero : double := S754_zero false.
Definition price_tiny : double := S754_finite false 20240225330731 (-1074).
Definition price_huge : double := double_of_Q 1000000000000001.
Definition price_19_90 : double := double_of_Q (199 # 10).
Definition price_below_break_even : double := S754_finite false 4691249611844266 (-48).
Definition price_10 : double := double_of_Q 10.

(** [Math.random] returns a number in [0, 1). *)
Definition unit_draws (g : Rng) : Prop := forall n, 0 <= draws g n < 1.

Definition score_in_range (p : ScoredProduct) : Prop := 0 <= aiScore p <= 100.

(** Every score the collaborator returned lies in [0, 100]. *)
Definition answer_scores_in_range (o : AIOutcome) : Prop :=
  match o with
  | Threw => True
  | Returned analysisArray =>
      Forall (fun a => forall q, Assessment.aiScore a = Some q -> 0 <= q <= 100)
             analysisArray
  end.

(** The score the answer holds for the product at 0-based position [i]:
    that of the first assessment whose position index is [i + 1]. *)
Definition returned_score (analysisArray : list Assessment.t) (i : nat) : option Q :=
  match find (matches_position i) analysisArray with
  | Some a => Assessment.aiScore a
  | None => None
  end.

(** The score of [p] is the returned score [r], or 75 when none was
    returned or the returned one is zero. *)
Definition score_merged (r : option Q) (p : ScoredProduct) : Prop :=
  match r with
  | Some q => if Qeq_bool q 0 then aiScore p = 75 else aiScore p = q
  | None => aiScore p = 75
  end.

(** No collaborator is configured, or the assisted path fails. *)
Definition fallback_runs (ai : option Collaborator) (products : list Analysed) : Prop :=
  ai = None \/
  exists scoreBatch,
    ai = Some scoreBatch /\ scoreBatch (productSummaries products) = Threw.

Definition heuristic_fields (p : ScoredProduct) : Prop :=
  70 <= aiScore p <= 100 /\
  (trend p = "Rising" \/ trend p = "Stable") /\
  (competition p = "Medium" \/ competition p = "High") /\
  (recommendation p = "Analyze manually for best results" \/
   recommendation p = "Manual analysis recommended").


(** The selected price string after the stripping rule of its currency. *)
Definition strippedPrice (info : PriceInfo.t) : string :=
  if is_str (PriceInfo.currency_name info) "VND" then strip_dots (priceStr info)
  else if is_str (PriceInfo.currency_name info) "USD"
          || is_str (PriceInfo.currency_symbol info) "$"
       then strip_commas (priceStr info)
  else strip_non_numeric (priceStr info).

(** [likes / views * 100] rounded to 2 decimals. *)
Definition rounded_engagement (likes views : Z) : Engagement :=
  EngFixed (toFixedQ (inject_Z likes / inject_Z views * 100) 2).

Definition engagement_as_specified (p : Product) : Prop :=
  ((0 < views p)%Z -> engagement p = rounded_engagement (likes p) (views p)) /\
  (views p = 0%Z -> engagement p = EngZero).

(** The engagement is a [toFixed] string that denotes a number within
    [tol] of [x]. *)
Definition engagement_within (e : Engagement) (x tol : Q) : Prop :=
  exists d, e = EngFixed d /\ within d x tol.

(** The request's price is absent, a zero or NaN. *)
Definition price_falsy (p : ProductRequest) : Prop :=
  match req_price p with
  | None => True
  | Some x => double_truthy x = false
  end.

(** The products of category [c], in order. *)
Definition members (c : Category) (ps : list ScoredProduct) : list ScoredProduct :=
  filter (fun p => Category_eqb (sp_category p) c) ps.

Definition Qsum (l : list Q) : Q := fold_left Qplus l 0.
Definition Zsum (l : list Z) : Z := fold_right Z.add 0%Z l.


(** What [niches] holds for category [c] once the products [ps] have been
    visited: the member count and the running sums. *)
Definition niche_totals (ps : list ScoredProduct) (c : Category) : Niche.t :=
  {| Niche.category := c;
     Niche.count := Z.of_nat (List.length (members c ps));
     Niche.avgScore := Qsum (map aiScore (members c ps));
     Niche.totalSales := Zsum (map sp_sold (members c ps)) |}.

(** The categories of [ps], each once, in order of first appearance. *)
Definition note_category (cs : list Category) (p : ScoredProduct) : list Category :=
  if existsb (fun c => Category_eqb c (sp_category p)) cs then cs
  else (cs ++ [sp_category p])%list.

Definition distinct_categories (ps : list ScoredProduct) : list Category :=
  fold_left note_category ps [].


(** ** Sample inputs *)

Definition empty_item : Raw.t :=
  {| Raw.product_name := None; Raw.title := None; Raw.product_img_url := None;
     Raw.image := None; Raw.cover := None; Raw.statistics := None;
     Raw.rate_info := None; Raw.sold_info := None; Raw.top_sold_count := None;
     Raw.top_sales := None; Raw.product_price_info := None; Raw.price := None;
     Raw.min_price := None |}.

Definition desk_lamp : Product :=
  {| title := text_of_string "Desk Lamp"; image := EmptyString; views := 1000; likes := 50; sold := 10;
     price := Fin 25; engagement := EngZero; category := HomeDecor;
     rawData := empty_item |}.

(** The sourcing entries for a name already encoded. *)
Definition sourcing_for (name : string) : list SourcingOption :=
  [ {| supplier := "AliExpress";
       url := "https://www.aliexpress.com/wholesale?SearchText=" ++ name;
       avgPrice := "Low"; shippingTime := "15-30 days"; reliability := "Medium" |};
    {| supplier := "CJ Dropshipping";
       url := "https://cjdropshipping.com/search?keyword=" ++ name;
       avgPrice := "Medium"; shippingTime := "7-15 days"; reliability := "High" |};
    {| supplier := "Spocket";
       url := "https://www.spocket.co/search/" ++ name;
       avgPrice := "High"; shippingTime := "2-7 days"; reliability := "High" |} ].

(** The candidate [desk_lamp] with its margins and its sourcing. *)
Definition analysed_lamp : Analysed :=
  {| product := desk_lamp;
     margins := calculateMargins (to_double (price desk_lamp));
     sourcing := sourcing_for "Desk%20Lamp" |}.

(** A lone high surrogate, and a product named by it. *)
Definition lone_surrogate : text := [U16 (ascii_of_nat 216) zero].

Definition unnameable : Product :=
  {| title := lone_surrogate; image := EmptyString; views := 1000; likes := 50;
     sold := 10; price := Fin 25; engagement := EngZero; category := HomeDecor;
     rawData := empty_item |}.

(** No unpaired surrogate occurs in the text ([isWellFormed]). *)
Fixpoint well_formed (t : text) : bool :=
  match t with
  | [] => true
  | u :: r =>
      if is_high_surrogate (unit_code u) then
        match r with
        | v :: r' => is_low_surrogate (unit_code v) && well_formed r'
        | [] => false
        end
      else negb (is_low_surrogate (unit_code u)) && well_formed r
  end.

Definition half_draws : Rng := {| draws := fun _ => 1 # 2; pos := 0 |}.

(** A collaborator that scores the first product 150. *)
Definition overscoring : Collaborator :=
  fun _ => Returned
    [ {| Assessment.productIndex := Some 1%Z; Assessment.aiScore := Some 150;
         Assessment.trend := Some "Rising"; Assessment.competition := Some "Low";
         Assessment.recommendation := Some "Sell it" |} ].

(** A collaborator whose call fails. *)
Definition failing : Collaborator := fun _ => Threw.


(** A collaborator that answers as asked. *)
Definition well_behaved : Collaborator :=
  fun _ => Returned
    [ {| Assessment.productIndex := Some 1%Z; Assessment.aiScore := Some 85;
         Assessment.trend := Some "Rising"; Assessment.competition := Some "Medium";
         Assessment.recommendation := Some "Strong engagement" |} ].

(** An item with a name and no price at all. *)
Definition unpriced_item : Raw.t :=
  {| Raw.product_name := Some (text_of_string "Desk Lamp"); Raw.title := None;
     Raw.product_img_url := None; Raw.image := None; Raw.cover := None;
     Raw.statistics := None; Raw.rate_info := None; Raw.sold_info := None;
     Raw.top_sold_count := None; Raw.top_sales := None;
     Raw.product_price_info := None; Raw.price := None; Raw.min_price := None |}.

Definition unpriced_upstream : Category -> Upstream :=
  fun _ => UpstreamReturned [unpriced_item].

Definition unavailable_upstream : Category -> Upstream :=
  fun _ => UpstreamThrew "API key not set. Click Settings to add your key.".

(** [{sale_price_format: "$12,99", currency_symbol: "$"}] *)
Definition comma_price_info : PriceInfo.t :=
  {| PriceInfo.sale_price_decimal := None;
     PriceInfo.sale_price_format := Some "$12,99";
     PriceInfo.min_price := None; PriceInfo.price := None;
     PriceInfo.currency_name := None; PriceInfo.currency_symbol := Some "$" |}.

Definition comma_price_item : Raw.t :=
  {| Raw.product_name := Some (text_of_string "Desk Lamp"); Raw.title := None;
     Raw.product_img_url := None; Raw.image := None; Raw.cover := None;
     Raw.statistics := None; Raw.rate_info := None; Raw.sold_info := None;
     Raw.top_sold_count := None; Raw.top_sales := None;
     Raw.product_price_info := Some comma_price_info; Raw.price := None;
     Raw.min_price := None |}.

(** An item whose views and likes come from [rate_info]. *)
Definition rated_item : Raw.t :=
  {| Raw.product_name := Some (text_of_string "Desk Lamp"); Raw.title := None;
     Raw.product_img_url := None; Raw.image := None; Raw.cover := None;
     Raw.statistics := None;
     Raw.rate_info := Some {| Raw.view_count := Some 1000%Z;
                              Raw.like_count := Some 50%Z |};
     Raw.sold_info := None; Raw.top_sold_count := None; Raw.top_sales := None;
     Raw.product_price_info := None; Raw.price := Some 2500%Z;
     Raw.min_price := None |}.

(** An item with video statistics: 2000 plays, 150 likes. *)
Definition played_item : Raw.t :=
  {| Raw.product_name := Some (text_of_string "Desk Lamp"); Raw.title := None;
     Raw.product_img_url := None; Raw.image := None; Raw.cover := None;
     Raw.statistics := Some {| Raw.play_count := Some 2000%Z;
                               Raw.digg_count := Some 150%Z |};
     Raw.rate_info := None;
     Raw.sold_info := None; Raw.top_sold_count := None; Raw.top_sales := None;
     Raw.product_price_info := None; Raw.price := Some 2500%Z;
     Raw.min_price := None |}.

(** An item with 160 plays and 23 likes: 14.375 per cent. *)
Definition tie_item : Raw.t :=
  {| Raw.product_name := Some (text_of_string "Desk Lamp"); Raw.title := None;
     Raw.product_img_url := None; Raw.image := None; Raw.cover := None;
     Raw.statistics := Some {| Raw.play_count := Some 160%Z;
                               Raw.digg_count := Some 23%Z |};
     Raw.rate_info := None;
     Raw.sold_info := None; Raw.top_sold_count := None; Raw.top_sales := None;
     Raw.product_price_info := None; Raw.price := Some 2500%Z;
     Raw.min_price := None |}.

(** An item whose statistics report no play, and whose views and likes
    come from [rate_info]. *)
Definition unplayed_item : Raw.t :=
  {| Raw.product_name := Some (text_of_string "Desk Lamp"); Raw.title := None;
     Raw.product_img_url := None; Raw.image := None; Raw.cover := None;
     Raw.statistics := Some {| Raw.play_count := Some 0%Z;
                               Raw.digg_count := Some 7%Z |};
     Raw.rate_info := Some {| Raw.view_count := Some 1000%Z;
                              Raw.like_count := Some 50%Z |};
     Raw.sold_info := None; Raw.top_sold_count := None; Raw.top_sales := None;
     Raw.product_price_info := None; Raw.price := Some 2500%Z;
     Raw.min_price := None |}.

(** A request for a lamp at the price [x]. *)
Definition lamp_request (x : double) : ProductRequest :=
  {| req_title := Some (text_of_string "Desk Lamp"); req_price := Some x |}.

(** A request whose title is a lone surrogate, at the price 10. *)
Definition surrogate_request : ProductRequest :=
  {| req_title := Some lone_surrogate; req_price := Some (double_of_Q 10) |}.

(** ** Vocabulary of the further properties *)

(** The query for category [c] came back. *)
Definition upstream_returned (scrapecreators : Category -> Upstream) (c : Category) : bool :=
  match scrapecreators c with
  | UpstreamReturned _ => true
  | UpstreamThrew _ => false
  end.

(** A collaborator that answers for position 2, then twice for position 1:
    first with score 0 and no trend, then with score 90. *)
Definition duplicating : Collaborator :=
  fun _ => Returned
    [ {| Assessment.productIndex := Some 2%Z; Assessment.aiScore := Some 60;
         Assessment.trend := Some "Declining"; Assessment.competition := Some "High";
         Assessment.recommendation := Some "Skip" |};
      {| Assessment.productIndex := Some 1%Z; Assessment.aiScore := Some 0;
         Assessment.trend := None; Assessment.competition := Some "Low";
         Assessment.recommendation := Some EmptyString |};
      {| Assessment.productIndex := Some 1%Z; Assessment.aiScore := Some 90;
         Assessment.trend := Some "Rising"; Assessment.competition := Some "High";
         Assessment.recommendation := Some "Sell it" |} ].

(** An upstream that returns the one item [played_item] for every category. *)
Definition priced_upstream : Category -> Upstream :=
  fun _ => UpstreamReturned [played_item].

(** The string [toFixed] returned starts with a minus sign. *)
Definition fixed_negative (d : fixed) : bool :=
  match d with
  | FixNaN => false
  | FixInf neg | FixSci neg _ | FixDec neg _ _ => neg
  end.

(** Every character of [s] satisfies [p]. *)
Fixpoint all_chars (p : ascii -> bool) (s : string) : bool :=
  match s with
  | EmptyString => true
  | String c r => p c && all_chars p r
  end.

(** Unreserved characters and the percent sign of an escape. *)
Definition url_safe (c : ascii) : bool := is_unreserved c || Ascii.eqb c "%".

(** ** Configuration and collaborator handles *)

(** The object kept in [config.json]; the keys are strings. *)
Module Config.
Record t : Type := {
  apiKey : option string;
  openaiKey : option string;
  geminiKey : option string
}.
Definition empty : t := {| apiKey := None; openaiKey := None; geminiKey := None |}.
End Config.

(** The file [config.json]: not there, there but unreadable as JSON, or
    holding a configuration.  Writing it is taken to succeed. *)
Inductive ConfigFile : Type :=
| NoFile
| BadFile
| GoodFile (c : Config.t).

Definition loadConfig (file : ConfigFile) : Config.t :=
  match file with
  | GoodFile c => c
  | NoFile | BadFile => Config.empty
  end.

Definition saveConfig (data : Config.t) : ConfigFile := GoodFile data.

(** A client object, [new OpenAI({ apiKey })] or [new GoogleGenerativeAI(key)]:
    all the pipeline knows of it is the key it was built with. *)
Record Handle : Type := { handle_key : string }.

(** The process state: the file and the two module-level handles. *)
Record Server : Type := {
  file : ConfigFile;
  openai : option Handle;
  genAI : option Handle
}.

(** A string that is present and not empty. *)
Definition truthy_str (a : option string) : option string :=
  match a with
  | Some EmptyString | None => None
  | Some s => Some s
  end.

Definition getOpenAI (s : Server) : option Handle * Server :=
  match openai s with
  | Some h => (Some h, s)
  | None =>
      match truthy_str (Config.openaiKey (loadConfig (file s))) with
      | Some k =>
          let h := {| handle_key := k |} in
          (Some h, {| file := file s; openai := Some h; genAI := genAI s |})
      | None => (None, s)
      end
  end.

Definition getGemini (s : Server) : option Handle * Server :=
  match genAI s with
  | Some h => (Some h, s)
  | None =>
      match truthy_str (Config.geminiKey (loadConfig (file s))) with
      | Some k =>
          let h := {| handle_key := k |} in
          (Some h, {| file := file s; openai := openai s; genAI := Some h |})
      | None => (None, s)
      end
  end.

(** [GET /api/config] *)
Record ConfigView : Type := {
  hasKey : bool;
  view_apiKey : string;
  hasOpenAIKey : bool;
  view_openaiKey : string;
  hasGeminiKey : bool;
  view_geminiKey : string
}.

Definition is_truthy_str (a : option string) : bool :=
  match truthy_str a with
  | Some _ => true
  | None => false
  end.

Definition route_config_get (s : Server) : ConfigView :=
  let config := loadConfig (file s) in
  {| hasKey := is_truthy_str (Config.apiKey config);
     view_apiKey := str_or (Config.apiKey config) EmptyString;
     hasOpenAIKey := is_truthy_str (Config.openaiKey config);
     view_openaiKey := str_or (Config.openaiKey config) EmptyString;
     hasGeminiKey := is_truthy_str (Config.geminiKey config);
     view_geminiKey := str_or (Config.geminiKey config) EmptyString |}.

(** [POST /api/config]: a field of the body is [None] when it is
    [undefined]. *)
Record ConfigBody : Type := {
  body_apiKey : option string;
  body_openaiKey : option string;
  body_geminiKey : option string
}.

Definition route_config_post (body : ConfigBody) (s : Server) : Server :=
  let config := loadConfig (file s) in
  let config :=
    match body_apiKey body with
    | Some k => {| Config.apiKey := Some k;
                   Config.openaiKey := Config.openaiKey config;
                   Config.geminiKey := Config.geminiKey config |}
    | None => config
    end in
  let '(config, openai') :=
    match body_openaiKey body with
    | Some k => ({| Config.apiKey := Config.apiKey config;
                    Config.openaiKey := Some k;
                    Config.geminiKey := Config.geminiKey config |}, None)
    | None => (config, openai s)
    end in
  let '(config, genAI') :=
    match body_geminiKey body with
    | Some k => ({| Config.apiKey := Config.apiKey config;
                    Config.openaiKey := Config.openaiKey config;
                    Config.geminiKey := Some k |}, None)
    | None => (config, genAI s)
    end in
  {| file := saveConfig config; openai := openai'; genAI := genAI' |}.

(** What a client of the server can do to the handles and the file. *)
Inductive Operation : Type :=
| CallGetOpenAI
| CallGetGemini
| PostConfig (body : ConfigBody).

Definition perform (s : Server) (op : Operation) : Server :=
  match op with
  | CallGetOpenAI => snd (getOpenAI s)
  | CallGetGemini => snd (getGemini s)
  | PostConfig body => route_config_post body s
  end.

(** A cached handle was built with the key that is on file. *)
Definition handles_current (s : Server) : Prop :=
  (forall h, openai s = Some h ->
     truthy_str (Config.openaiKey (loadConfig (file s))) = Some (handle_key h)) /\
  (forall h, genAI s = Some h ->
     truthy_str (Config.geminiKey (loadConfig (file s))) = Some (handle_key h)).

(** ** The ScrapeCreators helper and the proxy routes *)

(** The outcome of a call that may throw. *)
Inductive Outcome (D : Type) : Type :=
| Thrown (message : string)
| Fetched (data : D).
Arguments Thrown {D} _.
Arguments Fetched {D} _.

(** The service behind [axios.get]: given the key sent in the header, the
    endpoint and the query parameters, it answers with data or the call
    throws (transport error, time-out, status outside 2xx). *)
Definition Network (D : Type) : Type :=
  string -> string -> list (string * option string) -> Outcome D.

Definition scrapecreators {D : Type} (network : Network D) (s : Server)
    (endpoint : string) (params : list (string * option string)) : Outcome D :=
  match truthy_str (Config.apiKey (loadConfig (file s))) with
  | None => Thrown "API key not set. Click Settings to add your key."
  | Some key => network key endpoint params
  end.

Inductive ProxyResponse (D : Type) : Type :=
| ProxyFailure (error : string)
| ProxySuccess (data : D).
Arguments ProxyFailure {D} _.
Arguments ProxySuccess {D} _.

Definition answer {D E : Type} (f : D -> E) (o : Outcome D) : ProxyResponse E :=
  match o with
  | Thrown message => ProxyFailure message
  | Fetched data => ProxySuccess (f data)
  end.

Section Proxies.
Context {D : Type} (network : Network D) (credits_remaining : D -> option Z).

Definition route_tiktok_search (s : Server) (q : option string) : ProxyResponse D :=
  answer (fun d => d)
    (scrapecreators network s "/v1/tiktok/search/keyword" [("query", q)]).

Definition route_tiktok_top (s : Server) (q : option string) : ProxyResponse D :=
  answer (fun d => d)
    (scrapecreators network s "/v1/tiktok/search/top"
       [("query", Some (str_or q "viral"))]).

Definition route_tiktok_shop (s : Server) (q : option string) : ProxyResponse D :=
  answer (fun d => d)
    (scrapecreators network s "/v1/tiktok/shop/search" [("query", q)]).

Definition route_instagram_reels (s : Server) (q : option string) : ProxyResponse D :=
  answer (fun d => d)
    (scrapecreators network s "/v1/instagram/reels/search" [("query", q)]).

Definition route_test (s : Server) : ProxyResponse (option Z) :=
  answer credits_remaining
    (scrapecreators network s "/v1/tiktok/search/top" [("query", Some "test")]).
End Proxies.

(** What the shop search returns, as far as the pipeline reads it:
    [data.products || data.data || []]; an array is truthy even when empty. *)
Record ShopData : Type := {
  shop_products : option (list Raw.t);
  shop_data : option (list Raw.t)
}.

Definition shop_items (d : ShopData) : list Raw.t :=
  match shop_products d with
  | Some items => items
  | None =>
      match shop_data d with
      | Some items => items
      | None => []
      end
  end.

(** The query of one category inside the recommendations route. *)
Definition queryCategory (network : Network ShopData) (s : Server) (c : Category) : Upstream :=
  match scrapecreators network s "/v1/tiktok/shop/search"
          [("query", Some (category_name c)); ("region", Some "US")] with
  | Thrown message => UpstreamThrew message
  | Fetched data => UpstreamReturned (shop_items data)
  end.

(** The engine's [sort] under the comparator [() => Math.random() - 0.5]:
    the comparator is not consistent, so the order that results and the
    number of calls (each one a draw) are the engine's. *)
Definition RandomSort : Type := list Category -> M (list Category).

(** The recommendations route on the process state.  [catalog] is the
    module-level array [TRENDING_CATEGORIES] as the request finds it; the
    sort is in place, so the route leaves the array reordered.  The
    categories are queried with the key on file, and the OpenAI handle is
    fetched (and cached) only when the candidates have their margins and
    their sourcing. *)
Definition route_recommendations (network : Network ShopData)
    (service : Handle -> Collaborator) (sort_randomly : RandomSort)
    (catalog : list Category) (s : Server) (g : Rng)
    : Response * list Category * Server * Rng :=
  let '(catalog', g1) := sort_randomly catalog g in
  let selectedCategories := firstn 3 catalog' in
  match collectProducts (queryCategory network s) selectedCategories with
  | [] => (Failure "No products found. Try again or check your API key.",
           catalog', s, g1)
  | allProducts =>
      match map_throwing addAnalysis (validProducts allProducts) with
      | None => (Failure URIError_message, catalog', s, g1)
      | Some _ =>
          let '(handle, s') := getOpenAI s in
          let '(response, g') :=
            recommendFrom (option_map service handle) allProducts g1 in
          (response, catalog', s', g')
      end
  end.

(** The value a key has after a post: the posted one, or the stored one
    when the body does not mention the key. *)
Definition posted (body stored : option string) : option string :=
  match body with
  | Some k => Some k
  | None => stored
  end.

(** The process as it starts: no handle yet. *)
Definition startup (f : ConfigFile) : Server :=
  {| file := f; openai := None; genAI := None |}.

(** A configuration file with a ScrapeCreators key and an OpenAI key. *)
Definition keyed_file : ConfigFile :=
  GoodFile {| Config.apiKey := Some "sc-key"; Config.openaiKey := Some "sk-old";
              Config.geminiKey := None |}.

(** A body that posts a new OpenAI key and nothing else. *)
Definition new_openai_key : ConfigBody :=
  {| body_apiKey := None; body_openaiKey := Some "sk-new"; body_geminiKey := None |}.

(** A service that is down. *)
Definition network_down : Network ShopData :=
  fun _ _ _ => Thrown "timeout of 30000ms exceeded".

(** An engine that sorts by insertion and asks the comparator
    [() => Math.random() - 0.5] once per comparison. *)
Fixpoint insert_randomly (x : Category) (l : list Category) : M (list Category) :=
  match l with
  | [] => ret [x]
  | y :: r =>
      d <- Math_random ;;
      if Qlt_bool 0 (d - (1 # 2))
      then r' <- insert_randomly x r ;; ret (y :: r')
      else ret (x :: l)
  end.

Fixpoint insertion_sort_randomly (l : list Category) : M (list Category) :=
  match l with
  | [] => ret []
  | x :: r => r' <- insertion_sort_randomly r ;; insert_randomly x r'
  end.

(** ** The get-product-images route *)

Record ImagesRequest : Type := {
  productName : option text;
  productImage : option string
}.

Record Image : Type := {
  image_url : string;
  image_source : string;
  image_type : string
}.

Inductive ImagesResponse : Type :=
| ImagesFailure (error : string)
| ImagesSuccess (images : list Image) (aliexpress : string) (google : string).

(** A text that is present and not empty. *)
Definition truthy_text (a : option text) : option text :=
  match a with
  | Some [] | None => None
  | Some t => Some t
  end.

Definition route_get_product_images (request : ImagesRequest) : ImagesResponse :=
  match truthy_text (productName request) with
  | None => ImagesFailure "Product name required"
  | Some name =>
      let images :=
        match truthy_str (productImage request) with
        | Some u => [ {| image_url := u; image_source := "TikTok Shop";
                         image_type := "product" |} ]
        | None => []
        end in
      match encodeURIComponent name with
      | None => ImagesFailure URIError_message
      | Some name1 =>
          let aliExpressSearchUrl :=
            "https://www.aliexpress.com/wholesale?SearchText=" ++ name1 in
          match encodeURIComponent name with
          | None => ImagesFailure URIError_message
          | Some name2 =>
              ImagesSuccess images aliExpressSearchUrl
                ("https://www.google.com/search?q=" ++ name2 ++ "&tbm=isch")
          end
      end
  end.

(** ** The generate-content-prompts route *)

(** A piece of a caption: text, or a character given by its code point
    (the captions hold characters beyond U+00FF). *)
Inductive Piece : Type :=
| Text (s : string)
| Glyph (codepoint : N).

Definition Caption : Type := list Piece.

Record PromptSet : Type := {
  imagePrompts : list string;
  videoPrompts : list string;
  socialCaptions : list Caption
}.

Definition fire : Piece := Glyph 128293.        (* U+1F525 *)
Definition heart_eyes : Piece := Glyph 128525.  (* U+1F60D *)
Definition sparkles : Piece := Glyph 10024.     (* U+2728 *)

Definition default_imagePrompts (title : string) : list string :=
  [ "Professional product photography of " ++ title
      ++ " on white background, studio lighting, high quality, commercial photography";
    title ++ " in lifestyle setting, natural lighting, Instagram aesthetic, trendy background";
    "Creative flat lay composition featuring " ++ title
      ++ ", minimalist style, pastel colors, top-down view" ].

Definition default_videoPrompts (title : string) : list string :=
  [ "15-second product showcase of " ++ title
      ++ ", smooth rotation, professional lighting, modern aesthetic";
    "TikTok-style video showing " ++ title
      ++ " in use, dynamic angles, energetic vibe, trending music";
    "Unboxing video for " ++ title ++ ", ASMR style, close-up shots, satisfying reveal" ].

(** The three sets of default captions of the source: with no Gemini
    handle, after a failed call, after an answer that does not parse. *)
Definition captions_without_gemini (title category : string) : list Caption :=
  [ [fire; Text (" Just found the perfect " ++ category ++ "! " ++ title
                 ++ " is trending right now. Link in bio! #trending #musthave")];
    [Text ("This " ++ title ++ " is a game changer! "); heart_eyes;
     Text " Can't believe the quality for the price. Who else needs this? #productreview #viral"];
    [Text ("POV: You discover the " ++ title ++ " everyone's talking about ");
     sparkles; Text " #fyp #trending #shopsmall"] ].

Definition captions_after_error (title category : string) : list Caption :=
  [ [fire; Text (" Just found the perfect " ++ category ++ "! " ++ title
                 ++ " is trending right now. Link in bio! #trending #musthave")];
    [Text ("This " ++ title ++ " is a game changer! "); heart_eyes;
     Text " Can't believe the quality for the price. #productreview #viral"];
    [Text ("POV: You discover the " ++ title ++ " everyone's talking about ");
     sparkles; Text " #fyp #trending"] ].

Definition captions_after_parse_failure (title category : string) : list Caption :=
  [ [fire; Text (" Just found the perfect " ++ category ++ "! " ++ title
                 ++ " is trending right now. #trending #musthave")];
    [Text ("This " ++ title ++ " is a game changer! "); heart_eyes;
     Text " #productreview #viral"];
    [Text ("POV: You discover the " ++ title ++ " everyone's talking about ");
     sparkles; Text " #fyp #trending"] ].

Definition default_prompts (captions : string -> string -> list Caption)
    (title : string) (category : option string) : PromptSet :=
  {| imagePrompts := default_imagePrompts title;
     videoPrompts := default_videoPrompts title;
     socialCaptions := captions title (str_or category "product") |}.

(** [s] without its prefix [pat], when it has it. *)
Fixpoint strip_prefix (pat s : string) : option string :=
  match pat, s with
  | EmptyString, _ => Some s
  | String a pat', String b s' =>
      if Ascii.eqb a b then strip_prefix pat' s' else None
  | String _ _, EmptyString => None
  end.

(** What follows the first occurrence of [pat] in [s]. *)
Fixpoint find_after (pat s : string) : option string :=
  match strip_prefix pat s with
  | Some rest => Some rest
  | None =>
      match s with
      | EmptyString => None
      | String _ r => find_after pat r
      end
  end.

(** What precedes the first occurrence of [pat] in [s]. *)
Fixpoint find_before (pat s : string) : option string :=
  match strip_prefix pat s with
  | Some _ => Some EmptyString
  | None =>
      match s with
      | EmptyString => None
      | String c r =>
          match find_before pat r with
          | Some b => Some (String c b)
          | None => None
          end
      end
  end.

Definition newline : string := String (ascii_of_nat 10) EmptyString.
Definition fence : string := "```".

(** The group of [text.match(/<opener>\n([\s\S]*?)\n```/)]: the match starts
    at the first opener that a closing fence follows, and the lazy group
    stops at the first closing fence. *)
Definition fenced (opener text : string) : option string :=
  match find_after (opener ++ newline) text with
  | Some rest => find_before (newline ++ fence) rest
  | None => None
  end.

(** The text handed to [JSON.parse]: the inside of a json fence, else of a
    plain fence, else the whole text. *)
Definition json_source (text : string) : string :=
  match fenced (fence ++ "json") text with
  | Some inner => inner
  | None =>
      match fenced fence text with
      | Some inner => inner
      | None => text
      end
  end.

(** The product of the request, as far as the route reads it without the
    collaborator; the other fields only go into the prompt. *)
Record PromptProduct : Type := {
  prompt_title : option string;
  prompt_category : option string
}.

(** The call of the model: it throws, or it returns a text. *)
Inductive GeminiOutcome : Type :=
| GeminiThrew (message : string)
| GeminiText (text : string).

Section ContentPrompts.
(** [J] is the type of parsed JSON values, [JSON_parse] the parser ([None]
    when it throws), [generate] the model behind a handle. *)
Context {J : Type} (JSON_parse : string -> option J)
        (generate : Handle -> PromptProduct -> GeminiOutcome).

Inductive ContentResponse : Type :=
| ContentFailure (error : string)
| ContentSuccess (prompts : PromptSet + J) (generatedBy : string)
                 (error : option string).

Definition route_generate_content_prompts (product : option PromptProduct)
    (s : Server) : ContentResponse * Server :=
  match product with
  | None => (ContentFailure "Invalid product data", s)
  | Some p =>
      match truthy_str (prompt_title p) with
      | None => (ContentFailure "Invalid product data", s)
      | Some title =>
          let '(gemini, s') := getGemini s in
          match gemini with
          | None =>
              (ContentSuccess
                 (inl (default_prompts captions_without_gemini title (prompt_category p)))
                 "default" None, s')
          | Some handle =>
              match generate handle p with
              | GeminiThrew message =>
                  (ContentSuccess
                     (inl (default_prompts captions_after_error title (prompt_category p)))
                     "default" (Some message), s')
              | GeminiText text =>
                  match JSON_parse (json_source text) with
                  | Some prompts => (ContentSuccess (inr prompts) "gemini" None, s')
                  | None =>
                      (ContentSuccess
                         (inl (default_prompts captions_after_parse_failure title
                                 (prompt_category p)))
                         "gemini" None, s')
                  end
              end
          end
      end
  end.
End ContentPrompts.

(** No backtick occurs in [s]. *)
Definition backtick_free (s : string) : bool :=
  all_chars (fun c => negb (Ascii.eqb c "`")) s.


(** A digit or a dot: the characters of a price written with grouping
    dots or a decimal point. *)
Definition is_numeric (c : ascii) : bool := is_digit c || Ascii.eqb c ".".

(** The number a run of decimal digits writes, continuing [acc]. *)
Fixpoint digits_from (acc : Z) (s : string) : Z :=
  match s with
  | EmptyString => acc
  | String c r => digits_from (acc * 10 + Z.of_nat (code c - 48))%Z r
  end.

(** A container priced in dong with grouping dots. *)
Definition dong_price_info : PriceInfo.t :=
  {| PriceInfo.sale_price_decimal := Some "1.250.000";
     PriceInfo.sale_price_format := None;
     PriceInfo.min_price := None;
     PriceInfo.price := None;
     PriceInfo.currency_name := Some "VND";
     PriceInfo.currency_symbol := None |}.

(** A container priced in euro, with a sign and a currency mark. *)
Definition euro_price_info : PriceInfo.t :=
  {| PriceInfo.sale_price_decimal := Some "-EUR 12.50";
     PriceInfo.sale_price_format := None;
     PriceInfo.min_price := None;
     PriceInfo.price := None;
     PriceInfo.currency_name := Some "EUR";
     PriceInfo.currency_symbol := None |}.

(* ================================================================== *)
(** * Part II: properties *)
(* ================================================================== *)

(** ** Comparisons *)

Lemma Qlt_bool_iff (a b : Q) : Qlt_bool a b = true <-> a < b.
Proof.
  unfold Qlt_bool. destruct (Qle_bool b a) eqn:E; simpl.
  - apply Qle_bool_iff in E. split; [discriminate | lra].
  - split; [intros _ | reflexivity].
    destruct (Qlt_le_dec a b) as [H|H]; [exact H|].
    apply Qle_bool_iff in H. congruence.
Qed.

Lemma Qlt_bool_false (a b : Q) : Qlt_bool a b = false <-> b <= a.
Proof.
  unfold Qlt_bool. destruct (Qle_bool b a) eqn:E; simpl.
  - apply Qle_bool_iff in E. tauto.
  - split; [discriminate|]. intros H. apply Qle_bool_iff in H. congruence.
Qed.

Lemma Qlt_bool_diff (a b : Q) : Qlt_bool 0 (b + - a) = Qlt_bool a b.
Proof.
  destruct (Qlt_bool a b) eqn:E.
  - apply Qlt_bool_iff in E. apply Qlt_bool_iff. lra.
  - apply Qlt_bool_false in E. apply Qlt_bool_false. lra.
Qed.

Lemma Qeq_bool_false (a b : Q) : Qeq_bool a b = false <-> ~ a == b.
Proof.
  split.
  - intros E H. apply Qeq_bool_iff in H. congruence.
  - intros H. destruct (Qeq_bool a b) eqn:E; [|reflexivity].
    apply Qeq_bool_iff in E. contradiction.
Qed.

Lemma price_ok_in_range (p : Product) : price_ok p = true <-> price_in_range p.
Proof.
  unfold price_ok, price_in_range, ngt, nlt.
  destruct (price p) as [|s|q].
  - split; [discriminate | intros (q & H & _); discriminate].
  - split; [destruct s; discriminate | intros (q & H & _); discriminate].
  - rewrite andb_true_iff, !Qlt_bool_iff. split.
    + intros H. exists q. split; [reflexivity | exact H].
    + intros (q' & H & Hq). injection H as <-. exact Hq.
Qed.

(** ** Sorting *)

Lemma In_firstn {A : Type} (n : nat) (l : list A) (x : A) :
  In x (firstn n l) -> In x l.
Proof.
  intros H. rewrite <- (firstn_skipn n l). apply in_or_app. now left.
Qed.

Lemma Forall_firstn {A : Type} (P : A -> Prop) (n : nat) (l : list A) :
  Forall P l -> Forall P (firstn n l).
Proof.
  rewrite !Forall_forall. intros H x Hx. apply H. eapply In_firstn, Hx.
Qed.

Lemma StronglySorted_firstn {A : Type} (R : A -> A -> Prop) (n : nat) (l : list A) :
  StronglySorted R l -> StronglySorted R (firstn n l).
Proof.
  revert n. induction l as [|x r IH]; intros [|n] Hs; simpl; try constructor.
  - inversion Hs; subst. now apply IH.
  - inversion Hs; subst. now apply Forall_firstn.
Qed.

Section SortFacts.
Context {A : Type} (comparefn : A -> A -> num) (key : A -> Q).

(** The comparator orders by descending [key]. *)
Hypothesis comparefn_key :
  forall x y, ngt (comparefn x y) (Fin 0) = Qlt_bool (key x) (key y).

Lemma insert_sorted_perm (x : A) (l : list A) :
  Permutation (x :: l) (insert_sorted comparefn x l).
Proof.
  induction l as [|y r IH]; cbn [insert_sorted].
  - apply Permutation_refl.
  - destruct (ngt (comparefn x y) (Fin 0)).
    + eapply perm_trans; [apply perm_swap|]. now apply perm_skip.
    + apply Permutation_refl.
Qed.

Lemma Array_sort_perm (l : list A) : Permutation l (Array_sort comparefn l).
Proof.
  induction l as [|x r IH]; cbn [Array_sort fold_right].
  - apply perm_nil.
  - eapply perm_trans; [apply perm_skip, IH|]. apply insert_sorted_perm.
Qed.

Lemma insert_sorted_descending (x : A) (l : list A) :
  StronglySorted (descending key) l ->
  StronglySorted (descending key) (insert_sorted comparefn x l).
Proof.
  induction l as [|y r IH]; intros Hs; cbn [insert_sorted].
  - constructor; [constructor | constructor].
  - inversion Hs as [|? ? Hr Hy]; subst.
    rewrite comparefn_key. unfold Qlt_bool.
    destruct (Qle_bool (key y) (key x)) eqn:E; cbn [negb].
    + apply Qle_bool_iff in E.
      constructor; [exact Hs|].
      constructor; [exact E|].
      rewrite Forall_forall in *. intros z Hz. unfold descending in *.
      specialize (Hy z Hz). lra.
    + assert (Hlt : key x < key y).
      { destruct (Qlt_le_dec (key x) (key y)) as [H|H]; [exact H|].
        apply Qle_bool_iff in H. congruence. }
      constructor; [apply IH; exact Hr|].
      apply (Permutation_Forall (insert_sorted_perm x r)).
      constructor; [unfold descending; lra | exact Hy].
Qed.

Lemma Array_sort_descending (l : list A) :
  StronglySorted (descending key) (Array_sort comparefn l).
Proof.
  induction l as [|x r IH]; cbn [Array_sort fold_right].
  - constructor.
  - apply insert_sorted_descending, IH.
Qed.
End SortFacts.

Lemma StronglySorted_impl {A : Type} (R R' : A -> A -> Prop) (l : list A) :
  (forall a b, R a b -> R' a b) -> StronglySorted R l -> StronglySorted R' l.
Proof.
  intros HR. induction 1 as [|x r Hs IH Hx]; constructor.
  - exact IH.
  - eapply Forall_impl; [|exact Hx]. intros y. apply HR.
Qed.

(** ** Candidate selector *)

Lemma by_popularity_key (x y : Product) :
  ngt (by_popularity x y) (Fin 0)
  = Qlt_bool (inject_Z (popularity x)) (inject_Z (popularity y)).
Proof. unfold by_popularity, ngt, nsub, Z2num. simpl. apply Qlt_bool_diff. Qed.

(** C1: every selected candidate has a price strictly between 0 and 200,
    at most 20 candidates are selected, and they are in descending order
    of views + likes + sold. *)
Theorem validProducts_selects (allProducts : list Product) :
  Forall price_in_range (validProducts allProducts) /\
  (List.length (validProducts allProducts) <= 20)%nat /\
  StronglySorted (fun a b => (popularity b <= popularity a)%Z)
                 (validProducts allProducts).
Proof.
  unfold validProducts. split; [|split].
  - apply Forall_firstn.
    apply (Permutation_Forall (Array_sort_perm by_popularity _)).
    apply Forall_forall. intros p Hp. apply filter_In in Hp.
    apply price_ok_in_range, Hp.
  - apply firstn_le_length.
  - apply StronglySorted_firstn.
    eapply StronglySorted_impl;
      [| apply (Array_sort_descending by_popularity
                  (fun p => inject_Z (popularity p)) by_popularity_key)].
    intros a b H. unfold descending in H. rewrite Zle_Qle. exact H.
Qed.

(** ** toFixed and the margin calculator *)

Lemma within_compat (d : fixed) (x y tol : Q) :
  x == y -> within d x tol -> within d y tol.
Proof.
  intros E (v & Hv & Hb). exists v. split; [exact Hv|].
  apply Qabs_Qle_condition in Hb. apply Qabs_Qle_condition. lra.
Qed.

Lemma Qabs_sign (q : Q) :
  (if Qlt_bool q 0 then - Qabs q else Qabs q) == q.
Proof.
  destruct (Qlt_bool q 0) eqn:E.
  - apply Qlt_bool_iff in E. rewrite Qabs_neg by lra. lra.
  - apply Qlt_bool_false in E. now rewrite Qabs_pos.
Qed.

Lemma pow10_pos (f : nat) : 0 < inject_Z (pow10 f).
Proof.
  unfold pow10. change 0 with (inject_Z 0). rewrite <- Zlt_Qlt.
  apply Z.pow_pos_nonneg; lia.
Qed.

(** [toFixed] is off by at most half a unit of the last place kept. *)
Lemma toFixedQ_within (q : Q) (f : nat) :
  within (toFixedQ q f) q ((1 # 2) / inject_Z (pow10 f)).
Proof.
  unfold toFixedQ, within.
  pose proof (pow10_pos f) as HP. set (P := inject_Z (pow10 f)) in *.
  assert (Htol : 0 <= (1 # 2) / P).
  { apply Qle_shift_div_l; [exact HP | lra]. }
  destruct (Qle_bool (inject_Z (pow10 21)) (Qabs q)).
  - eexists. split; [reflexivity|].
    pose proof (Qabs_sign q) as Hs. cbn [fixed_value].
    apply Qabs_Qle_condition. lra.
  - eexists. split; [reflexivity|].
    pose proof (Qabs_sign q) as Hs.
    unfold round_half_up.
    pose proof (Qfloor_le (Qabs q * P + (1 # 2))) as Hlo.
    pose proof (Qlt_floor (Qabs q * P + (1 # 2))) as Hhi.
    set (n := Qfloor (Qabs q * P + (1 # 2))) in *.
    rewrite inject_Z_plus in Hhi. change (inject_Z 1) with 1 in Hhi.
    assert (Hup : inject_Z n / P <= Qabs q + (1 # 2) / P).
    { apply Qle_shift_div_r; [exact HP|].
      setoid_replace ((Qabs q + (1 # 2) / P) * P) with (Qabs q * P + (1 # 2))
        by (field; lra). exact Hlo. }
    assert (Hdn : Qabs q - (1 # 2) / P <= inject_Z n / P).
    { apply Qle_shift_div_l; [exact HP|].
      setoid_replace ((Qabs q - (1 # 2) / P) * P) with (Qabs q * P - (1 # 2))
        by (field; lra). lra. }
    apply Qabs_Qle_condition. cbn zeta. fold P.
    destruct (Qlt_bool q 0); lra.
Qed.

(** ** IEEE binary64: the rounding of the four operations

    [SFadd], [SFsub], [SFmul] and [SFdiv] return a finite double within
    half a unit in the last place of the exact result, as long as the exact
    result is below [2^1023]. *)

Section RoundingKernel.
Local Open Scope Z_scope.

Lemma digits2_pos_spec (m : positive) :
  2 ^ (Zpos (digits2_pos m) - 1) <= Zpos m < 2 ^ Zpos (digits2_pos m).
Proof.
  induction m as [p IH|p IH|]; cbn [digits2_pos].
  - rewrite Pos2Z.inj_succ.
    replace (Z.succ (Zpos (digits2_pos p)) - 1) with (Z.succ (Zpos (digits2_pos p) - 1)) by lia.
    rewrite !Z.pow_succ_r by lia. lia.
  - rewrite Pos2Z.inj_succ.
    replace (Z.succ (Zpos (digits2_pos p)) - 1) with (Z.succ (Zpos (digits2_pos p) - 1)) by lia.
    rewrite !Z.pow_succ_r by lia. lia.
  - cbn. lia.
Qed.

Lemma shr_1_represents (mrs : shr_record) (N D : Z) :
  represents mrs N D -> represents (shr_1 mrs) N (2 * D).
Proof.
  destruct mrs as [m r s]. unfold represents. cbn [shr_m shr_r shr_s].
  intros (Hm & HD & Hrem & Hr & Hs).
  assert (Hs' : orb r s = false <-> N - m * D = 0).
  { rewrite orb_false_iff. split.
    - intros [-> Es]. apply Hs in Es.
      destruct Es as [E|E]; [exact E|].
      assert (false = true) by (apply Hr; lia). discriminate.
    - intros E. split.
      + destruct r; [|reflexivity]. assert (D <= 2 * (N - m * D)) by now apply Hr. lia.
      + apply Hs. now left. }
  destruct m as [|[p|p|]|p]; cbn [shr_1 shr_m shr_r shr_s]; try lia.
  - repeat split; try lia; try discriminate.
    + intros H. apply Hs' in H. lia.
    + intros H. apply Hs'. lia.
  - (* 2p+1 *)
    change (Zpos p~1) with (2 * Zpos p + 1) in *.
    repeat split; try lia.
    + intros H. apply Hs' in H. lia.
    + intros H. apply Hs'. lia.
  - change (Zpos p~0) with (2 * Zpos p) in *.
    repeat split; try lia; try discriminate.
    + intros H. apply Hs' in H. lia.
    + intros H. apply Hs'. lia.
  - repeat split; try lia.
    + intros H. apply Hs' in H. lia.
    + intros H. apply Hs'. lia.
Qed.

Lemma iter_shr_1_represents (p : positive) :
  forall mrs N D,
    represents mrs N D -> represents (iter_pos shr_1 p mrs) N (2 ^ Zpos p * D).
Proof.
  induction p as [p IH|p IH|]; intros mrs N D H; cbn [iter_pos].
  - apply shr_1_represents in H. apply IH in H. apply IH in H.
    replace (2 ^ Zpos p~1 * D) with (2 ^ Zpos p * (2 ^ Zpos p * (2 * D))); [exact H|].
    replace (Zpos p~1) with (Zpos p + Zpos p + 1) by lia.
    rewrite !Z.pow_add_r by lia. change (2 ^ 1) with 2. ring.
  - apply IH in H. apply IH in H.
    replace (2 ^ Zpos p~0 * D) with (2 ^ Zpos p * (2 ^ Zpos p * D)); [exact H|].
    replace (Zpos p~0) with (Zpos p + Zpos p) by lia.
    rewrite !Z.pow_add_r by lia. ring.
  - apply shr_1_represents in H. exact H.
Qed.

Lemma shr_represents (mrs : shr_record) (e n N D : Z) :
  represents mrs N D ->
  represents (fst (shr mrs e n)) N (2 ^ Z.max 0 n * D) /\
  snd (shr mrs e n) = e + Z.max 0 n.
Proof.
  intros H. destruct n as [|p|p]; cbn [shr fst snd Z.max Z.compare].
  - rewrite Z.add_0_r. change (2 ^ 0) with 1. rewrite Z.mul_1_l. now split.
  - replace (Z.max 0 (Zpos p)) with (Zpos p) by lia.
    split; [now apply iter_shr_1_represents | reflexivity].
  - replace (Z.max 0 (Zneg p)) with 0 by lia.
    rewrite Z.add_0_r. change (2 ^ 0) with 1. rewrite Z.mul_1_l. now split.
Qed.

Lemma located_represents (l : location) (N D m : Z) :
  located l N D m -> represents (shr_record_of_loc m l) N D.
Proof.
  unfold located, represents.
  destruct l as [|[| |]]; cbn [shr_record_of_loc shr_m shr_r shr_s];
    intros (Hm & HD & Hrem & Hl); repeat split; try lia; try discriminate;
    intros; try lia.
Qed.

Lemma round_nearest_even_represents (mrs : shr_record) (N D : Z) :
  represents mrs N D ->
  let m2 := round_nearest_even (shr_m mrs) (loc_of_shr_record mrs) in
  (m2 = shr_m mrs \/ m2 = shr_m mrs + 1) /\
  2 * Z.abs (m2 * D - N) <= D.
Proof.
  destruct mrs as [m r s]. unfold represents. cbn [shr_m shr_r shr_s].
  intros (Hm & HD & Hrem & Hr & Hs).
  destruct r, s; cbn [loc_of_shr_record round_nearest_even].
  - assert (D <= 2 * (N - m * D)) by now apply Hr. split; [now right | lia].
  - assert (D <= 2 * (N - m * D)) by now apply Hr.
    assert (N - m * D = 0 \/ 2 * (N - m * D) = D) by now apply Hs.
    destruct (Z.even m); [split; [now left | lia] | split; [now right | lia]].
  - assert (~ D <= 2 * (N - m * D)) by (intros H; apply Hr in H; discriminate).
    split; [now left | lia].
  - assert (~ D <= 2 * (N - m * D)) by (intros H; apply Hr in H; discriminate).
    split; [now left | lia].
Qed.

Lemma fexp_eq (e : Z) : fexp 53 1024 e = Z.max (e - 53) (-1074).
Proof. reflexivity. Qed.

Lemma Zdigits2_spec (m : Z) :
  0 < m -> 0 < Zdigits2 m /\ 2 ^ (Zdigits2 m - 1) <= m < 2 ^ Zdigits2 m.
Proof.
  destruct m as [|p|p]; try lia. intros _. cbn [Zdigits2].
  split; [lia | apply digits2_pos_spec].
Qed.

Lemma Zdigits2_unique (m d : Z) :
  0 < m -> 2 ^ (d - 1) <= m < 2 ^ d -> Zdigits2 m = d.
Proof.
  intros Hm [Hlo Hhi].
  destruct (Zdigits2_spec m Hm) as (Hpos & Hlo' & Hhi').
  assert (Hd : 0 < d).
  { destruct (Z_lt_le_dec 0 d) as [H|H]; [exact H|].
    assert (2 ^ d <= 1).
    { destruct (Z.eq_dec d 0) as [->|]; [cbn; lia|].
      rewrite Z.pow_neg_r by lia. lia. }
    lia. }
  assert (H1 : Zdigits2 m - 1 < d).
  { apply (Z.pow_lt_mono_r_iff 2); lia. }
  assert (H2 : d - 1 < Zdigits2 m).
  { apply (Z.pow_lt_mono_r_iff 2); lia. }
  lia.
Qed.

Lemma pow2_split (a b : Z) : 0 <= a -> 0 <= b -> 2 ^ (a + b) = 2 ^ a * 2 ^ b.
Proof. intros. now rewrite Z.pow_add_r. Qed.

Lemma pow2_pos (a : Z) : 0 <= a -> 0 < 2 ^ a.
Proof. intros. apply Z.pow_pos_nonneg; lia. Qed.

(** Rounding [N / D * 2^ex] to binary64, from its integer part [mx] and the
    location of the rest. *)
Lemma binary_round_aux_correct (s : bool) (mx ex : Z) (lx : location) (N D : Z) :
  located lx N D mx ->
  ex <= fexp 53 1024 (Zdigits2 mx + ex) ->
  Zdigits2 mx + ex <= 1023 ->
  exists m e,
    binary_round_aux 53 1024 s mx ex lx = mk_float s m e /\
    0 <= m < 2 ^ 53 /\ -1074 <= e <= 971 /\ ex <= e /\
    (2 ^ 53 * Z.abs (m * 2 ^ (e - ex) * D - N) <= N \/
     (e = -1074 /\ 2 * Z.abs (m * 2 ^ (e - ex) * D - N) <= 2 ^ (e - ex) * D)).
Proof.
  intros Hloc Hal Hov.
  pose proof Hloc as (Hmx & HD & Hrem & _).
  apply located_represents in Hloc.
  unfold binary_round_aux, shr_fexp.
  set (fe := fexp 53 1024 (Zdigits2 mx + ex)) in *.
  set (k := fe - ex).
  assert (Hk : 0 <= k) by (unfold k; lia).
  destruct (shr_represents (shr_record_of_loc mx lx) ex k N D Hloc) as [Hrep He'].
  destruct (shr (shr_record_of_loc mx lx) ex k) as [mrs' e'].
  cbn [fst snd] in Hrep, He'.
  replace (Z.max 0 k) with k in * by lia.
  assert (Ee' : e' = fe) by (unfold k in He'; lia). clear He'.
  set (P := 2 ^ k) in *.
  assert (HP : 0 < P) by (apply pow2_pos; lia).
  pose proof (round_nearest_even_represents mrs' N (P * D) Hrep) as [Hm2 Herr].
  cbn zeta in Hm2, Herr.
  set (m2 := round_nearest_even (shr_m mrs') (loc_of_shr_record mrs')) in *.
  destruct Hrep as (Hm1 & _ & Hrem1 & _).
  set (m1 := shr_m mrs') in *.
  assert (Hfe : fe = Z.max (Zdigits2 mx + ex - 53) (-1074)) by apply fexp_eq.
  (* bounds on m1 *)
  assert (Hcases :
            (2 ^ 52 <= m1 < 2 ^ 53 /\ fe = Zdigits2 mx + ex - 53 /\ 2 ^ 52 * (P * D) <= N) \/
            (m1 < 2 ^ 52 /\ fe = -1074)).
  { destruct (Z.eq_dec mx 0) as [E0 | Hne].
    - right. subst mx. cbn [Zdigits2] in *. split; [|lia].
      assert (m1 = 0); [|lia].
      assert (N < D) by lia. nia.
    - assert (Hpos : 0 < mx) by lia.
      destruct (Zdigits2_spec mx Hpos) as (Hd & Hlo & Hhi).
      set (d := Zdigits2 mx) in *.
      destruct (Z_le_gt_dec (-1074) (d + ex - 53)) as [Hn | Hs].
      + left. assert (Ek : k = d - 53) by (unfold k; lia).
        assert (E1 : 2 ^ d = 2 ^ 53 * P).
        { unfold P. rewrite Ek. rewrite <- pow2_split by lia. f_equal. lia. }
        assert (E2 : 2 ^ (d - 1) = 2 ^ 52 * P).
        { unfold P. rewrite Ek. rewrite <- pow2_split by lia. f_equal. lia. }
        assert (HN1 : N < 2 ^ 53 * P * D) by nia.
        assert (HN2 : 2 ^ 52 * P * D <= N) by nia.
        split; [|split; [lia | lia]].
        assert (0 < P * D) by nia.
        split; nia.
      + right. split; [|lia].
        assert (Ek : k = -1074 - ex) by (unfold k; lia).
        assert (E1 : 2 ^ d * 2 ^ (k + 52 - d) = 2 ^ 52 * P).
        { unfold P. rewrite <- !pow2_split by lia. f_equal. lia. }
        assert (0 < 2 ^ (k + 52 - d)) by (apply pow2_pos; lia).
        assert (0 < P * D) by nia.
        assert (HN1 : N < 2 ^ d * D) by nia.
        assert (N * 2 ^ (k + 52 - d) < 2 ^ 52 * (P * D)) by nia.
        assert (N <= N * 2 ^ (k + 52 - d)) by nia.
        nia. }
  assert (Hm2' : 0 <= m2) by lia.
  destruct Hcases as [(Hm1b & Efe & HNlow) | (Hm1b & Efe)].
  - (* normal range *)
    destruct (Z.eq_dec m2 (2 ^ 53)) as [Ecarry | Hnc].
    + (* the mantissa reached 2^53 *)
      assert (Ed2 : Zdigits2 m2 = 54).
      { apply Zdigits2_unique; rewrite Ecarry; cbn; lia. }
      rewrite Ee', Ed2.
      replace (fexp 53 1024 (54 + fe) - fe) with 1 by (rewrite fexp_eq; lia).
      rewrite Ecarry. cbn [shr_record_of_loc shr iter_pos shr_1 shr_m].
      exists (2 ^ 52), (fe + 1).
      assert (Hle : (fe + 1 <=? 1024 - 53) = true) by (apply Z.leb_le; lia).
      simpl (2 ^ 53). cbn [shr_1 shr_m]. rewrite Hle.
      split; [reflexivity|]. split; [cbn; lia|]. split; [lia|]. split; [lia|].
      left. replace (fe + 1 - ex) with (k + 1) by (unfold k; lia).
      rewrite pow2_split by lia. fold P. change (2 ^ 1) with 2.
      replace (2 ^ 52 * (P * 2) * D - N) with (m2 * (P * D) - N)
        by (rewrite Ecarry; change (2 ^ 53) with (2 * 2 ^ 52); ring).
      nia.
    + assert (Hm2b : 2 ^ 52 <= m2 < 2 ^ 53) by lia.
      assert (Ed2 : Zdigits2 m2 = 53).
      { apply Zdigits2_unique; [lia|]. exact Hm2b. }
      rewrite Ee', Ed2.
      replace (fexp 53 1024 (53 + fe) - fe) with 0 by (rewrite fexp_eq; lia).
      cbn [shr fst snd shr_record_of_loc shr_m].
      exists m2, fe.
      assert (Hle : (fe <=? 1024 - 53) = true) by (apply Z.leb_le; lia).
      rewrite Hle.
      split.
      { unfold mk_float. destruct m2; try reflexivity; lia. }
      split; [lia|]. split; [lia|]. split; [lia|].
      left. fold k. fold P. replace (m2 * P * D - N) with (m2 * (P * D) - N) by ring.
      nia.
  - (* subnormal range *)
    rewrite Ee'.
    assert (Hk2 : fexp 53 1024 (Zdigits2 m2 + fe) - fe = 0).
    { rewrite fexp_eq, Efe.
      destruct (Z.eq_dec m2 0) as [-> | Hne]; [reflexivity|].
      assert (Hpos2 : 0 < m2) by lia.
      destruct (Zdigits2_spec m2 Hpos2) as (Hd2 & Hlo2 & _).
      assert (Zdigits2 m2 - 1 < 53).
      { apply (Z.pow_lt_mono_r_iff 2); [lia | lia |].
        assert (m2 <= 2 ^ 52) by lia. change (2 ^ 53) with (2 * 2 ^ 52). lia. }
      lia. }
    rewrite Hk2. cbn [shr fst snd shr_record_of_loc shr_m].
    exists m2, fe.
    assert (Hle : (fe <=? 1024 - 53) = true) by (apply Z.leb_le; lia).
    split.
    { unfold mk_float. destruct m2; try reflexivity; try lia. now rewrite Hle. }
    split; [change (2 ^ 53) with (2 * 2 ^ 52); lia|]. split; [lia|]. split; [lia|].
    right. split; [exact Efe|]. fold k. fold P.
    replace (m2 * P * D - N) with (m2 * (P * D) - N) by ring. lia.
Qed.

End RoundingKernel.

Lemma pow2_pos_Q (e : Z) : 0 < pow2 e.
Proof. apply Qpower.Qpower_0_lt. reflexivity. Qed.

Lemma pow2_add (a b : Z) : pow2 (a + b) == pow2 a * pow2 b.
Proof. apply Qpower.Qpower_plus. discriminate. Qed.

Lemma pow2_inject (k : Z) : (0 <= k)%Z -> pow2 k == inject_Z (2 ^ k).
Proof. intros H. unfold pow2. now rewrite Qpower.Zpower_Qpower. Qed.

Lemma pow2_lt (a b : Z) : (a < b)%Z -> pow2 a < pow2 b.
Proof. intros H. apply Qpower.Qpower_lt_compat_l; [exact H | reflexivity]. Qed.

Lemma pow2_le (a b : Z) : (a <= b)%Z -> pow2 a <= pow2 b.
Proof. intros H. apply Qpower.Qpower_le_compat_l; [exact H | discriminate]. Qed.

Lemma eta_pos : 0 < eta.
Proof. apply pow2_pos_Q. Qed.

(** [lra] reads [inject_Z] as a morphism; the integers under it are hidden
    from it when they are not linear. *)
Ltac hide_inject_Z :=
  repeat match goal with
         | |- context [inject_Z ?z] =>
             let a := fresh "a" in set (a := inject_Z z) in *; clearbody a
         | H : context [inject_Z ?z] |- _ =>
             let a := fresh "a" in set (a := inject_Z z) in *; clearbody a
         end.

Lemma Qabs_inject_Z (z : Z) : Qabs (inject_Z z) = inject_Z (Z.abs z).
Proof. now destruct z. Qed.

Lemma Qabs_scale (X c t : Q) : 0 <= c -> Qabs X <= t -> Qabs (X * c) <= t * c.
Proof.
  intros Hc H. rewrite Qabs_Qmult, (Qabs_pos c Hc).
  now apply Qmult_le_compat_r.
Qed.

Lemma mk_float_value (s : bool) (m e : Z) :
  (0 <= m)%Z ->
  SF2Q (mk_float s m e) == (if s then - (inject_Z m * pow2 e) else inject_Z m * pow2 e).
Proof.
  intros H. destruct m as [|p|p]; try lia; cbn [mk_float SF2Q].
  - destruct s; ring.
  - destruct s; reflexivity.
Qed.

Lemma mk_float_finite64 (s : bool) (m e : Z) :
  (0 <= m < 2 ^ 53)%Z -> (-1074 <= e <= 971)%Z -> finite64 (mk_float s m e).
Proof.
  intros H He. destruct m as [|p|p]; cbn [mk_float finite64]; try exact I.
  split; [lia | exact He].
Qed.

(** Rounding is off by at most [eps] of the value, or half the smallest
    subnormal. *)
Lemma binary_round_aux_Q (s : bool) (mx ex : Z) (lx : location) (N D : Z) :
  located lx N D mx ->
  (ex <= fexp 53 1024 (Zdigits2 mx + ex))%Z ->
  (Zdigits2 mx + ex <= 1023)%Z ->
  exists m e,
    binary_round_aux 53 1024 s mx ex lx = mk_float s m e /\
    (0 <= m < 2 ^ 53)%Z /\ (-1074 <= e <= 971)%Z /\
    Qabs (inject_Z m * pow2 e - inject_Z N / inject_Z D * pow2 ex)
    <= eps * (inject_Z N / inject_Z D * pow2 ex) + eta.
Proof.
  intros Hloc Hal Hov.
  pose proof Hloc as (Hmx & HD & Hrem & _).
  destruct (binary_round_aux_correct s mx ex lx N D Hloc Hal Hov)
    as (m & e & Eq & Hm & He & Hex & Herr).
  exists m, e. split; [exact Eq|]. split; [exact Hm|]. split; [exact He|].
  assert (HN : (0 <= N)%Z) by nia.
  set (K := (2 ^ (e - ex))%Z) in *.
  assert (HK : (0 < K)%Z) by (apply pow2_pos; lia).
  assert (Epow : pow2 e == inject_Z K * pow2 ex).
  { unfold K. rewrite <- pow2_inject by lia. rewrite <- pow2_add.
    replace (e - ex + ex)%Z with e by lia. reflexivity. }
  clearbody K.
  pose proof (pow2_pos_Q ex) as Hpe.
  assert (Hd : 0 < inject_Z D) by (change 0 with (inject_Z 0); now rewrite <- Zlt_Qlt).
  assert (Hn : 0 <= inject_Z N) by (change 0 with (inject_Z 0); now rewrite <- Zle_Qle).
  set (c := pow2 ex / inject_Z D).
  assert (Hc : 0 <= c).
  { unfold c. apply Qle_shift_div_l; [exact Hd|]. lra. }
  assert (Ediff : inject_Z m * pow2 e - inject_Z N / inject_Z D * pow2 ex
                  == inject_Z (m * K * D - N) * c).
  { unfold c. rewrite Epow. unfold Zminus.
    rewrite inject_Z_plus, inject_Z_opp, !inject_Z_mult. field. lra. }
  assert (EV : inject_Z N / inject_Z D * pow2 ex == inject_Z N * c).
  { unfold c. field. lra. }
  rewrite Ediff, EV.
  pose proof eta_pos as Heta.
  assert (Hnc : 0 <= inject_Z N * c) by (apply Qmult_le_0_compat; assumption).
  destruct Herr as [H1 | [Ee H2]].
  - assert (H : Qabs (inject_Z (m * K * D - N)) <= eps * inject_Z N).
    { rewrite Qabs_inject_Z.
      assert (H' : inject_Z (2 ^ 53 * Z.abs (m * K * D - N)) <= inject_Z N)
        by now rewrite <- Zle_Qle.
      rewrite inject_Z_mult in H'. unfold eps.
      change (inject_Z (2 ^ 53)) with (9007199254740992 # 1) in H'.
      clear - H'. hide_inject_Z. lra. }
    apply (Qabs_scale _ c _ Hc) in H.
    assert (E : eps * inject_Z N * c == eps * (inject_Z N * c)) by ring.
    lra.
  - assert (H : Qabs (inject_Z (m * K * D - N)) <= inject_Z (K * D) * (1 # 2)).
    { rewrite Qabs_inject_Z.
      assert (H' : inject_Z (2 * Z.abs (m * K * D - N)) <= inject_Z (K * D))
        by now rewrite <- Zle_Qle.
      rewrite inject_Z_mult in H'. change (inject_Z 2) with 2 in H'.
      clear - H'. hide_inject_Z. lra. }
    apply (Qabs_scale _ c _ Hc) in H.
    assert (E : inject_Z (K * D) * (1 # 2) * c == eta).
    { unfold c. rewrite inject_Z_mult.
      transitivity (inject_Z K * pow2 ex * (1 # 2)); [field; lra|].
      rewrite <- Epow, Ee. unfold eta.
      change (-1074)%Z with (1 + -1075)%Z. rewrite pow2_add.
      change (pow2 1) with 2. field. }
    assert (0 <= eps * (inject_Z N * c)).
    { apply Qmult_le_0_compat; [discriminate | exact Hnc]. }
    lra.
Qed.

Lemma iter_xO_value (m d : positive) :
  Zpos (Pos.iter xO m d) = (Zpos m * 2 ^ Zpos d)%Z.
Proof.
  induction d as [|d IH] using Pos.peano_ind.
  - cbn. lia.
  - rewrite Pos.iter_succ, Pos2Z.inj_succ, Z.pow_succ_r by lia.
    rewrite Pos2Z.inj_xO, IH. ring.
Qed.

Lemma shl_align_spec (mx : positive) (ex ex' : Z) :
  (snd (shl_align mx ex ex') = Z.min ex ex' /\
   Zpos (fst (shl_align mx ex ex'))
   = Zpos mx * 2 ^ (ex - snd (shl_align mx ex ex')))%Z.
Proof.
  unfold shl_align. destruct (ex' - ex)%Z as [|d|d] eqn:E; cbn [fst snd].
  - split; [lia|]. replace (ex - ex)%Z with 0%Z by lia. cbn. lia.
  - split; [lia|]. replace (ex - ex)%Z with 0%Z by lia. cbn. lia.
  - split; [lia|]. rewrite iter_xO_value. f_equal. f_equal. lia.
Qed.

Lemma Zdigits2_shift (m j : Z) :
  (0 < m)%Z -> (0 <= j)%Z -> (Zdigits2 (m * 2 ^ j) = Zdigits2 m + j)%Z.
Proof.
  intros Hm Hj. destruct (Zdigits2_spec m Hm) as (Hd & Hlo & Hhi).
  assert (HP : (0 < 2 ^ j)%Z) by (apply pow2_pos; lia).
  apply Zdigits2_unique; [nia|].
  replace (Zdigits2 m + j - 1)%Z with ((Zdigits2 m - 1) + j)%Z by lia.
  rewrite !pow2_split by lia. nia.
Qed.

(** A value below [2^1023] has its leading bit below that. *)
Lemma digits_of_value (m e : Z) :
  (0 < m)%Z -> inject_Z m * pow2 e < pow2 1023 -> (Zdigits2 m + e <= 1023)%Z.
Proof.
  intros Hm H. destruct (Zdigits2_spec m Hm) as (Hd & Hlo & _).
  destruct (Z_le_gt_dec (Zdigits2 m + e) 1023) as [Hle | Hgt]; [exact Hle | exfalso].
  assert (H1 : pow2 1023 <= pow2 (Zdigits2 m - 1 + e)) by (apply pow2_le; lia).
  rewrite pow2_add in H1.
  assert (H2 : pow2 (Zdigits2 m - 1) <= inject_Z m).
  { rewrite pow2_inject by lia. now rewrite <- Zle_Qle. }
  pose proof (pow2_pos_Q e) as Hpe.
  assert (H3 : pow2 (Zdigits2 m - 1) * pow2 e <= inject_Z m * pow2 e).
  { apply Qmult_le_compat_r; [exact H2 | lra]. }
  lra.
Qed.

Lemma binary_round_Q (s : bool) (m : positive) (e : Z) :
  inject_Z (Zpos m) * pow2 e < pow2 1023 ->
  exists m' e',
    binary_round 53 1024 s m e = mk_float s m' e' /\
    (0 <= m' < 2 ^ 53)%Z /\ (-1074 <= e' <= 971)%Z /\
    Qabs (inject_Z m' * pow2 e' - inject_Z (Zpos m) * pow2 e)
    <= eps * (inject_Z (Zpos m) * pow2 e) + eta.
Proof.
  intros Hv. unfold binary_round.
  pose proof (shl_align_spec m e (fexp 53 1024 (Zpos (digits2_pos m) + e))) as [Hez Hmz].
  destruct (shl_align m e (fexp 53 1024 (Zpos (digits2_pos m) + e))) as [mz ez].
  cbn [fst snd] in Hez, Hmz.
  assert (Hov : (Zdigits2 (Zpos m) + e <= 1023)%Z) by (apply digits_of_value; [lia | exact Hv]).
  change (Zdigits2 (Zpos m)) with (Zpos (digits2_pos m)) in Hov.
  assert (Hdig : (Zdigits2 (Zpos mz) + ez = Zpos (digits2_pos m) + e)%Z).
  { rewrite Hmz, Zdigits2_shift by lia. cbn [Zdigits2]. lia. }
  destruct (binary_round_aux_Q s (Zpos mz) ez loc_Exact (Zpos mz) 1) as (m' & e' & Eq & Hm' & He' & Herr).
  - unfold located. lia.
  - rewrite Hdig. lia.
  - rewrite Hdig. exact Hov.
  - exists m', e'. split; [exact Eq|]. split; [exact Hm'|]. split; [exact He'|].
    assert (EV : inject_Z (Zpos mz) / inject_Z 1 * pow2 ez == inject_Z (Zpos m) * pow2 e).
    { rewrite Hmz, inject_Z_mult, <- pow2_inject by lia.
      transitivity (inject_Z (Zpos m) * (pow2 (e - ez) * pow2 ez)); [field|].
      rewrite <- pow2_add. replace (e - ez + ez)%Z with e by lia. reflexivity. }
    rewrite EV in Herr. exact Herr.
Qed.

Lemma finite64_is_finite (x : double) : finite64 x -> is_finite x.
Proof. destruct x; cbn; tauto. Qed.

Lemma rounds_to_wd (r : double) (v w : Q) : v == w -> rounds_to r v -> rounds_to r w.
Proof.
  intros E (H1 & H2 & H3 & H4). split; [exact H1|].
  split; [now rewrite <- E|]. split; intros H; [apply H3 | apply H4]; lra.
Qed.

Lemma rounds_to_exact (r : double) : finite64 r -> rounds_to r (SF2Q r).
Proof.
  intros H. split; [exact H|]. pose proof eta_pos.
  assert (0 <= eps * Qabs (SF2Q r)).
  { apply Qmult_le_0_compat; [discriminate | apply Qabs_nonneg]. }
  split.
  - setoid_replace (SF2Q r - SF2Q r) with 0 by ring. cbn [Qabs Z.abs Qnum Qden]. lra.
  - split; intros; assumption.
Qed.

Lemma mk_float_rounds_to (s : bool) (m e : Z) (v : Q) :
  (0 <= m < 2 ^ 53)%Z -> (-1074 <= e <= 971)%Z -> 0 < v ->
  Qabs (inject_Z m * pow2 e - v) <= eps * v + eta ->
  rounds_to (mk_float s m e) (if s then - v else v).
Proof.
  intros Hm He Hv0 Herr. assert (Hv : 0 <= v) by lra.
  assert (Hmag : 0 <= inject_Z m * pow2 e).
  { apply Qmult_le_0_compat.
    - change 0 with (inject_Z 0). rewrite <- Zle_Qle. lia.
    - pose proof (pow2_pos_Q e). lra. }
  split; [now apply mk_float_finite64|].
  pose proof (mk_float_value s m e (proj1 Hm)) as EV.
  set (mag := inject_Z m * pow2 e) in *. clearbody mag.
  set (r := SF2Q (mk_float s m e)) in *. clearbody r.
  destruct s; cbv iota in EV.
  - split; [|split; intros; lra].
    rewrite EV, Qabs_opp, (Qabs_pos v Hv).
    setoid_replace (- mag - - v) with (- (mag - v)) by ring.
    now rewrite Qabs_opp.
  - split; [|split; intros; lra].
    rewrite EV, (Qabs_pos v Hv). exact Herr.
Qed.

Lemma binary_normalize_Q (M e : Z) :
  Qabs (inject_Z M * pow2 e) < pow2 1023 ->
  rounds_to (binary_normalize 53 1024 M e false) (inject_Z M * pow2 e).
Proof.
  intros Hv. pose proof (pow2_pos_Q e) as Hpe.
  destruct M as [|p|p]; cbn [binary_normalize].
  - eapply rounds_to_wd; [|apply (rounds_to_exact (S754_zero false)); exact I].
    cbn [SF2Q]. ring.
  - assert (Hpos0 : 0 < inject_Z (Zpos p) * pow2 e).
    { apply Qmult_lt_0_compat; [reflexivity | lra]. }
    assert (Hpos : 0 <= inject_Z (Zpos p) * pow2 e) by lra.
    rewrite (Qabs_pos _ Hpos) in Hv.
    destruct (binary_round_Q false p e Hv) as (m' & e' & -> & Hm' & He' & Herr).
    apply (mk_float_rounds_to false m' e' _ Hm' He' Hpos0 Herr).
  - assert (Hpos0 : 0 < inject_Z (Zpos p) * pow2 e).
    { apply Qmult_lt_0_compat; [reflexivity | lra]. }
    assert (Hpos : 0 <= inject_Z (Zpos p) * pow2 e) by lra.
    assert (E : inject_Z (Zneg p) * pow2 e == - (inject_Z (Zpos p) * pow2 e)).
    { change (Zneg p) with (- Zpos p)%Z. rewrite inject_Z_opp. ring. }
    rewrite E, Qabs_opp, (Qabs_pos _ Hpos) in Hv.
    destruct (binary_round_Q true p e Hv) as (m' & e' & -> & Hm' & He' & Herr).
    eapply rounds_to_wd; [symmetry; exact E|].
    apply (mk_float_rounds_to true m' e' _ Hm' He' Hpos0 Herr).
Qed.

Lemma aligned_value (s : bool) (m : positive) (e ez : Z) :
  (ez <= e)%Z ->
  inject_Z (cond_Zopp s (Zpos m * 2 ^ (e - ez))) * pow2 ez == SF2Q (S754_finite s m e).
Proof.
  intros H. cbn [SF2Q].
  assert (E : inject_Z (Zpos m * 2 ^ (e - ez)) * pow2 ez == inject_Z (Zpos m) * pow2 e).
  { rewrite inject_Z_mult, <- pow2_inject by lia.
    transitivity (inject_Z (Zpos m) * (pow2 (e - ez) * pow2 ez)); [ring|].
    rewrite <- pow2_add. replace (e - ez + ez)%Z with e by lia. reflexivity. }
  destruct s; cbn [cond_Zopp].
  - rewrite inject_Z_opp. rewrite <- E. ring.
  - exact E.
Qed.

Theorem SFadd_rounds (x y : double) :
  finite64 x -> finite64 y ->
  Qabs (SF2Q x + SF2Q y) < pow2 1023 ->
  rounds_to (SFadd 53 1024 x y) (SF2Q x + SF2Q y).
Proof.
  intros Hx Hy Hv.
  destruct x as [sx|sx| |sx mx ex], y as [sy|sy| |sy my ey];
    try contradiction; cbn [SFadd].
  - eapply rounds_to_wd with (v := 0); [cbn; ring|].
    destruct sx, sy; apply (rounds_to_exact (S754_zero _)); exact I.
  - eapply rounds_to_wd; [|apply (rounds_to_exact _ Hy)]. cbn [SF2Q]. ring.
  - eapply rounds_to_wd; [|apply (rounds_to_exact _ Hx)]. cbn [SF2Q]. ring.
  - pose proof (shl_align_spec mx ex (Z.min ex ey)) as [Ex1 Ex2].
    pose proof (shl_align_spec my ey (Z.min ex ey)) as [Ey1 Ey2].
    rewrite Ex1 in Ex2. rewrite Ey1 in Ey2.
    replace (Z.min ex (Z.min ex ey)) with (Z.min ex ey) in Ex2 by lia.
    replace (Z.min ey (Z.min ex ey)) with (Z.min ex ey) in Ey2 by lia.
    rewrite Ex2, Ey2.
    set (ez := Z.min ex ey) in *.
    assert (EV : inject_Z (cond_Zopp sx (Zpos mx * 2 ^ (ex - ez))
                           + cond_Zopp sy (Zpos my * 2 ^ (ey - ez))) * pow2 ez
                 == SF2Q (S754_finite sx mx ex) + SF2Q (S754_finite sy my ey)).
    { rewrite inject_Z_plus, Qmult_plus_distr_l.
      rewrite !aligned_value by (unfold ez; lia). reflexivity. }
    eapply rounds_to_wd; [exact EV|].
    apply binary_normalize_Q. now rewrite EV.
Qed.

Theorem SFsub_rounds (x y : double) :
  finite64 x -> finite64 y ->
  Qabs (SF2Q x - SF2Q y) < pow2 1023 ->
  rounds_to (SFsub 53 1024 x y) (SF2Q x - SF2Q y).
Proof.
  intros Hx Hy Hv.
  destruct x as [sx|sx| |sx mx ex], y as [sy|sy| |sy my ey];
    try contradiction; cbn [SFsub].
  - eapply rounds_to_wd with (v := 0); [cbn; ring|].
    destruct sx, sy; apply (rounds_to_exact (S754_zero _)); exact I.
  - eapply rounds_to_wd; [|apply (rounds_to_exact (S754_finite (negb sy) my ey) Hy)].
    cbn [SF2Q]. destruct sy; cbn [negb]; ring.
  - eapply rounds_to_wd; [|apply (rounds_to_exact _ Hx)]. cbn [SF2Q]. ring.
  - pose proof (shl_align_spec mx ex (Z.min ex ey)) as [Ex1 Ex2].
    pose proof (shl_align_spec my ey (Z.min ex ey)) as [Ey1 Ey2].
    rewrite Ex1 in Ex2. rewrite Ey1 in Ey2.
    replace (Z.min ex (Z.min ex ey)) with (Z.min ex ey) in Ex2 by lia.
    replace (Z.min ey (Z.min ex ey)) with (Z.min ex ey) in Ey2 by lia.
    rewrite Ex2, Ey2.
    set (ez := Z.min ex ey) in *.
    assert (EV : inject_Z (cond_Zopp sx (Zpos mx * 2 ^ (ex - ez))
                           - cond_Zopp sy (Zpos my * 2 ^ (ey - ez))) * pow2 ez
                 == SF2Q (S754_finite sx mx ex) - SF2Q (S754_finite sy my ey)).
    { rewrite <- !aligned_value with (ez := ez) by (unfold ez; lia).
      unfold Z.sub at 1. rewrite inject_Z_plus, inject_Z_opp. ring. }
    eapply rounds_to_wd; [exact EV|].
    apply binary_normalize_Q. now rewrite EV.
Qed.

Lemma Zdigits2_lower (m k : Z) :
  (0 < m)%Z -> (2 ^ (k - 1) <= m)%Z -> (k <= Zdigits2 m)%Z.
Proof.
  intros Hm H. destruct (Zdigits2_spec m Hm) as (Hd & _ & Hhi).
  destruct (Z_le_gt_dec k (Zdigits2 m)) as [Hle|Hgt]; [exact Hle | exfalso].
  assert (2 ^ Zdigits2 m <= 2 ^ (k - 1))%Z by (apply Z.pow_le_mono_r; lia).
  lia.
Qed.

Lemma signed_value (s : bool) (m : positive) (e : Z) :
  SF2Q (S754_finite s m e)
  == (if s then - (inject_Z (Zpos m) * pow2 e) else inject_Z (Zpos m) * pow2 e).
Proof. cbn [SF2Q]. destruct s; reflexivity. Qed.

Lemma magnitude_pos (m : positive) (e : Z) : 0 < inject_Z (Zpos m) * pow2 e.
Proof. apply Qmult_lt_0_compat; [reflexivity | apply pow2_pos_Q]. Qed.

Theorem SFmul_rounds (x y : double) :
  finite64 x -> finite64 y -> full_mantissa y ->
  Qabs (SF2Q x * SF2Q y) < pow2 1023 ->
  rounds_to (SFmul 53 1024 x y) (SF2Q x * SF2Q y).
Proof.
  intros Hx Hy Hfull Hv.
  destruct x as [sx|sx| |sx mx ex], y as [sy|sy| |sy my ey];
    try contradiction; cbn [SFmul].
  - eapply rounds_to_wd with (v := 0); [cbn; ring|].
    apply (rounds_to_exact (S754_zero _)); exact I.
  - eapply rounds_to_wd with (v := 0); [cbn [SF2Q]; ring|].
    apply (rounds_to_exact (S754_zero _)); exact I.
  - eapply rounds_to_wd with (v := 0); [cbn [SF2Q]; ring|].
    apply (rounds_to_exact (S754_zero _)); exact I.
  - cbn [full_mantissa] in Hfull.
    set (V := inject_Z (Zpos (mx * my)) * pow2 (ex + ey)).
    assert (HV : 0 < V) by apply magnitude_pos.
    assert (EV : SF2Q (S754_finite sx mx ex) * SF2Q (S754_finite sy my ey)
                 == (if xorb sx sy then - V else V)).
    { unfold V. rewrite !signed_value, Pos2Z.inj_mul, inject_Z_mult.
      destruct sx, sy; cbn [xorb]; rewrite pow2_add; ring. }
    assert (HVb : V < pow2 1023).
    { rewrite EV in Hv. destruct (xorb sx sy).
      - rewrite Qabs_opp, Qabs_pos in Hv by lra. exact Hv.
      - rewrite Qabs_pos in Hv by lra. exact Hv. }
    destruct (binary_round_aux_Q (xorb sx sy) (Zpos (mx * my)) (ex + ey) loc_Exact
                (Zpos (mx * my)) 1) as (m & e & -> & Hm & He & Herr).
    + unfold located. lia.
    + assert (53 <= Zdigits2 (Zpos (mx * my)))%Z.
      { apply Zdigits2_lower; [lia|]. change (2 ^ (53 - 1))%Z with (2 ^ 52)%Z. nia. }
      rewrite fexp_eq. lia.
    + apply digits_of_value; [lia | exact HVb].
    + eapply rounds_to_wd; [symmetry; exact EV|].
      apply mk_float_rounds_to; [exact Hm | exact He | exact HV |].
      assert (E : inject_Z (Zpos (mx * my)) / inject_Z 1 * pow2 (ex + ey) == V)
        by (unfold V; field).
      now rewrite E in Herr.
Qed.

Lemma new_location_located (m' my : Z) :
  (0 <= m')%Z -> (0 < my)%Z ->
  located (new_location my (snd (Z.div_eucl m' my))) m' my (fst (Z.div_eucl m' my)).
Proof.
  intros Hm' Hmy.
  pose proof (Z_div_mod m' my ltac:(lia)) as Hdiv.
  destruct (Z.div_eucl m' my) as [q r]. cbn [fst snd]. destruct Hdiv as [Eq Hr].
  assert (Hq : (0 <= q)%Z) by nia.
  unfold located. split; [exact Hq|]. split; [exact Hmy|].
  replace (m' - q * my)%Z with r by lia. split; [exact Hr|].
  unfold new_location. destruct (Z.even my) eqn:Eeven.
  - unfold new_location_even. destruct (Z.eqb_spec r 0) as [E0|Hne]; [exact E0|].
    destruct (Z.compare_spec (2 * r) my); lia.
  - unfold new_location_odd. destruct (Z.eqb_spec r 0) as [E0|Hne]; [exact E0|].
    assert (Hodd : Z.odd my = true) by (rewrite <- Z.negb_even, Eeven; reflexivity).
    apply Z.odd_spec in Hodd. destruct Hodd as [k Hk].
    destruct (Z.compare_spec (2 * r + 1) my); lia.
Qed.

Theorem SFdiv_rounds (x y : double) :
  is_finite x ->
  (exists s m e, y = S754_finite s m e) ->
  Qabs (SF2Q x / SF2Q y) < pow2 1023 ->
  rounds_to (SFdiv 53 1024 x y) (SF2Q x / SF2Q y).
Proof.
  intros Hx (sy & my & ey & ->) Hv.
  destruct x as [sx|sx| |sx mx ex]; try contradiction; cbn [SFdiv].
  - eapply rounds_to_wd with (v := 0).
    + cbn [SF2Q]. unfold Qdiv. ring.
    + apply (rounds_to_exact (S754_zero _)); exact I.
  - unfold SFdiv_core_binary.
    set (d1 := Zdigits2 (Zpos mx)). set (d2 := Zdigits2 (Zpos my)).
    set (e' := Z.min (fexp 53 1024 (d1 + ex - (d2 + ey))) (ex - ey)).
    set (sh := (ex - ey - e')%Z).
    assert (Hsh : (0 <= sh)%Z) by (unfold sh, e'; lia).
    set (m' := match sh with
               | 0%Z => Zpos mx
               | Zpos _ => Z.shiftl (Zpos mx) sh
               | Zneg _ => 0%Z
               end).
    assert (Em' : m' = (Zpos mx * 2 ^ sh)%Z).
    { unfold m'. clearbody sh. destruct sh as [|p|p]; try lia.
      now rewrite Z.shiftl_mul_pow2 by lia. }
    clearbody m'.
    assert (HP : (0 < 2 ^ sh)%Z) by (apply pow2_pos; lia).
    assert (Hm' : (0 < m')%Z) by (rewrite Em'; apply Z.mul_pos_pos; lia).
    pose proof (new_location_located m' (Zpos my) ltac:(lia) ltac:(lia)) as Hloc.
    pose proof (Z_div_mod m' (Zpos my) ltac:(lia)) as Hdiv.
    destruct (Z.div_eucl m' (Zpos my)) as [q r]. cbn [fst snd] in Hloc.
    destruct Hdiv as [Eq Hr].
    assert (Hq : (0 <= q)%Z) by nia.
    destruct (Zdigits2_spec (Zpos mx) ltac:(lia)) as (Hd1 & Hlo1 & Hhi1).
    destruct (Zdigits2_spec (Zpos my) ltac:(lia)) as (Hd2 & Hlo2 & Hhi2).
    fold d1 in Hd1, Hlo1, Hhi1. fold d2 in Hd2, Hlo2, Hhi2.
    set (V := inject_Z m' / inject_Z (Zpos my) * pow2 e').
    assert (EV0 : V == inject_Z (Zpos mx) * pow2 ex / (inject_Z (Zpos my) * pow2 ey)).
    { unfold V. rewrite Em', inject_Z_mult, <- pow2_inject by lia.
      assert (E : pow2 ex == pow2 sh * pow2 e' * pow2 ey).
      { rewrite <- !pow2_add. replace (sh + e' + ey)%Z with ex by (unfold sh; lia).
        reflexivity. }
      rewrite E. pose proof (pow2_pos_Q ey). pose proof (pow2_pos_Q e').
      field. split; [lra | discriminate]. }
    assert (HV : 0 < V).
    { rewrite EV0. apply Qlt_shift_div_l; [apply magnitude_pos|].
      pose proof (magnitude_pos mx ex). lra. }
    assert (EV : SF2Q (S754_finite sx mx ex) / SF2Q (S754_finite sy my ey)
                 == (if xorb sx sy then - V else V)).
    { rewrite !signed_value.
      pose proof (pow2_pos_Q ey).
      destruct sx, sy; cbn [xorb]; rewrite EV0; field;
        repeat split; try discriminate; lra. }
    assert (HVb : V < pow2 1023).
    { rewrite EV in Hv. destruct (xorb sx sy).
      - rewrite Qabs_opp, Qabs_pos in Hv by lra. exact Hv.
      - rewrite Qabs_pos in Hv by lra. exact Hv. }
    assert (HqV : inject_Z q * pow2 e' <= V).
    { unfold V. apply Qmult_le_compat_r; [|pose proof (pow2_pos_Q e'); lra].
      apply Qle_shift_div_l; [reflexivity|].
      rewrite <- inject_Z_mult, <- Zle_Qle. nia. }
    destruct (binary_round_aux_Q (xorb sx sy) q e' (new_location (Zpos my) r)
                m' (Zpos my) Hloc) as (m & e & -> & Hm & He & Herr).
    + (* alignment *)
      destruct (Z.eq_dec q 0) as [-> | Hq0].
      * cbn [Zdigits2]. rewrite fexp_eq.
        assert (Hlt : (m' < Zpos my)%Z) by lia.
        assert (d1 + sh <= d2)%Z.
        { assert (2 ^ (d1 - 1 + sh) < 2 ^ d2)%Z.
          { rewrite pow2_split by lia. nia. }
          assert (d1 - 1 + sh < d2)%Z by (apply (Z.pow_lt_mono_r_iff 2); lia).
          lia. }
        assert (e' <= fexp 53 1024 (d1 + ex - (d2 + ey)))%Z by (unfold e'; lia).
        rewrite fexp_eq in *. unfold sh in *. lia.
      * assert (Hqpos : (0 < q)%Z) by lia.
        assert (Hdq : (d1 + sh - d2 <= Zdigits2 q)%Z).
        { destruct (Z_le_gt_dec (d1 + sh - d2) 0) as [Hsmall | Hbig].
          - destruct (Zdigits2_spec q Hqpos). lia.
          - apply Zdigits2_lower; [exact Hqpos|].
            assert (E1 : (2 ^ (d1 - 1 + sh) = 2 ^ (d1 + sh - d2 - 1) * 2 ^ d2)%Z).
            { rewrite <- pow2_split by lia. f_equal. lia. }
            assert (E2 : (2 ^ (d1 - 1 + sh) = 2 ^ (d1 - 1) * 2 ^ sh)%Z)
              by (rewrite pow2_split by lia; reflexivity).
            assert (0 < 2 ^ (d1 + sh - d2 - 1))%Z by (apply pow2_pos; lia).
            nia. }
        assert (e' <= fexp 53 1024 (d1 + ex - (d2 + ey)))%Z by (unfold e'; lia).
        rewrite fexp_eq in *. unfold sh in *. lia.
    + (* no overflow *)
      destruct (Z.eq_dec q 0) as [-> | Hq0].
      * cbn [Zdigits2].
        assert (Hd0 : (d1 + ex - (d2 + ey) <= 1024)%Z).
        { assert (H1 : pow2 (d1 - 1 + ex - (d2 + ey)) <= V).
          { rewrite EV0.
            assert (Ha : pow2 (d1 - 1) <= inject_Z (Zpos mx)).
            { rewrite pow2_inject by lia. now rewrite <- Zle_Qle. }
            assert (Hb : inject_Z (Zpos my) <= pow2 d2).
            { rewrite pow2_inject by lia. rewrite <- Zle_Qle. lia. }
            pose proof (pow2_pos_Q ex). pose proof (pow2_pos_Q ey).
            pose proof (pow2_pos_Q d2). pose proof (pow2_pos_Q (d1 - 1)).
            assert (Hc : 0 < inject_Z (Zpos my)) by reflexivity.
            apply Qle_shift_div_l; [nra|].
            assert (E : pow2 (d1 - 1 + ex - (d2 + ey)) * (pow2 d2 * pow2 ey)
                        == pow2 (d1 - 1) * pow2 ex).
            { rewrite <- !pow2_add.
              replace (d1 - 1 + ex - (d2 + ey) + (d2 + ey))%Z with (d1 - 1 + ex)%Z by lia.
              reflexivity. }
            pose proof (pow2_pos_Q (d1 - 1 + ex - (d2 + ey))) as HpD.
            assert (A1 : inject_Z (Zpos my) * pow2 ey <= pow2 d2 * pow2 ey)
              by (apply Qmult_le_compat_r; lra).
            assert (A2 : pow2 (d1 - 1 + ex - (d2 + ey)) * (inject_Z (Zpos my) * pow2 ey)
                         <= pow2 (d1 - 1 + ex - (d2 + ey)) * (pow2 d2 * pow2 ey))
              by (apply Qmult_le_l; assumption).
            assert (A3 : pow2 (d1 - 1) * pow2 ex <= inject_Z (Zpos mx) * pow2 ex)
              by (apply Qmult_le_compat_r; lra).
            lra. }
          destruct (Z_le_gt_dec (d1 + ex - (d2 + ey)) 1024) as [Hle|Hgt]; [exact Hle|].
          assert (pow2 1023 <= pow2 (d1 - 1 + ex - (d2 + ey))) by (apply pow2_le; lia).
          lra. }
        assert (e' <= fexp 53 1024 (d1 + ex - (d2 + ey)))%Z by (unfold e'; lia).
        rewrite fexp_eq in *. lia.
      * apply digits_of_value; [lia|]. lra.
    + eapply rounds_to_wd; [symmetry; exact EV|].
      apply mk_float_rounds_to; [exact Hm | exact He | exact HV | exact Herr].
Qed.

(** ** Reading error bounds *)

Lemma rounds_to_abs (r : double) (v B : Q) :
  rounds_to r v -> Qabs v <= B ->
  finite64 r /\ SF2Q r - v <= eps * B + eta /\ v - SF2Q r <= eps * B + eta.
Proof.
  intros (Hf & Herr & _) HB. split; [exact Hf|].
  assert (eps * Qabs v <= eps * B).
  { apply Qmult_le_l; [reflexivity | exact HB]. }
  apply Qabs_Qle_condition in Herr. lra.
Qed.

Lemma Qabs_le_of (v lo hi B : Q) : lo <= v <= hi -> - B <= lo -> hi <= B -> Qabs v <= B.
Proof. intros. apply Qabs_Qle_condition. lra. Qed.

Lemma mult_between (P C lo hi : Q) :
  0 <= P -> lo <= C <= hi -> lo * P <= P * C <= hi * P.
Proof.
  intros HP [Hlo Hhi]. split.
  - setoid_replace (P * C) with (C * P) by ring. now apply Qmult_le_compat_r.
  - setoid_replace (P * C) with (C * P) by ring. now apply Qmult_le_compat_r.
Qed.

Lemma eta_tiny : eta <= 1 # 1000000000000000000000000000000.
Proof.
  unfold eta. apply Qle_trans with (pow2 (-100)); [apply pow2_le; lia|].
  apply Qle_bool_iff. reflexivity.
Qed.

Lemma below_overflow (v : Q) : Qabs v <= 1000000000000000000000 -> Qabs v < pow2 1023.
Proof.
  intros H. apply Qle_lt_trans with (pow2 70).
  - eapply Qle_trans; [exact H|]. apply Qle_bool_iff. reflexivity.
  - apply pow2_lt. lia.
Qed.

(** A double in canonical form is a finite double in the sense of
    [finite64]. *)
Lemma valid_binary_finite64 (x : double) :
  valid_binary 53 1024 x = true -> is_finite x -> finite64 x.
Proof.
  destruct x as [s|s| |s m e]; cbn [is_finite finite64]; try tauto.
  intros H _. cbn [valid_binary] in H. unfold bounded, canonical_mantissa in H.
  apply andb_true_iff in H. destruct H as [H1 H2].
  apply Z.eqb_eq in H1. apply Z.leb_le in H2.
  rewrite fexp_eq in H1. pose proof (digits2_pos_spec m) as Hd.
  assert (Hd53 : (Zpos (digits2_pos m) <= 53)%Z) by lia.
  split; [|lia].
  apply Z.lt_le_trans with (2 ^ Zpos (digits2_pos m))%Z; [lia|].
  apply Z.pow_le_mono_r; lia.
Qed.

(** ** The margin calculator on doubles *)

Lemma literal_facts :
  (finite64 lit_supplier /\ full_mantissa lit_supplier /\
   (3 # 10) - (1 # 10000000000000000) <= SF2Q lit_supplier <= (3 # 10) + (1 # 10000000000000000)) /\
  (finite64 lit_ad /\ full_mantissa lit_ad /\ SF2Q lit_ad == 1 # 4) /\
  (finite64 lit_fees /\ full_mantissa lit_fees /\
   (15 # 100) - (1 # 10000000000000000) <= SF2Q lit_fees <= (15 # 100) + (1 # 10000000000000000)) /\
  (finite64 lit_shipping /\ SF2Q lit_shipping == 5) /\
  (finite64 (double_of_Q 100) /\ full_mantissa (double_of_Q 100) /\
   SF2Q (double_of_Q 100) == 100).
Proof.
  repeat split; try (vm_compute; congruence); try (apply Qle_bool_iff; vm_compute; reflexivity).
Qed.

(** Arithmetic on the names given to intermediate values. *)
Ltac qlra := unfold eps in *; repeat match goal with x := _ |- _ => clearbody x end; lra.

Lemma positive_finite (p : double) :
  finite64 p -> 0 < SF2Q p -> exists s m e, p = S754_finite s m e.
Proof.
  destruct p as [s|s| |s m e]; cbn [finite64 SF2Q]; intros H H0; try contradiction.
  - lra.
  - now exists s, m, e.
Qed.

Lemma margin_figures_error (p : double) :
  finite64 p -> 1 # 100 <= SF2Q p <= 1000000 ->
  let P := SF2Q p in
  let supplierPrice := mul64 p lit_supplier in
  let adCost := mul64 p lit_ad in
  let platformFees := mul64 p lit_fees in
  let totalCost :=
    add64 (add64 (add64 supplierPrice lit_shipping) adCost) platformFees in
  let profit := sub64 p totalCost in
  let profitMargin := mul64 (div64 profit p) (double_of_Q 100) in
  (finite64 supplierPrice /\ Qabs (SF2Q supplierPrice - (3 # 10) * P) <= slack) /\
  (finite64 adCost /\ Qabs (SF2Q adCost - (25 # 100) * P) <= slack) /\
  (finite64 platformFees /\ Qabs (SF2Q platformFees - (15 # 100) * P) <= slack) /\
  (finite64 totalCost /\ Qabs (SF2Q totalCost - ((7 # 10) * P + 5)) <= slack) /\
  (finite64 profit /\ Qabs (SF2Q profit - ((3 # 10) * P - 5)) <= slack) /\
  (finite64 profitMargin /\ Qabs (SF2Q profitMargin - (30 - 500 / P)) <= slack).
Proof.
  intros Hp HP. cbn zeta.
  destruct literal_facts as ((Hs1 & Hs2 & Hs3) & (Ha1 & Ha2 & Ha3) & (Hf1 & Hf2 & Hf3)
                             & (Hh1 & Hh2) & (Hc1 & Hc2 & Hc3)).
  set (P := SF2Q p) in *.
  pose proof eta_tiny as Heta. pose proof eta_pos as Heta0.
  unfold slack.
  assert (HP0 : 0 <= P) by qlra.
  (* supplierPrice *)
  pose proof (mult_between P (SF2Q lit_supplier) _ _ HP0 Hs3) as Bs.
  assert (Rs : rounds_to (mul64 p lit_supplier) (P * SF2Q lit_supplier)).
  { apply SFmul_rounds; try assumption. apply below_overflow.
    apply Qabs_Qle_condition. fold P. qlra. }
  destruct (rounds_to_abs _ _ ((4 # 10) * P) Rs) as (Fs & Es1 & Es2);
    [apply Qabs_Qle_condition; qlra|].
  destruct Rs as (_ & _ & Rs0 & _). specialize (Rs0 ltac:(qlra)).
  set (S := SF2Q (mul64 p lit_supplier)) in *.
  (* adCost *)
  assert (Ba : P * SF2Q lit_ad == (1 # 4) * P) by (rewrite Ha3; ring).
  assert (Ra : rounds_to (mul64 p lit_ad) (P * SF2Q lit_ad)).
  { apply SFmul_rounds; try assumption. apply below_overflow.
    apply Qabs_Qle_condition. fold P. qlra. }
  destruct (rounds_to_abs _ _ ((4 # 10) * P) Ra) as (Fa & Ea1 & Ea2);
    [apply Qabs_Qle_condition; qlra|].
  destruct Ra as (_ & _ & Ra0 & _). specialize (Ra0 ltac:(qlra)).
  set (A := SF2Q (mul64 p lit_ad)) in *.
  (* platformFees *)
  pose proof (mult_between P (SF2Q lit_fees) _ _ HP0 Hf3) as Bf.
  assert (Rf : rounds_to (mul64 p lit_fees) (P * SF2Q lit_fees)).
  { apply SFmul_rounds; try assumption. apply below_overflow.
    apply Qabs_Qle_condition. fold P. qlra. }
  destruct (rounds_to_abs _ _ ((4 # 10) * P) Rf) as (Ff & Ef1 & Ef2);
    [apply Qabs_Qle_condition; qlra|].
  destruct Rf as (_ & _ & Rf0 & _). specialize (Rf0 ltac:(qlra)).
  set (Fe := SF2Q (mul64 p lit_fees)) in *.
  (* totalCost *)
  assert (R1 : rounds_to (add64 (mul64 p lit_supplier) lit_shipping) (S + SF2Q lit_shipping)).
  { apply SFadd_rounds; try assumption. apply below_overflow.
    apply Qabs_Qle_condition. fold S. qlra. }
  destruct (rounds_to_abs _ _ (P + 6) R1) as (F1 & E11 & E12);
    [apply Qabs_Qle_condition; qlra|].
  destruct R1 as (_ & _ & R10 & _). specialize (R10 ltac:(qlra)).
  set (T1 := SF2Q (add64 (mul64 p lit_supplier) lit_shipping)) in *.
  assert (R2 : rounds_to (add64 (add64 (mul64 p lit_supplier) lit_shipping) (mul64 p lit_ad))
                 (T1 + A)).
  { apply SFadd_rounds; try assumption. apply below_overflow.
    apply Qabs_Qle_condition. fold T1 A. qlra. }
  destruct (rounds_to_abs _ _ (P + 6) R2) as (F2 & E21 & E22);
    [apply Qabs_Qle_condition; qlra|].
  destruct R2 as (_ & _ & R20 & _). specialize (R20 ltac:(qlra)).
  set (T2 := SF2Q (add64 (add64 (mul64 p lit_supplier) lit_shipping) (mul64 p lit_ad))) in *.
  assert (R3 : rounds_to
                 (add64 (add64 (add64 (mul64 p lit_supplier) lit_shipping) (mul64 p lit_ad))
                        (mul64 p lit_fees)) (T2 + Fe)).
  { apply SFadd_rounds; try assumption. apply below_overflow.
    apply Qabs_Qle_condition. fold T2 Fe. qlra. }
  destruct (rounds_to_abs _ _ (P + 6) R3) as (F3 & E31 & E32);
    [apply Qabs_Qle_condition; qlra|].
  destruct R3 as (_ & _ & R30 & _). specialize (R30 ltac:(qlra)).
  set (T3 := SF2Q (add64 (add64 (add64 (mul64 p lit_supplier) lit_shipping) (mul64 p lit_ad))
                         (mul64 p lit_fees))) in *.
  (* profit *)
  set (total := add64 (add64 (add64 (mul64 p lit_supplier) lit_shipping) (mul64 p lit_ad))
                      (mul64 p lit_fees)) in *.
  assert (Rp : rounds_to (sub64 p total) (P - T3)).
  { apply SFsub_rounds; try assumption. apply below_overflow.
    apply Qabs_Qle_condition. fold P T3. qlra. }
  destruct (rounds_to_abs _ _ (P + 6) Rp) as (Fp & Ep1 & Ep2);
    [apply Qabs_Qle_condition; qlra|].
  set (PR := SF2Q (sub64 p total)) in *.
  (* the quotient *)
  set (Y := / P).
  assert (HY : P * Y == 1) by (unfold Y; field; qlra).
  assert (HY0 : 0 < Y) by (unfold Y; apply Qinv_lt_0_compat; qlra).
  assert (HY1 : Y <= 100).
  { assert (H : 1 * Y <= 100 * P * Y) by (apply Qmult_le_compat_r; qlra).
    clear - H HY. qlra. }
  assert (EX : PR / P == PR * Y) by (unfold Y; field; qlra).
  assert (HXlo : ((3 # 10) * P - 5 - (1 # 1000000000000000) * P - (1 # 100000000000000)) * Y <= PR * Y).
  { apply Qmult_le_compat_r; qlra. }
  assert (HXhi : PR * Y <= ((3 # 10) * P - 5 + (1 # 1000000000000000) * P + (1 # 100000000000000)) * Y).
  { apply Qmult_le_compat_r; qlra. }
  set (X := PR * Y) in *.
  assert (HXlo' : (3 # 10) - 5 * Y - (1 # 1000000000000000) - (1 # 100000000000000) * Y <= X)
    by (clear - HXlo HY; qlra).
  assert (HXhi' : X <= (3 # 10) - 5 * Y + (1 # 1000000000000000) + (1 # 100000000000000) * Y)
    by (clear - HXhi HY; qlra).
  assert (Rq : rounds_to (div64 (sub64 p total) p) X).
  { eapply rounds_to_wd; [exact EX|].
    apply SFdiv_rounds.
    - now apply finite64_is_finite.
    - apply positive_finite; [exact Hp | fold P; qlra].
    - apply below_overflow. fold PR P. rewrite EX. fold X.
      apply Qabs_Qle_condition. qlra. }
  destruct (rounds_to_abs _ _ 1000 Rq) as (Fq & Eq1 & Eq2);
    [apply Qabs_Qle_condition; qlra|].
  set (Q1 := SF2Q (div64 (sub64 p total) p)) in *.
  assert (Rm : rounds_to (mul64 (div64 (sub64 p total) p) (double_of_Q 100))
                 (Q1 * SF2Q (double_of_Q 100))).
  { apply SFmul_rounds; try assumption. apply below_overflow. fold Q1. rewrite Hc3.
    apply Qabs_Qle_condition. qlra. }
  destruct (rounds_to_abs _ _ 100000 Rm) as (Fm & Em1 & Em2);
    [rewrite Hc3; apply Qabs_Qle_condition; qlra|].
  rewrite Hc3 in Em1, Em2.
  set (MG := SF2Q (mul64 (div64 (sub64 p total) p) (double_of_Q 100))) in *.
  assert (EM : 500 / P == 500 * Y) by (unfold Y; field; qlra).
  unfold eps in *.
  repeat split; try assumption; apply Qabs_Qle_condition; try rewrite EM; qlra.
Qed.

Lemma toFixed_finite64 (r : double) (f : nat) :
  finite64 r -> toFixed r f = toFixedQ (SF2Q r) f.
Proof. destruct r; cbn [finite64 toFixed]; intros H; try contradiction; reflexivity. Qed.

(** [toFixed] of a double within [slack] of [x] is within half a unit of
    the last place kept, and [slack], of [x]. *)
Lemma toFixed_near (r : double) (x tol : Q) (f : nat) :
  finite64 r -> Qabs (SF2Q r - x) <= slack ->
  (1 # 2) / inject_Z (pow10 f) <= tol ->
  within (toFixed r f) x (tol + slack).
Proof.
  intros Hr Hx Htol. rewrite (toFixed_finite64 r f Hr).
  destruct (toFixedQ_within (SF2Q r) f) as (v & Hv & Hb).
  exists v. split; [exact Hv|].
  apply Qabs_Qle_condition in Hb. apply Qabs_Qle_condition in Hx.
  apply Qabs_Qle_condition. lra.
Qed.

Lemma two_places : (1 # 2) / inject_Z (pow10 2) <= 1 # 200.
Proof. apply Qle_bool_iff. reflexivity. Qed.

Lemma one_place : (1 # 2) / inject_Z (pow10 1) <= 1 # 20.
Proof. apply Qle_bool_iff. reflexivity. Qed.

(** Every figure of the breakdown is within tolerance of the cost model,
    for every double from one cent to a million. *)
Lemma calculateMargins_in_tolerance (p : double) :
  finite64 p -> 1 # 100 <= SF2Q p <= 1000000 -> margins_in_tolerance p.
Proof.
  intros Hp HP.
  destruct (margin_figures_error p Hp HP)
    as ((Fs & Es) & (Fa & Ea) & (Ff & Ef) & (Ft & Et) & (Fp & Ep) & (Fm & Em)).
  cbn zeta in *.
  destruct literal_facts as (_ & _ & _ & (Hh1 & Hh2) & _).
  unfold margins_in_tolerance, monetary_fields_ok, margin_field_ok, calculateMargins.
  cbn [supplierPrice shippingCost adCost platformFees totalCost profit profitMargin].
  unfold spec_profitMargin, spec_profit, spec_totalCost, spec_supplierPrice,
    spec_shippingCost, spec_adCost, spec_platformFees.
  set (P := SF2Q p) in *.
  assert (HP0 : ~ P == 0) by lra.
  repeat split.
  - eapply within_compat; [|apply (toFixed_near _ _ _ 2 Fs Es two_places)]. lra.
  - apply (toFixed_near lit_shipping 5 (1 # 200) 2 Hh1); [|exact two_places].
    apply Qabs_Qle_condition. unfold slack. lra.
  - eapply within_compat; [|apply (toFixed_near _ _ _ 2 Fa Ea two_places)]. lra.
  - eapply within_compat; [|apply (toFixed_near _ _ _ 2 Ff Ef two_places)]. lra.
  - eapply within_compat; [|apply (toFixed_near _ _ _ 2 Ft Et two_places)]. lra.
  - eapply within_compat; [|apply (toFixed_near _ _ _ 2 Fp Ep two_places)]. lra.
  - eapply within_compat; [|apply (toFixed_near _ _ _ 1 Fm Em one_place)].
    field. exact HP0.
Qed.

(** C2 (amended): for every double p from 0.01 to 1,000,000 the monetary
    fields of calculateMargins(p) are the cost model's figures
    (supplierPrice 0.30 p, shippingCost 5, adCost 0.25 p, platformFees
    0.15 p, totalCost their sum, profit p - totalCost) to within half a cent
    plus 1e-9, and profitMargin is profit / p * 100 to within 0.05 plus
    1e-9, the 1e-9 covering the rounding of the binary64 operations; at
    p = 100 the margin reads "25.0".  Outside that range the figures need
    not follow the model: at p = 0 and at the positive price 1e-310 the
    margin reads "-Infinity", and at p = 1e15 + 1 supplierPrice reads
    300000000000000.31 where 0.30 p is 300000000000000.30. *)
Theorem calculateMargins_within_tolerance (p : double) :
  finite64 p -> 1 # 100 <= SF2Q p <= 1000000 ->
  margins_in_tolerance p /\
  fixed_to_string (profitMargin (calculateMargins price_100)) = Some "25.0" /\
  fixed_to_string (profitMargin (calculateMargins price_zero)) = Some "-Infinity" /\
  fixed_to_string (profitMargin (calculateMargins price_tiny)) = Some "-Infinity" /\
  fixed_to_string (supplierPrice (calculateMargins price_huge))
  = Some "300000000000000.31".
Proof.
  intros Hp HP. split; [now apply calculateMargins_in_tolerance|].
  repeat split; vm_compute; reflexivity.
Qed.

Lemma calculateMargins_within_tolerance_witness :
  finite64 price_100 /\ margins_in_tolerance price_100.
Proof.
  assert (H : finite64 price_100) by (vm_compute; split; [|split]; congruence).
  split; [exact H|].
  apply (calculateMargins_within_tolerance price_100 H).
  split; apply Qle_bool_iff; vm_compute; reflexivity.
Defined.

(** C2 fails at p = 0: profit / p is a division by zero, and the code's
    profitMargin is "-Infinity", which denotes no number. *)
Lemma calculateMargins_zero_price :
  fixed_to_string (profitMargin (calculateMargins price_zero)) = Some "-Infinity" /\
  SF2Q price_zero == 0 /\
  ~ margins_in_tolerance price_zero.
Proof.
  split; [vm_compute; reflexivity|]. split; [reflexivity|].
  intros (_ & v & Hv & _). vm_compute in Hv. discriminate.
Qed.

(** The printed figure is not always the rounding of the model's figure:
    at 19.9 the advertising cost 4.975 is computed as the double just below
    it and reads 4.97. *)
Lemma calculateMargins_tie_19_90 :
  fixed_to_string (adCost (calculateMargins price_19_90)) = Some "4.97" /\
  fixed_to_string (platformFees (calculateMargins price_19_90)) = Some "2.98".
Proof. split; vm_compute; reflexivity. Qed.

(** ** Scoring engine *)

Lemma random_score_range (r : Q) :
  0 <= r < 1 -> 70 <= random_score r <= 99.
Proof.
  intros [H0 H1]. unfold random_score, Math_floor.
  assert (Hlo : (0 <= Qfloor (r * 30))%Z).
  { change 0%Z with (Qfloor 0). apply Qfloor_resp_le. lra. }
  assert (Hhi : (Qfloor (r * 30) < 30)%Z).
  { rewrite Zlt_Qlt. eapply Qle_lt_trans; [apply Qfloor_le|].
    change (inject_Z 30) with 30. lra. }
  change 70 with (inject_Z 70). change 99 with (inject_Z 99).
  rewrite <- !Zle_Qle. lia.
Qed.

Lemma mapM_Forall {A B : Type} (f : A -> M B) (P : B -> Prop) (l : list A) :
  (forall a g, unit_draws g -> P (fst (f a g)) /\ unit_draws (snd (f a g))) ->
  forall g, unit_draws g -> Forall P (fst (mapM f l g)).
Proof.
  intros Hf. induction l as [|a r IH]; intros g Hg; cbn [mapM].
  - constructor.
  - unfold bind. destruct (Hf a g Hg) as [HP Hg'].
    destruct (f a g) as [b g1]. cbn [fst snd] in *.
    specialize (IH g1 Hg'). destruct (mapM f r g1) as [bs g2].
    cbn [fst ret] in *. now constructor.
Qed.

Lemma mapM_map {A B C : Type} (f : A -> M B) (h : B -> C) (k : A -> C) (l : list A) :
  (forall a g, h (fst (f a g)) = k a) ->
  forall g, map h (fst (mapM f l g)) = map k l.
Proof.
  intros Hf. induction l as [|a r IH]; intros g; cbn [mapM].
  - reflexivity.
  - unfold bind. specialize (Hf a g). destruct (f a g) as [b g1].
    specialize (IH g1). destruct (mapM f r g1) as [bs g2].
    cbn [fst ret map] in *. now rewrite Hf, IH.
Qed.

Lemma nth_error_mapi_from {A B : Type} (f : A -> nat -> B) (l : list A) :
  forall k i, nth_error (mapi_from k f l) i
              = option_map (fun a => f a (k + i)%nat) (nth_error l i).
Proof.
  induction l as [|a r IH]; intros k [|i]; cbn [mapi_from nth_error option_map];
    try reflexivity.
  - now rewrite Nat.add_0_r.
  - rewrite IH. now rewrite Nat.add_succ_comm.
Qed.

Lemma mapi_from_map {A B C : Type} (f : A -> nat -> B) (h : B -> C) (k : A -> C)
    (l : list A) :
  (forall a i, h (f a i) = k a) ->
  forall i, map h (mapi_from i f l) = map k l.
Proof.
  intros Hf. induction l as [|a r IH]; intros i; cbn [mapi_from map].
  - reflexivity.
  - now rewrite Hf, IH.
Qed.

Lemma mapi_from_Forall {A B : Type} (f : A -> nat -> B) (P : B -> Prop) (l : list A) :
  (forall a i, P (f a i)) -> forall i, Forall P (mapi_from i f l).
Proof.
  intros Hf. induction l as [|a r IH]; intros i; cbn [mapi_from]; constructor; auto.
Qed.

Lemma basicAnalysis_spec (p : Analysed) (g : Rng) :
  unit_draws g ->
  let q := fst (basicAnalysis p g) in
  analysed q = p /\ 70 <= aiScore q <= 99 /\
  (trend q = "Rising" \/ trend q = "Stable") /\
  (competition q = "Medium" \/ competition q = "High") /\
  recommendation q = "Analyze manually for best results" /\
  unit_draws (snd (basicAnalysis p g)).
Proof.
  intros Hg. unfold basicAnalysis, bind, Math_random, ret.
  cbn [fst snd analysed aiScore trend competition recommendation draws pos].
  split; [reflexivity|]. split; [apply random_score_range, Hg|].
  split; [destruct (Qlt_bool _ _); auto|].
  split; [destruct (Qlt_bool _ _); auto|].
  split; [reflexivity | exact Hg].
Qed.

Lemma errorAnalysis_spec (p : Analysed) (g : Rng) :
  unit_draws g ->
  let q := fst (errorAnalysis p g) in
  analysed q = p /\ 70 <= aiScore q <= 99 /\ trend q = "Unknown" /\
  competition q = "Medium" /\ recommendation q = "Manual analysis recommended" /\
  unit_draws (snd (errorAnalysis p g)).
Proof.
  intros Hg. unfold errorAnalysis, bind, Math_random, ret.
  cbn [fst snd analysed aiScore trend competition recommendation draws pos].
  split; [reflexivity|]. split; [apply random_score_range, Hg|].
  split; [reflexivity|]. split; [reflexivity|]. split; [reflexivity | exact Hg].
Qed.

Lemma Q_or_range (a : option Q) :
  (forall q, a = Some q -> 0 <= q <= 100) -> 0 <= Q_or a 75 <= 100.
Proof.
  intros H. unfold Q_or. destruct a as [q|]; [|lra].
  destruct (Qeq_bool q 0); [lra | now apply H].
Qed.


Lemma mapi_from_length {A B : Type} (f : A -> nat -> B) (l : list A) :
  forall i, List.length (mapi_from i f l) = List.length l.
Proof.
  induction l as [|a r IH]; intros i; cbn [mapi_from List.length]; auto.
Qed.


Lemma half_draws_unit : unit_draws half_draws.
Proof. intros n. cbn. split; [discriminate | reflexivity]. Defined.

Lemma mergeAnalysis_score_range (analysisArray : list Assessment.t)
    (p : Analysed) (i : nat) :
  answer_scores_in_range (Returned analysisArray) ->
  score_in_range (mergeAnalysis analysisArray p i).
Proof.
  intros H. unfold score_in_range, mergeAnalysis. cbn [aiScore].
  apply Q_or_range. intros q Hq.
  destruct (find (matches_position i) analysisArray) as [a|] eqn:E.
  - apply find_some in E. destruct E as [Hin _].
    cbn in H. rewrite Forall_forall in H. exact (H a Hin q Hq).
  - cbn in Hq. discriminate.
Qed.

Lemma mergeAnalysis_score (analysisArray : list Assessment.t) (p : Analysed) (i : nat) :
  score_merged (returned_score analysisArray i) (mergeAnalysis analysisArray p i).
Proof.
  unfold score_merged, returned_score, mergeAnalysis. cbn [aiScore].
  destruct (find (matches_position i) analysisArray) as [a|]; [|reflexivity].
  unfold Q_or. destruct (Assessment.aiScore a) as [q|]; [|reflexivity].
  destruct (Qeq_bool q 0); reflexivity.
Qed.

Lemma fallback_scores (ai : option Collaborator) (products : list Analysed) (g : Rng) :
  unit_draws g -> fallback_runs ai products ->
  Forall (fun p => 70 <= aiScore p <= 99) (fst (analyzeProductsWithAI ai products g)).
Proof.
  intros Hg Hfb. unfold analyzeProductsWithAI.
  destruct ai as [scoreBatch|].
  - destruct Hfb as [Hn | (f & Hf & Hthrew)]; [discriminate|].
    injection Hf as <-. rewrite Hthrew.
    apply mapM_Forall; [|exact Hg]. intros a g' Hg'.
    destruct (errorAnalysis_spec a g' Hg') as (_ & Hs & _ & _ & _ & Hd).
    split; [exact Hs | exact Hd].
  - apply mapM_Forall; [|exact Hg]. intros a g' Hg'.
    destruct (basicAnalysis_spec a g' Hg') as (_ & Hs & _ & _ & _ & Hd).
    split; [exact Hs | exact Hd].
Qed.

Lemma scores_in_range (ai : option Collaborator) (products : list Analysed) (g : Rng) :
  unit_draws g ->
  (forall scoreBatch, ai = Some scoreBatch ->
     answer_scores_in_range (scoreBatch (productSummaries products))) ->
  Forall score_in_range (fst (analyzeProductsWithAI ai products g)).
Proof.
  intros Hg Hai. unfold analyzeProductsWithAI.
  destruct ai as [scoreBatch|].
  - specialize (Hai scoreBatch eq_refl).
    destruct (scoreBatch (productSummaries products)) as [|analysisArray].
    + apply mapM_Forall; [|exact Hg]. intros a g' Hg'.
      destruct (errorAnalysis_spec a g' Hg') as (_ & Hs & _ & _ & _ & Hd).
      split; [unfold score_in_range; lra | exact Hd].
    + cbn [ret fst]. apply mapi_from_Forall. intros a i.
      now apply mergeAnalysis_score_range.
  - apply mapM_Forall; [|exact Hg]. intros a g' Hg'.
    destruct (basicAnalysis_spec a g' Hg') as (_ & Hs & _ & _ & _ & Hd).
    split; [unfold score_in_range; lra | exact Hd].
Qed.

(** C3 (amended): on both fallback paths every ScoredProduct has aiScore
    in [70,99]; on the assisted path the aiScore of the product at position
    i is the score of the first returned assessment whose position index is
    i, passed on unchanged (an out-of-range score stays out of range), or
    75 when there is no such assessment or its score is missing or zero;
    hence every aiScore is in [0,100] whenever every score the collaborator
    returned lies in [0,100]. *)
Theorem analyzeProductsWithAI_score_range
    (ai : option Collaborator) (products : list Analysed) (g : Rng) :
  unit_draws g ->
  (fallback_runs ai products ->
   Forall (fun p => 70 <= aiScore p <= 99)
          (fst (analyzeProductsWithAI ai products g))) /\
  (forall scoreBatch analysisArray,
     ai = Some scoreBatch ->
     scoreBatch (productSummaries products) = Returned analysisArray ->
     List.length (fst (analyzeProductsWithAI ai products g)) = List.length products /\
     forall i p,
       nth_error (fst (analyzeProductsWithAI ai products g)) i = Some p ->
       score_merged (returned_score analysisArray i) p) /\
  ((forall scoreBatch, ai = Some scoreBatch ->
      answer_scores_in_range (scoreBatch (productSummaries products))) ->
   Forall score_in_range (fst (analyzeProductsWithAI ai products g))).
Proof.
  intros Hg. split; [now apply fallback_scores|]. split; [|now apply scores_in_range].
  intros scoreBatch analysisArray -> Hret.
  unfold analyzeProductsWithAI. rewrite Hret. cbn [ret fst]. split.
  - apply mapi_from_length.
  - intros i p Hnth. rewrite nth_error_mapi_from in Hnth.
    destruct (nth_error products i) as [a|]; [|discriminate].
    cbn [option_map Nat.add] in Hnth. injection Hnth as <-.
    apply mergeAnalysis_score.
Qed.

Lemma analyzeProductsWithAI_score_range_witness :
  unit_draws half_draws /\
  answer_scores_in_range (well_behaved (productSummaries [analysed_lamp])) /\
  Forall score_in_range
    (fst (analyzeProductsWithAI (Some well_behaved) [analysed_lamp] half_draws)) /\
  map aiScore
    (fst (analyzeProductsWithAI (Some well_behaved) [analysed_lamp] half_draws))
  = [85].
Proof.
  assert (Hw : answer_scores_in_range
                 (well_behaved (productSummaries [analysed_lamp]))).
  { cbn. constructor; [|constructor]. intros q Hq. injection Hq as <-.
    split; discriminate. }
  split; [exact half_draws_unit|]. split; [exact Hw|].
  destruct (analyzeProductsWithAI_score_range (Some well_behaved)
              [analysed_lamp] half_draws half_draws_unit) as (_ & _ & H).
  split; [|reflexivity].
  apply H. intros scoreBatch E. injection E as <-. exact Hw.
Defined.

(** C3 fails on the assisted path: a returned score of 150 reaches the
    ScoredProduct as it is. *)
Lemma analyzeProductsWithAI_passes_150 :
  unit_draws half_draws /\
  map aiScore
    (fst (analyzeProductsWithAI (Some overscoring) [analysed_lamp] half_draws))
  = [150] /\
  ~ Forall score_in_range
      (fst (analyzeProductsWithAI (Some overscoring) [analysed_lamp] half_draws)).
Proof.
  split; [exact half_draws_unit|]. split; [reflexivity|].
  intros H. inversion H as [|x r [_ Hx] _]; subst.
  vm_compute in Hx. now apply Hx.
Qed.

(** C4 (amended): whenever a fallback path runs, every product of the batch
    gets an aiScore in [70,100] and a competition in {Medium, High}; with no
    collaborator configured the trend is Rising or Stable and the
    recommendation is "Analyze manually for best results"; after a failure
    of the assisted path the trend is Unknown, the competition Medium and
    the recommendation "Manual analysis recommended". *)
Theorem fallback_analysis
    (ai : option Collaborator) (products : list Analysed) (g : Rng) :
  unit_draws g ->
  fallback_runs ai products ->
  map analysed (fst (analyzeProductsWithAI ai products g)) = products /\
  Forall
    (fun p =>
       70 <= aiScore p <= 100 /\
       (competition p = "Medium" \/ competition p = "High") /\
       ((ai = None /\ (trend p = "Rising" \/ trend p = "Stable") /\
         recommendation p = "Analyze manually for best results") \/
        (ai <> None /\ trend p = "Unknown" /\ competition p = "Medium" /\
         recommendation p = "Manual analysis recommended")))
    (fst (analyzeProductsWithAI ai products g)).
Proof.
  intros Hg Hfb. unfold analyzeProductsWithAI.
  destruct ai as [scoreBatch|].
  - destruct Hfb as [Hn | (f & Hf & Hthrew)]; [discriminate|].
    injection Hf as <-. rewrite Hthrew. split.
    + rewrite <- (map_id products) at 2. apply mapM_map.
      intros a g'. reflexivity.
    + apply mapM_Forall; [|exact Hg]. intros a g' Hg'.
      destruct (errorAnalysis_spec a g' Hg') as (_ & Hs & Ht & Hc & Hr & Hd).
      split; [|exact Hd]. split; [lra|]. split; [now left|].
      right. split; [discriminate|]. auto.
  - split.
    + rewrite <- (map_id products) at 2. apply mapM_map.
      intros a g'. reflexivity.
    + apply mapM_Forall; [|exact Hg]. intros a g' Hg'.
      destruct (basicAnalysis_spec a g' Hg') as (_ & Hs & Ht & Hc & Hr & Hd).
      split; [|exact Hd]. split; [lra|]. split; [exact Hc|].
      left. auto.
Qed.

Lemma fallback_analysis_witness :
  unit_draws half_draws /\
  fallback_runs (Some failing) [analysed_lamp] /\
  Forall
    (fun p => 70 <= aiScore p <= 100 /\ trend p = "Unknown")
    (fst (analyzeProductsWithAI (Some failing) [analysed_lamp] half_draws)).
Proof.
  assert (Hfb : fallback_runs (Some failing) [analysed_lamp]).
  { right. exists failing. split; reflexivity. }
  split; [exact half_draws_unit|]. split; [exact Hfb|].
  destruct (fallback_analysis (Some failing) [analysed_lamp] half_draws
              half_draws_unit Hfb) as [_ H].
  eapply Forall_impl; [|exact H]. cbn beta.
  intros p (Hs & _ & [(Hn & _) | (_ & Ht & _)]); [discriminate|].
  split; [exact Hs | exact Ht].
Defined.

(** C4 fails after a failure of the assisted path: the trend assigned
    there is Unknown, neither Rising nor Stable. *)
Lemma failed_assist_trend_unknown :
  unit_draws half_draws /\
  fallback_runs (Some failing) [analysed_lamp] /\
  map trend
    (fst (analyzeProductsWithAI (Some failing) [analysed_lamp] half_draws))
  = ["Unknown"] /\
  ~ Forall heuristic_fields
      (fst (analyzeProductsWithAI (Some failing) [analysed_lamp] half_draws)).
Proof.
  split; [exact half_draws_unit|].
  split; [right; exists failing; split; reflexivity|].
  split; [reflexivity|].
  intros H. inversion H as [|x r (_ & [Ht | Ht] & _) _]; subst;
    vm_compute in Ht; discriminate.
Qed.

Lemma mapi_from_positions {A B : Type} (f : A -> nat -> B) (h : B -> nat) (l : list A) :
  (forall a i, h (f a i) = (i + 1)%nat) ->
  forall k, map h (mapi_from k f l) = seq (k + 1) (List.length l).
Proof.
  intros Hf. induction l as [|a r IH]; intros k; cbn [mapi_from map List.length seq].
  - reflexivity.
  - rewrite Hf, IH. now rewrite Nat.add_succ_l.
Qed.

(** The summaries are those of the first ten products, or of all when
    there are fewer, in order and numbered from 1. *)
Lemma productSummaries_first_ten (products : list Analysed) :
  map s_position (productSummaries products)
  = seq 1 (Nat.min 10 (List.length products)) /\
  map s_title (productSummaries products)
  = map (fun p => title (product p)) (firstn 10 products) /\
  map s_price (productSummaries products)
  = map (fun p => price (product p)) (firstn 10 products) /\
  map s_views (productSummaries products)
  = map (fun p => views (product p)) (firstn 10 products) /\
  map s_likes (productSummaries products)
  = map (fun p => likes (product p)) (firstn 10 products) /\
  map s_engagement (productSummaries products)
  = map (fun p => engagement (product p)) (firstn 10 products).
Proof.
  unfold productSummaries. split.
  - rewrite (mapi_from_positions _ s_position (firstn 10 products)) by reflexivity.
    now rewrite length_firstn.
  - repeat split; apply mapi_from_map; reflexivity.
Qed.




(** ** The recommendations route *)

(** C5 (amended): whenever the pooled product list is empty, that is no
    product is left after normalisation and the language filter, the
    recommendations route returns success = false with the reason
    "No products found. Try again or check your API key." *)
Theorem recommendations_empty_pool
    (scrapecreators : Category -> Upstream) (selectedCategories : list Category)
    (ai : option Collaborator) (g : Rng) :
  collectProducts scrapecreators selectedCategories = [] ->
  fst (recommendations scrapecreators selectedCategories ai g)
  = Failure "No products found. Try again or check your API key." /\
  success (fst (recommendations scrapecreators selectedCategories ai g)) = false.
Proof.
  intros H. unfold recommendations. rewrite H. split; reflexivity.
Qed.

Lemma recommendations_empty_pool_witness :
  collectProducts unavailable_upstream [HomeDecor; Makeup; Jewelry] = [] /\
  success (fst (recommendations unavailable_upstream [HomeDecor; Makeup; Jewelry]
                  None half_draws)) = false.
Proof.
  split; [reflexivity|].
  apply (recommendations_empty_pool unavailable_upstream
           [HomeDecor; Makeup; Jewelry] None half_draws).
  reflexivity.
Defined.

(** C5 fails when products are pooled but none has a price in range: the
    emptiness check precedes the price filter, and the route answers
    success = true with an empty product list. *)
Lemma recommendations_success_without_candidates :
  Forall (fun p => ~ price_in_range p)
         (collectProducts unpriced_upstream [HomeDecor; Makeup; Jewelry]) /\
  fst (recommendations unpriced_upstream [HomeDecor; Makeup; Jewelry]
         None half_draws)
  = Success [] [] 0.
Proof.
  split; [|reflexivity].
  repeat constructor; intros (q & Hq & H0 & _);
    cbn in Hq; injection Hq as <-; vm_compute in H0; discriminate.
Qed.

(** ** Price normalizer *)

Lemma normalizePrice_stripped (item : Raw.t) (info : PriceInfo.t) :
  Raw.product_price_info item = Some info ->
  normalizePrice item
  = if is_str (PriceInfo.currency_name info) "VND"
    then ndiv (parseFloat (strippedPrice info)) (Fin 25000)
    else parseFloat (strippedPrice info).
Proof.
  intros H. unfold normalizePrice, strippedPrice. rewrite H.
  destruct (is_str (PriceInfo.currency_name info) "VND"); [reflexivity|].
  destruct (is_str (PriceInfo.currency_name info) "USD"
            || is_str (PriceInfo.currency_symbol info) "$"); reflexivity.
Qed.

(** C6 (amended): for every price container whose selected price string
    cannot be parsed as a number after the applicable stripping rule, the
    Price Normalizer yields NaN, not 0; it is a total function on string
    fields, so nothing is raised, and the Candidate Selector rejects the
    NaN-priced product as it rejects a zero-priced one. *)
Theorem normalizePrice_unparseable
    (c : Category) (item : Raw.t) (info : PriceInfo.t) :
  Raw.product_price_info item = Some info ->
  parseFloat (strippedPrice info) = NaN ->
  price (normalizeItem c item) = NaN /\
  price_ok (normalizeItem c item) = false /\
  forall pool, ~ In (normalizeItem c item) (validProducts pool).
Proof.
  intros Hinfo Hnan.
  assert (Hp : price (normalizeItem c item) = NaN).
  { cbn [normalizeItem price]. rewrite (normalizePrice_stripped item info Hinfo).
    rewrite Hnan. now destruct (is_str _ _). }
  assert (Hok : price_ok (normalizeItem c item) = false).
  { unfold price_ok. rewrite Hp. reflexivity. }
  split; [exact Hp|]. split; [exact Hok|].
  intros pool Hin. unfold validProducts in Hin.
  apply In_firstn in Hin.
  apply (Permutation_in _ (Permutation_sym (Array_sort_perm by_popularity _))) in Hin.
  apply filter_In in Hin. destruct Hin as [_ Hin]. congruence.
Qed.

Lemma normalizePrice_unparseable_witness :
  strippedPrice comma_price_info = "$1299" /\
  parseFloat (strippedPrice comma_price_info) = NaN /\
  price (normalizeItem HomeDecor comma_price_item) = NaN.
Proof.
  split; [reflexivity|]. split; [reflexivity|].
  apply (normalizePrice_unparseable HomeDecor comma_price_item comma_price_info);
    reflexivity.
Defined.

(** C6 fails on the spec's own example: sale_price_format "$12,99" with
    currency_symbol "$" is stripped to "$1299", which does not parse, and
    the price is NaN rather than 0. *)
Lemma normalizePrice_comma_price_is_NaN :
  Raw.product_price_info comma_price_item = Some comma_price_info /\
  strippedPrice comma_price_info = "$1299" /\
  parseFloat (strippedPrice comma_price_info) = NaN /\
  price (normalizeItem HomeDecor comma_price_item) = NaN /\
  price (normalizeItem HomeDecor comma_price_item) <> Fin 0.
Proof.
  repeat split; try reflexivity. cbn. discriminate.
Qed.

(** ** Record normalizer: engagement *)

(** A double that is at least [2^j] is a multiple of [2^(j-52)]. *)
Lemma finite64_grid (r : double) (j : Z) :
  finite64 r -> pow2 j <= SF2Q r ->
  exists z : Z, SF2Q r == inject_Z z * pow2 (j - 52).
Proof.
  intros Hf Hj. pose proof (pow2_pos_Q j) as Hpj.
  destruct r as [s|s| |s m e]; cbn [finite64] in Hf; try contradiction.
  - cbn [SF2Q] in Hj. lra.
  - destruct Hf as [Hm He].
    pose proof (magnitude_pos m e) as Hmag.
    cbn [SF2Q] in *. destruct s; [lra|].
    assert (Hlt : inject_Z (Zpos m) * pow2 e < pow2 (53 + e)).
    { rewrite pow2_add. apply Qmult_lt_compat_r; [apply pow2_pos_Q|].
      rewrite pow2_inject by lia. now rewrite <- Zlt_Qlt. }
    assert (Hje : (j < 53 + e)%Z).
    { destruct (Z_lt_le_dec j (53 + e)) as [H|H]; [exact H | exfalso].
      assert (pow2 (53 + e) <= pow2 j) by (apply pow2_le; lia). lra. }
    exists (Zpos m * 2 ^ (e - (j - 52)))%Z.
    rewrite inject_Z_mult, <- pow2_inject by lia.
    transitivity (inject_Z (Zpos m) * (pow2 (e - (j - 52)) * pow2 (j - 52))); [|ring].
    rewrite <- pow2_add. replace (e - (j - 52) + (j - 52))%Z with e by lia. reflexivity.
Qed.

(** No double lies strictly between [b] and [b + 2^(j-52)] when [b] is a
    multiple of [2^(j-52)] that is at least [2^j]. *)
Lemma no_double_just_above (r : double) (j b : Z) :
  finite64 r ->
  pow2 j <= inject_Z b * pow2 (j - 52) ->
  SF2Q r < inject_Z (b + 1) * pow2 (j - 52) ->
  SF2Q r <= inject_Z b * pow2 (j - 52).
Proof.
  intros Hf Hb Hr. pose proof (pow2_pos_Q (j - 52)) as Hu.
  destruct (Qlt_le_dec (inject_Z b * pow2 (j - 52)) (SF2Q r)) as [Hgt | Hle]; [|exact Hle].
  exfalso.
  destruct (finite64_grid r j Hf ltac:(lra)) as [z Ez].
  rewrite Ez in Hgt, Hr.
  assert (H1 : inject_Z b < inject_Z z).
  { destruct (Qlt_le_dec (inject_Z b) (inject_Z z)) as [H|H]; [exact H|].
    assert (inject_Z z * pow2 (j - 52) <= inject_Z b * pow2 (j - 52))
      by (apply Qmult_le_compat_r; lra). lra. }
  assert (H2 : inject_Z z < inject_Z (b + 1)).
  { destruct (Qlt_le_dec (inject_Z z) (inject_Z (b + 1))) as [H|H]; [exact H|].
    assert (inject_Z (b + 1) * pow2 (j - 52) <= inject_Z z * pow2 (j - 52))
      by (apply Qmult_le_compat_r; lra). lra. }
  rewrite <- Zlt_Qlt in H1, H2. lia.
Qed.

Lemma Z2SF_value (z : Z) : SF2Q (Z2SF z) == inject_Z z.
Proof.
  destruct z as [|p|p]; cbn [Z2SF SF2Q].
  - reflexivity.
  - change (pow2 0) with 1. ring.
  - change (pow2 0) with 1. change (Zneg p) with (- Zpos p)%Z. rewrite inject_Z_opp. ring.
Qed.

Lemma Z2SF_is_finite (z : Z) : is_finite (Z2SF z).
Proof. destruct z; exact I. Qed.

Lemma hundred_facts :
  finite64 hundred /\ full_mantissa hundred /\ SF2Q hundred == 100.
Proof. repeat split; vm_compute; congruence. Qed.

Lemma quotient_rounds (likes plays : Z) :
  (0 < plays)%Z ->
  Qabs (inject_Z likes / inject_Z plays) <= 1000000000000000000000 ->
  rounds_to (div64 (Z2SF likes) (Z2SF plays)) (inject_Z likes / inject_Z plays).
Proof.
  intros Hp Hb.
  assert (E : SF2Q (Z2SF likes) / SF2Q (Z2SF plays) == inject_Z likes / inject_Z plays)
    by now rewrite !Z2SF_value.
  eapply rounds_to_wd; [exact E|].
  apply SFdiv_rounds.
  - apply Z2SF_is_finite.
  - destruct plays as [|q|q]; try lia. now exists false, q, 0%Z.
  - apply below_overflow. now rewrite E.
Qed.

Lemma percentage_range (likes plays : Z) :
  (0 < plays)%Z -> (0 <= likes <= plays)%Z ->
  finite64 (percentage likes plays) /\ 0 <= SF2Q (percentage likes plays) <= 100.
Proof.
  intros Hp Hl. unfold percentage.
  destruct hundred_facts as (Hh1 & Hh2 & Hh3).
  pose proof eta_tiny as Heta. pose proof eta_pos as Heta0.
  assert (Hpl : 0 < inject_Z plays) by (change 0 with (inject_Z 0); now rewrite <- Zlt_Qlt).
  assert (Hlk : 0 <= inject_Z likes) by (change 0 with (inject_Z 0); rewrite <- Zle_Qle; lia).
  assert (Hle : inject_Z likes <= inject_Z plays) by (rewrite <- Zle_Qle; lia).
  set (X := inject_Z likes / inject_Z plays).
  assert (HX : 0 <= X <= 1).
  { unfold X. split.
    - apply Qle_shift_div_l; [exact Hpl | lra].
    - apply Qle_shift_div_r; [exact Hpl | lra]. }
  assert (Rq : rounds_to (div64 (Z2SF likes) (Z2SF plays)) X).
  { apply quotient_rounds; [exact Hp|]. fold X. apply Qabs_Qle_condition. qlra. }
  destruct (rounds_to_abs _ _ 1 Rq) as (Fq & Eq1 & Eq2); [apply Qabs_Qle_condition; qlra|].
  destruct Rq as (_ & _ & Rq0 & _). specialize (Rq0 (proj1 HX)).
  assert (Hq1 : SF2Q (div64 (Z2SF likes) (Z2SF plays)) <= 1).
  { pose proof (no_double_just_above (div64 (Z2SF likes) (Z2SF plays)) 0 (2 ^ 52) Fq) as H.
    assert (E1 : inject_Z (2 ^ 52) * pow2 (0 - 52) == 1) by reflexivity.
    assert (E2 : inject_Z (2 ^ 52 + 1) * pow2 (0 - 52) == 1 + (1 # 4503599627370496))
      by reflexivity.
    rewrite E1, E2 in H. change (pow2 0) with 1 in H.
    apply H; [lra|]. unfold eps in *. qlra. }
  set (Q1 := SF2Q (div64 (Z2SF likes) (Z2SF plays))) in *.
  assert (Rm : rounds_to (mul64 (div64 (Z2SF likes) (Z2SF plays)) hundred) (Q1 * SF2Q hundred)).
  { apply SFmul_rounds; try assumption. apply below_overflow. fold Q1. rewrite Hh3.
    apply Qabs_Qle_condition. qlra. }
  destruct (rounds_to_abs _ _ 100 Rm) as (Fm & Em1 & Em2);
    [rewrite Hh3; apply Qabs_Qle_condition; qlra|].
  destruct Rm as (_ & _ & Rm0 & _).
  assert (Hv0 : 0 <= Q1 * SF2Q hundred) by (rewrite Hh3; qlra).
  specialize (Rm0 Hv0). rewrite Hh3 in Em1, Em2.
  split; [exact Fm|]. split; [exact Rm0|].
  pose proof (no_double_just_above (mul64 (div64 (Z2SF likes) (Z2SF plays)) hundred)
                6 (100 * 2 ^ 46) Fm) as H.
  assert (E1 : inject_Z (100 * 2 ^ 46) * pow2 (6 - 52) == 100) by reflexivity.
  assert (E2 : inject_Z (100 * 2 ^ 46 + 1) * pow2 (6 - 52) == 100 + (1 # 70368744177664))
    by reflexivity.
  assert (E3 : pow2 6 == 64) by reflexivity.
  rewrite E1, E2, E3 in H.
  apply H; [lra|]. unfold eps in *. qlra.
Qed.

Lemma percentage_error (likes plays : Z) :
  (0 < plays)%Z -> (Z.abs likes <= 1000 * plays)%Z ->
  finite64 (percentage likes plays) /\
  Qabs (SF2Q (percentage likes plays) - inject_Z likes / inject_Z plays * 100) <= slack.
Proof.
  intros Hp Hl. unfold percentage.
  destruct hundred_facts as (Hh1 & Hh2 & Hh3).
  pose proof eta_tiny as Heta. pose proof eta_pos as Heta0.
  assert (Hpl : 0 < inject_Z plays) by (change 0 with (inject_Z 0); now rewrite <- Zlt_Qlt).
  assert (Hlk : - (1000 * inject_Z plays) <= inject_Z likes <= 1000 * inject_Z plays).
  { change 1000 with (inject_Z 1000). rewrite <- inject_Z_mult, <- inject_Z_opp, <- !Zle_Qle. lia. }
  set (X := inject_Z likes / inject_Z plays).
  assert (HX : - (1000) <= X <= 1000).
  { unfold X. split.
    - apply Qle_shift_div_l; [exact Hpl | lra].
    - apply Qle_shift_div_r; [exact Hpl | lra]. }
  assert (Rq : rounds_to (div64 (Z2SF likes) (Z2SF plays)) X).
  { apply quotient_rounds; [exact Hp|]. fold X. apply Qabs_Qle_condition. qlra. }
  destruct (rounds_to_abs _ _ 1000 Rq) as (Fq & Eq1 & Eq2); [apply Qabs_Qle_condition; qlra|].
  set (Q1 := SF2Q (div64 (Z2SF likes) (Z2SF plays))) in *.
  assert (Rm : rounds_to (mul64 (div64 (Z2SF likes) (Z2SF plays)) hundred) (Q1 * SF2Q hundred)).
  { apply SFmul_rounds; try assumption. apply below_overflow. fold Q1. rewrite Hh3.
    apply Qabs_Qle_condition. qlra. }
  destruct (rounds_to_abs _ _ 200000 Rm) as (Fm & Em1 & Em2);
    [rewrite Hh3; apply Qabs_Qle_condition; qlra|].
  rewrite Hh3 in Em1, Em2.
  split; [exact Fm|]. unfold slack. apply Qabs_Qle_condition. qlra.
Qed.

(** What the code computes: the ratio of the [statistics] fields alone,
    on doubles, guarded by [statistics.play_count > 0]. *)
Lemma extractEngagement_statistics (item : Raw.t) (st : Raw.Statistics) (v : Z) :
  Raw.statistics item = Some st ->
  Raw.play_count st = Some v ->
  (0 < v)%Z ->
  extractEngagement item
  = EngFixed (toFixed (percentage (int_or (Raw.digg_count st) 0) v) 2).
Proof.
  intros Hst Hv Hpos. unfold extractEngagement.
  rewrite Hst. cbn [opt_get]. rewrite Hv.
  assert (E : (0 <? v)%Z = true) by now apply Z.ltb_lt.
  rewrite E. reflexivity.
Qed.

Lemma extractEngagement_no_division_by_zero (item : Raw.t) :
  (forall z, opt_get (Raw.statistics item) Raw.play_count = Some z -> (z <= 0)%Z) ->
  extractEngagement item = EngZero.
Proof.
  intros H. unfold extractEngagement.
  destruct (opt_get (Raw.statistics item) Raw.play_count) as [z|]; [|reflexivity].
  specialize (H z eq_refl).
  assert (E : (0 <? z)%Z = false) by (apply Z.ltb_ge; exact H).
  now rewrite E.
Qed.

Lemma engagement_near (likes plays : Z) :
  (0 < plays)%Z -> (Z.abs likes <= 1000 * plays)%Z ->
  engagement_within (EngFixed (toFixed (percentage likes plays) 2))
    (inject_Z likes / inject_Z plays * 100) ((1 # 200) + slack).
Proof.
  intros Hp Hl. destruct (percentage_error likes plays Hp Hl) as [Hf He].
  eexists. split; [reflexivity|].
  exact (toFixed_near _ _ _ 2 Hf He two_places).
Qed.

(** C7 (amended): the engagement is computed from the item's [statistics]
    alone, in binary64.  Whenever statistics.play_count is positive (and
    the likes are at most 1000 times the plays) it is a string of 2
    decimals within 0.005 + 1e-9 of (statistics.digg_count or 0) /
    statistics.play_count * 100, which is the Product's likes / views * 100
    whenever the likes come from statistics as well; the last digit is not
    always that of the rounded percentage (23 likes for 160 plays read
    14.37).  It is the number 0 whenever statistics.play_count is absent,
    zero or negative, whatever [rate_info] holds, hence whenever the
    Product's views are 0; no division by zero takes place. *)
Theorem normalizeItem_engagement
    (c : Category) (item : Raw.t) (st : Raw.Statistics) (v : Z) :
  Raw.statistics item = Some st ->
  Raw.play_count st = Some v ->
  (0 < v)%Z ->
  (Z.abs (int_or (Raw.digg_count st) 0) <= 1000 * v)%Z ->
  views (normalizeItem c item) = v /\
  engagement_within (engagement (normalizeItem c item))
    (inject_Z (int_or (Raw.digg_count st) 0) / inject_Z v * 100)
    ((1 # 200) + slack) /\
  (forall d, Raw.digg_count st = Some d -> d <> 0%Z ->
     likes (normalizeItem c item) = d /\
     engagement_within (engagement (normalizeItem c item))
       (inject_Z (likes (normalizeItem c item))
        / inject_Z (views (normalizeItem c item)) * 100)
       ((1 # 200) + slack)) /\
  (forall c' item',
     (forall z, opt_get (Raw.statistics item') Raw.play_count = Some z -> (z <= 0)%Z) ->
     engagement (normalizeItem c' item') = EngZero) /\
  (forall c' item',
     views (normalizeItem c' item') = 0%Z ->
     engagement (normalizeItem c' item') = EngZero) /\
  engagement (normalizeItem HomeDecor tie_item) = EngFixed (FixDec false 1437 2) /\
  rounded_engagement 23 160 = EngFixed (FixDec false 1438 2).
Proof.
  intros Hst Hv Hpos Hbound.
  assert (Hviews : views (normalizeItem c item) = v).
  { cbn [normalizeItem views]. rewrite Hst. cbn [opt_get]. rewrite Hv.
    cbn [int_or]. destruct (Z.eqb_spec v 0); [lia | reflexivity]. }
  assert (Heng : engagement_within (engagement (normalizeItem c item))
                   (inject_Z (int_or (Raw.digg_count st) 0) / inject_Z v * 100)
                   ((1 # 200) + slack)).
  { cbn [normalizeItem engagement].
    rewrite (extractEngagement_statistics item st v Hst Hv Hpos).
    now apply engagement_near. }
  split; [exact Hviews|]. split; [exact Heng|]. split; [|split; [|split]].
  - intros d Hd Hd0.
    assert (Hlikes : likes (normalizeItem c item) = d).
    { cbn [normalizeItem likes]. rewrite Hst. cbn [opt_get]. rewrite Hd.
      cbn [int_or]. destruct (Z.eqb_spec d 0); [contradiction | reflexivity]. }
    split; [exact Hlikes|].
    rewrite Hviews, Hlikes. rewrite Hd in Heng. cbn [int_or] in Heng.
    destruct (Z.eqb_spec d 0); [contradiction | exact Heng].
  - intros c' item' H. cbn [normalizeItem engagement].
    now apply extractEngagement_no_division_by_zero.
  - intros c' item' H. cbn [normalizeItem engagement].
    apply extractEngagement_no_division_by_zero. intros z Hz.
    cbn [normalizeItem views] in H. rewrite Hz in H. cbn [int_or] in H.
    destruct (Z.eqb_spec z 0); [lia | lia].
  - split; vm_compute; reflexivity.
Qed.

Lemma normalizeItem_engagement_witness :
  views (normalizeItem HomeDecor played_item) = 2000%Z /\
  likes (normalizeItem HomeDecor played_item) = 150%Z /\
  engagement_within (engagement (normalizeItem HomeDecor played_item))
    (inject_Z 150 / inject_Z 2000 * 100) ((1 # 200) + slack) /\
  engagement (normalizeItem HomeDecor unplayed_item) = EngZero /\
  views (normalizeItem HomeDecor unplayed_item) = 1000%Z.
Proof.
  destruct (normalizeItem_engagement HomeDecor played_item
              {| Raw.play_count := Some 2000%Z; Raw.digg_count := Some 150%Z |}
              2000%Z eq_refl eq_refl eq_refl) as (Hv & _ & Hd & Hz & _).
  { vm_compute. discriminate. }
  destruct (Hd 150%Z eq_refl) as [Hl He]; [discriminate|].
  split; [exact Hv|]. split; [exact Hl|].
  split; [rewrite Hl, Hv in He; exact He|].
  split; [|reflexivity].
  apply Hz. intros z Hz'. cbn in Hz'. injection Hz' as <-. lia.
Defined.

(** C7 fails at an item whose views and likes come from [rate_info]: the
    Product has views 1000 and likes 50, so the engagement claimed is
    "5.00", and the code's engagement is 0. *)
Lemma normalizeItem_engagement_ignores_rate_info :
  views (normalizeItem HomeDecor rated_item) = 1000%Z /\
  likes (normalizeItem HomeDecor rated_item) = 50%Z /\
  rounded_engagement 50 1000 = EngFixed (FixDec false 500 2) /\
  engagement (normalizeItem HomeDecor rated_item) = EngZero /\
  ~ engagement_as_specified (normalizeItem HomeDecor rated_item).
Proof.
  repeat split; try reflexivity.
  intros [H _]. specialize (H eq_refl). cbn in H. discriminate.
Qed.

(** ** encodeURIComponent and the sourcing catalog *)

Lemma encodeURIComponent_cons (u : unit16) (r : text) :
  is_high_surrogate (unit_code u) = false ->
  is_low_surrogate (unit_code u) = false ->
  exists piece,
    encodeURIComponent (u :: r) = option_map (append piece) (encodeURIComponent r).
Proof.
  intros Hh Hl. cbn [encodeURIComponent]. rewrite Hh, Hl.
  destruct (is_unreserved16 u).
  - destruct u as [h l]. now exists (String l EmptyString).
  - now exists (escape (unit_code u)).
Qed.

Lemma unreserved_not_surrogate (u : unit16) :
  is_unreserved16 u = true ->
  is_high_surrogate (unit_code u) = false /\ is_low_surrogate (unit_code u) = false.
Proof.
  destruct u as [h l]. cbn [is_unreserved16]. intros H.
  apply andb_true_iff in H. destruct H as [H _]. apply Ascii.eqb_eq in H. subst h.
  unfold is_high_surrogate, is_low_surrogate, unit_code.
  assert (B : (N_of_ascii l < 256)%N) by apply N_ascii_bounded.
  change (N_of_ascii zero) with 0%N.
  split; apply andb_false_iff; left; apply N.leb_gt; lia.
Qed.

(** [encodeURIComponent] returns exactly on the well-formed texts. *)
Lemma encodeURIComponent_well_formed_upto (n : nat) (t : text) :
  (List.length t <= n)%nat ->
  (well_formed t = true -> exists s, encodeURIComponent t = Some s) /\
  (well_formed t = false -> encodeURIComponent t = None).
Proof.
  revert t. induction n as [|n IH]; intros t Hlen.
  - destruct t; [|cbn in Hlen; lia]. split; [now exists EmptyString | discriminate].
  - destruct t as [|u r]; [split; [now exists EmptyString | discriminate]|].
    cbn [List.length] in Hlen.
    cbn [well_formed encodeURIComponent].
    destruct (is_unreserved16 u) eqn:Eu.
    + destruct (unreserved_not_surrogate u Eu) as [Hh Hl]. rewrite Hh, Hl. cbn [negb andb].
      destruct (IH r ltac:(lia)) as [IH1 IH2]. destruct u as [h l]. split.
      * intros H. destruct (IH1 H) as [s ->]. now eexists.
      * intros H. now rewrite (IH2 H).
    + destruct (is_high_surrogate (unit_code u)).
      * destruct r as [|v r']; [split; [discriminate | reflexivity]|].
        cbn [List.length] in Hlen.
        destruct (is_low_surrogate (unit_code v)); [|split; [discriminate | reflexivity]].
        cbn [andb]. destruct (IH r' ltac:(lia)) as [IH1 IH2]. split.
        -- intros H. destruct (IH1 H) as [s ->]. now eexists.
        -- intros H. now rewrite (IH2 H).
      * destruct (is_low_surrogate (unit_code u)); [split; [discriminate | reflexivity]|].
        cbn [negb andb]. destruct (IH r ltac:(lia)) as [IH1 IH2]. split.
        -- intros H. destruct (IH1 H) as [s ->]. now eexists.
        -- intros H. now rewrite (IH2 H).
Qed.

Lemma encodeURIComponent_well_formed (t : text) :
  well_formed t = true -> exists s, encodeURIComponent t = Some s.
Proof. apply (encodeURIComponent_well_formed_upto (List.length t) t (le_n _)). Qed.

Lemma encodeURIComponent_ill_formed (t : text) :
  well_formed t = false -> encodeURIComponent t = None.
Proof. apply (encodeURIComponent_well_formed_upto (List.length t) t (le_n _)). Qed.

Lemma getSourcingRecommendations_encoded (productName : text) :
  getSourcingRecommendations productName
  = option_map sourcing_for (encodeURIComponent productName).
Proof.
  unfold getSourcingRecommendations, and_then.
  destruct (encodeURIComponent productName); reflexivity.
Qed.

(** ** The analyze-product route *)

(** C10 (amended): the analyze-product route answers "Invalid product data"
    whenever the product is absent or its price is absent, a zero or NaN;
    for every product with a truthy price and a title without unpaired
    surrogate it answers success with exactly calculateMargins(price) and
    the three-entry sourcing catalog (AliExpress, CJ Dropshipping, Spocket)
    for the encoded title; for a truthy price and a title with an unpaired
    surrogate [encodeURIComponent] throws and the route answers
    success = false with the message "URI malformed". *)
Theorem analyzeProduct_spec (request : option ProductRequest) :
  ((request = None \/ exists p, request = Some p /\ price_falsy p) ->
   analyzeProduct request = AnalyzeFailure "Invalid product data") /\
  (forall p x,
     request = Some p -> req_price p = Some x -> double_truthy x = true ->
     well_formed (title_text (req_title p)) = true ->
     exists name,
       encodeURIComponent (title_text (req_title p)) = Some name /\
       getSourcingRecommendations (title_text (req_title p)) = Some (sourcing_for name) /\
       analyzeProduct request = AnalyzeSuccess (calculateMargins x) (sourcing_for name) /\
       map supplier (sourcing_for name) = ["AliExpress"; "CJ Dropshipping"; "Spocket"]) /\
  (forall p x,
     request = Some p -> req_price p = Some x -> double_truthy x = true ->
     well_formed (title_text (req_title p)) = false ->
     analyzeProduct request = AnalyzeFailure "URI malformed").
Proof.
  split; [|split].
  - intros [-> | (p & -> & Hp)]; [reflexivity|].
    unfold analyzeProduct, price_falsy in *.
    destruct (req_price p) as [x|]; [|reflexivity]. now rewrite Hp.
  - intros p x -> Hx Ht Hwf.
    destruct (encodeURIComponent_well_formed _ Hwf) as [name Hname].
    exists name. split; [exact Hname|].
    assert (Hs : getSourcingRecommendations (title_text (req_title p))
                 = Some (sourcing_for name)).
    { rewrite getSourcingRecommendations_encoded, Hname. reflexivity. }
    split; [exact Hs|]. split; [|reflexivity].
    unfold analyzeProduct. rewrite Hx, Ht. cbn zeta. now rewrite Hs.
  - intros p x -> Hx Ht Hwf.
    unfold analyzeProduct. rewrite Hx, Ht. cbn zeta.
    rewrite getSourcingRecommendations_encoded.
    now rewrite (encodeURIComponent_ill_formed _ Hwf).
Qed.

Lemma analyzeProduct_spec_witness :
  analyzeProduct None = AnalyzeFailure "Invalid product data" /\
  analyzeProduct (Some (lamp_request price_zero))
  = AnalyzeFailure "Invalid product data" /\
  (exists name,
     encodeURIComponent (text_of_string "Desk Lamp") = Some name /\
     analyzeProduct (Some (lamp_request price_100))
     = AnalyzeSuccess (calculateMargins price_100) (sourcing_for name)) /\
  analyzeProduct (Some surrogate_request) = AnalyzeFailure "URI malformed".
Proof.
  split; [apply (proj1 (analyzeProduct_spec None)); now left|].
  split; [|split].
  - apply (proj1 (analyzeProduct_spec (Some (lamp_request price_zero)))).
    right. eexists. split; [reflexivity | reflexivity].
  - destruct (proj1 (proj2 (analyzeProduct_spec (Some (lamp_request price_100))))
                (lamp_request price_100) price_100 eq_refl eq_refl eq_refl eq_refl)
      as (name & Hn & _ & Ha & _).
    exists name. split; [exact Hn | exact Ha].
  - apply (proj2 (proj2 (analyzeProduct_spec (Some surrogate_request)))
             surrogate_request (double_of_Q 10)); reflexivity.
Defined.

(** C10 fails at a truthy price when the title holds an unpaired surrogate:
    the answer is not a success but the failure "URI malformed". *)
Lemma analyzeProduct_unpaired_surrogate :
  double_truthy (double_of_Q 10) = true /\
  req_price surrogate_request = Some (double_of_Q 10) /\
  well_formed (title_text (req_title surrogate_request)) = false /\
  analyzeProduct (Some surrogate_request) = AnalyzeFailure "URI malformed".
Proof. repeat split. Qed.

(** ** Niche aggregator *)

Lemma Category_eqb_eq (a b : Category) : Category_eqb a b = true <-> a = b.
Proof.
  unfold Category_eqb. destruct (Category_eq_dec a b); split; congruence.
Qed.

Lemma Category_eqb_sym (a b : Category) : Category_eqb a b = Category_eqb b a.
Proof.
  unfold Category_eqb.
  destruct (Category_eq_dec a b), (Category_eq_dec b a); congruence.
Qed.

Lemma existsb_Category_In (c : Category) (cs : list Category) :
  existsb (fun c' => Category_eqb c' c) cs = true <-> In c cs.
Proof.
  rewrite existsb_exists. split.
  - intros (x & Hx & E). apply Category_eqb_eq in E. now subst.
  - intros H. exists c. split; [exact H | now apply Category_eqb_eq].
Qed.

Lemma Qsum_snoc (l : list Q) (x : Q) : Qsum (l ++ [x]) = Qsum l + x.
Proof. unfold Qsum. now rewrite fold_left_app. Qed.

Lemma Zsum_app (l l' : list Z) : Zsum (l ++ l') = (Zsum l + Zsum l')%Z.
Proof.
  unfold Zsum. induction l as [|x r IH]; cbn [app fold_right]; [reflexivity|].
  rewrite IH. ring.
Qed.

Lemma Zsum_perm (l l' : list Z) : Permutation l l' -> Zsum l = Zsum l'.
Proof.
  unfold Zsum. induction 1; cbn [fold_right]; try congruence; ring.
Qed.

(** Visiting one more product bumps its category's entry and no other. *)
Lemma niche_totals_snoc (seen : list ScoredProduct) (p : ScoredProduct) (c : Category) :
  niche_totals (seen ++ [p]) c
  = if Category_eqb c (sp_category p) then bump p (niche_totals seen c)
    else niche_totals seen c.
Proof.
  unfold niche_totals, members, bump. rewrite filter_app. cbn [filter].
  rewrite (Category_eqb_sym c). cbn [Niche.category Niche.count Niche.avgScore
                                      Niche.totalSales].
  destruct (Category_eqb (sp_category p) c).
  - rewrite length_app, !map_app. cbn [List.length map].
    rewrite Qsum_snoc, Zsum_app. cbn [Zsum fold_right].
    f_equal; lia.
  - now rewrite app_nil_r.
Qed.

Lemma note_category_spec (cs : list Category) (p : ScoredProduct) :
  NoDup cs ->
  NoDup (note_category cs p) /\
  forall c, In c (note_category cs p) <-> In c cs \/ c = sp_category p.
Proof.
  intros Hnd. unfold note_category.
  destruct (existsb _ cs) eqn:E.
  - apply existsb_Category_In in E. split; [exact Hnd|].
    intros c. split; [now left | intros [H | ->]; assumption].
  - assert (Hnot : ~ In (sp_category p) cs).
    { intros H. apply existsb_Category_In in H. congruence. }
    split.
    + apply NoDup_app; [exact Hnd | repeat constructor; intros [] |].
      intros c Hc [<- | []]. contradiction.
    + intros c. rewrite in_app_iff. cbn [In]. intuition congruence.
Qed.

Lemma fold_note_category_spec (ps : list ScoredProduct) :
  forall cs, NoDup cs ->
    NoDup (fold_left note_category ps cs) /\
    forall c, In c (fold_left note_category ps cs)
              <-> In c cs \/ In c (map sp_category ps).
Proof.
  induction ps as [|p r IH]; intros cs Hnd; cbn [fold_left map In].
  - split; [exact Hnd | intros c; tauto].
  - destruct (note_category_spec cs p Hnd) as [Hnd' Hin'].
    destruct (IH _ Hnd') as [Hnd'' Hin'']. split; [exact Hnd''|].
    intros c. rewrite Hin'', Hin'. intuition congruence.
Qed.

Lemma distinct_categories_NoDup (ps : list ScoredProduct) :
  NoDup (distinct_categories ps).
Proof. apply fold_note_category_spec. constructor. Qed.

Lemma distinct_categories_In (ps : list ScoredProduct) (c : Category) :
  In c (distinct_categories ps) <-> In c (map sp_category ps).
Proof.
  unfold distinct_categories.
  destruct (fold_note_category_spec ps [] (NoDup_nil _)) as [_ H].
  rewrite H. cbn [In]. tauto.
Qed.

Lemma members_nil_iff (c : Category) (ps : list ScoredProduct) :
  members c ps = [] <-> ~ In c (map sp_category ps).
Proof.
  unfold members. induction ps as [|p r IH]; cbn [filter map In].
  - tauto.
  - destruct (Category_eqb (sp_category p) c) eqn:E.
    + apply Category_eqb_eq in E. split; [discriminate | intros H; exfalso; auto].
    + assert (sp_category p <> c).
      { intros H. apply Category_eqb_eq in H. congruence. }
      rewrite IH. tauto.
Qed.

Lemma has_niche_totals (seen : list ScoredProduct) (cs : list Category) (c : Category) :
  has_niche c (map (niche_totals seen) cs)
  = existsb (fun c' => Category_eqb c' c) cs.
Proof.
  unfold has_niche. induction cs as [|x r IH]; cbn [map existsb]; [reflexivity|].
  now rewrite IH.
Qed.

Lemma bump_totals (seen : list ScoredProduct) (p : ScoredProduct) (cs : list Category) :
  map (fun n => if Category_eqb (Niche.category n) (sp_category p)
                then bump p n else n)
      (map (niche_totals seen) cs)
  = map (niche_totals (seen ++ [p])) cs.
Proof.
  rewrite map_map. apply map_ext. intros c.
  rewrite niche_totals_snoc. reflexivity.
Qed.

(** One turn of the loop takes the totals of the products seen so far to
    the totals with one more product seen. *)
Lemma niche_step_totals (seen : list ScoredProduct) (p : ScoredProduct) :
  niche_step (map (niche_totals seen) (distinct_categories seen)) p
  = map (niche_totals (seen ++ [p])) (distinct_categories (seen ++ [p])).
Proof.
  unfold distinct_categories at 2. rewrite fold_left_app. cbn [fold_left].
  fold (distinct_categories seen).
  unfold niche_step, note_category. rewrite has_niche_totals.
  destruct (existsb _ (distinct_categories seen)) eqn:E.
  - apply bump_totals.
  - assert (Hnone : members (sp_category p) seen = []).
    { apply members_nil_iff. intros H. apply distinct_categories_In in H.
      apply existsb_Category_In in H. congruence. }
    replace {| Niche.category := sp_category p; Niche.count := 0;
               Niche.avgScore := 0; Niche.totalSales := 0 |}
      with (niche_totals seen (sp_category p))
      by (unfold niche_totals; rewrite Hnone; reflexivity).
    change [niche_totals seen (sp_category p)]
      with (map (niche_totals seen) [sp_category p]).
    rewrite <- map_app. apply bump_totals.
Qed.

Lemma fold_niche_step (ps : list ScoredProduct) :
  forall seen,
    fold_left niche_step ps (map (niche_totals seen) (distinct_categories seen))
    = map (niche_totals (seen ++ ps)) (distinct_categories (seen ++ ps)).
Proof.
  induction ps as [|p r IH]; intros seen; cbn [fold_left].
  - now rewrite app_nil_r.
  - rewrite niche_step_totals, IH, <- app_assoc. reflexivity.
Qed.

(** After the loop [niches] holds the totals of each distinct category, in
    order of first appearance. *)
Lemma niches_after_loop (ps : list ScoredProduct) :
  fold_left niche_step ps [] = map (niche_totals ps) (distinct_categories ps).
Proof. exact (fold_niche_step ps []). Qed.

Lemma Zsum_map_add {A : Type} (f h : A -> Z) (l : list A) :
  Zsum (map (fun a => (f a + h a)%Z) l) = (Zsum (map f l) + Zsum (map h l))%Z.
Proof.
  unfold Zsum. induction l as [|a r IH]; cbn [map fold_right]; [reflexivity|].
  rewrite IH. ring.
Qed.

Lemma indicator_sum_absent (c0 : Category) (cs : list Category) :
  ~ In c0 cs ->
  Zsum (map (fun c => if Category_eqb c0 c then 1%Z else 0%Z) cs) = 0%Z.
Proof.
  unfold Zsum. induction cs as [|c r IH]; cbn [map fold_right In]; intros H.
  - reflexivity.
  - destruct (Category_eqb c0 c) eqn:E.
    + apply Category_eqb_eq in E. exfalso. apply H. now left.
    + rewrite IH; [reflexivity | tauto].
Qed.

Lemma indicator_sum_present (c0 : Category) (cs : list Category) :
  NoDup cs -> In c0 cs ->
  Zsum (map (fun c => if Category_eqb c0 c then 1%Z else 0%Z) cs) = 1%Z.
Proof.
  induction 1 as [|c r Hc Hnd IH]; cbn [map In]; intros Hin; [contradiction|].
  change (Zsum (?x :: ?l)) with (x + Zsum l)%Z.
  destruct (Category_eqb c0 c) eqn:E.
  - apply Category_eqb_eq in E. subst c.
    rewrite (indicator_sum_absent c0 r Hc). reflexivity.
  - destruct Hin as [-> | Hin].
    + assert (Category_eqb c0 c0 = true) by now apply Category_eqb_eq.
      congruence.
    + rewrite (IH Hin). reflexivity.
Qed.

(** Each product is a member of exactly one of the distinct categories. *)
Lemma member_counts_sum (cs : list Category) (ps : list ScoredProduct) :
  NoDup cs ->
  (forall p, In p ps -> In (sp_category p) cs) ->
  Zsum (map (fun c => Z.of_nat (List.length (members c ps))) cs)
  = Z.of_nat (List.length ps).
Proof.
  intros Hnd. induction ps as [|p r IH]; intros Hin.
  - cbn [members filter List.length Z.of_nat].
    clear. unfold Zsum. induction cs; cbn [map fold_right]; [reflexivity|].
    now rewrite IHcs.
  - rewrite (map_ext _ (fun c => ((if Category_eqb (sp_category p) c then 1 else 0)
                                   + Z.of_nat (List.length (members c r)))%Z)).
    + rewrite Zsum_map_add, IH by (intros q Hq; apply Hin; now right).
      rewrite indicator_sum_present; [|exact Hnd | apply Hin; now left].
      cbn [List.length]. lia.
    + intros c. unfold members. cbn [filter].
      destruct (Category_eqb (sp_category p) c); cbn [List.length]; lia.
Qed.





(* ================================================================== *)
(** * Part III: further properties of the pipeline and the other routes *)
(* ================================================================== *)

(** ** Language filter *)

Lemma is_letter16_not_space (u : unit16) : is_letter16 u = true -> is_space16 u = false.
Proof.
  destruct u as [h l]. unfold is_letter16, is_space16, unit_code. intros H.
  apply andb_true_iff in H. destruct H as [Hh H]. apply Ascii.eqb_eq in Hh. subst h.
  change (N_of_ascii zero) with 0%N.
  unfold is_letter, code, nat_of_ascii in H. set (x := N_of_ascii l) in *.
  apply orb_true_iff in H. rewrite !andb_true_iff, !Nat.leb_le in H.
  repeat (apply orb_false_iff; split);
    try (apply N.eqb_neq; lia);
    apply andb_false_iff.
  - destruct (N.leb_spec (256 * 0 + x) 13); [left | now right]. apply N.leb_gt. lia.
  - left. apply N.leb_gt. lia.
Qed.

Lemma isEnglish_counts (t : text) :
  isEnglish t
  = ((0 <? List.length (filter (fun u => negb (is_space16 u)) t))
     && (List.length (filter (fun u => negb (is_space16 u)) t)
         <=? 2 * List.length (filter is_letter16 t)))%nat.
Proof. destruct t; reflexivity. Qed.

Lemma filter_idem {A : Type} (keep : A -> bool) (l : list A) :
  filter keep (filter keep l) = filter keep l.
Proof.
  induction l as [|c r IH]; cbn [filter]; [reflexivity|].
  destruct (keep c) eqn:E; cbn [filter]; [rewrite E, IH|]; auto.
Qed.

Lemma filter_within {A : Type} (p keep : A -> bool) (l : list A) :
  (forall c, p c = true -> keep c = true) ->
  filter p (filter keep l) = filter p l.
Proof.
  intros H. induction l as [|c r IH]; cbn [filter]; [reflexivity|].
  destruct (keep c) eqn:E; cbn [filter]; rewrite IH; [reflexivity|].
  destruct (p c) eqn:Ep; [|reflexivity]. apply H in Ep. congruence.
Qed.

(** X1: white space never weighs in the classification: a text and the same
    text with all its blanks removed are classified alike. *)
Theorem isEnglish_ignores_white_space (t : text) :
  isEnglish (filter (fun u => negb (is_space16 u)) t) = isEnglish t.
Proof.
  rewrite !isEnglish_counts, filter_idem.
  rewrite filter_within; [reflexivity|].
  intros c Hc. now rewrite (is_letter16_not_space c Hc).
Qed.

(** X2: a text without any ASCII letter (digits, punctuation, another
    script) is never classified English, and a text that has a letter and
    whose non-blank characters are all ASCII letters always is. *)
Theorem isEnglish_letters (t : text) :
  (List.length (filter is_letter16 t) = 0%nat -> isEnglish t = false) /\
  (0 < List.length (filter is_letter16 t) ->
   List.length (filter (fun u => negb (is_space16 u)) t)
   = List.length (filter is_letter16 t) ->
   isEnglish t = true)%nat.
Proof.
  rewrite isEnglish_counts. split.
  - intros H. rewrite H. apply andb_false_iff.
    destruct (List.length (filter (fun u => negb (is_space16 u)) t)) eqn:E;
      [now left | now right].
  - intros Hpos H. rewrite H. apply andb_true_iff. split.
    + now apply Nat.ltb_lt.
    + apply Nat.leb_le. lia.
Qed.

Lemma isEnglish_letters_witness :
  List.length (filter is_letter16 (text_of_string "12345 67")) = 0%nat /\
  isEnglish (text_of_string "12345 67") = false /\
  isEnglish (text_of_string "Desk Lamp") = true.
Proof.
  split; [reflexivity|]. split.
  - apply (proj1 (isEnglish_letters (text_of_string "12345 67"))). reflexivity.
  - apply (proj2 (isEnglish_letters (text_of_string "Desk Lamp")));
      [apply Nat.ltb_lt|]; reflexivity.
Defined.

(** ** Pooling the categories *)

Lemma flat_map_length_le {A B : Type} (f : A -> list B) (k : nat) (l : list A) :
  (forall a, List.length (f a) <= k)%nat ->
  (List.length (flat_map f l) <= k * List.length l)%nat.
Proof.
  intros H. induction l as [|a r IH]; cbn [flat_map List.length]; [lia|].
  rewrite length_app. specialize (H a). lia.
Qed.

Lemma filter_length_le {A : Type} (f : A -> bool) (l : list A) :
  (List.length (filter f l) <= List.length l)%nat.
Proof.
  induction l as [|a r IH]; cbn [filter List.length]; [lia|].
  destruct (f a); cbn [List.length]; lia.
Qed.

(** X3: every pooled product is the normalisation of one of the first 8
    items its category's query returned, carries that category, a selected
    one, and has an English title; so the pool never holds more than 8
    products per selected category. *)
Theorem collectProducts_pool
    (scrapecreators : Category -> Upstream) (selectedCategories : list Category) :
  (forall p, In p (collectProducts scrapecreators selectedCategories) ->
     In (category p) selectedCategories /\
     isEnglish (title p) = true /\
     exists items item,
       scrapecreators (category p) = UpstreamReturned items /\
       In item (firstn 8 items) /\
       p = normalizeItem (category p) item) /\
  (List.length (collectProducts scrapecreators selectedCategories)
   <= 8 * List.length selectedCategories)%nat.
Proof.
  unfold collectProducts. split.
  - intros p Hp. apply in_flat_map in Hp. destruct Hp as (c & Hc & Hp).
    destruct (scrapecreators c) as [msg|items] eqn:E; [contradiction|].
    apply filter_In in Hp. destruct Hp as [Hp Heng].
    apply in_map_iff in Hp. destruct Hp as (item & <- & Hitem).
    cbn [normalizeItem category]. split; [exact Hc|]. split; [exact Heng|].
    exists items, item. rewrite E. auto.
  - apply flat_map_length_le. intros c.
    destruct (scrapecreators c) as [msg|items]; cbn [List.length]; [lia|].
    eapply Nat.le_trans; [apply filter_length_le|].
    rewrite length_map. apply firstn_le_length.
Qed.

(** X4: a category whose query fails contributes nothing and leaves the
    contributions of the others as they are: the pool is the pool of the
    categories whose query came back. *)
Theorem collectProducts_partial_failure
    (scrapecreators : Category -> Upstream) (selectedCategories : list Category) :
  collectProducts scrapecreators selectedCategories
  = collectProducts scrapecreators
      (filter (upstream_returned scrapecreators) selectedCategories).
Proof.
  unfold collectProducts, upstream_returned.
  induction selectedCategories as [|c r IH]; cbn [flat_map filter]; [reflexivity|].
  destruct (scrapecreators c) as [msg|items] eqn:E.
  - exact IH.
  - cbn [flat_map]. rewrite E, IH. reflexivity.
Qed.

(** ** Candidate selector: which products are kept *)

Lemma StronglySorted_app_order {A : Type} (R : A -> A -> Prop) (a b : list A) :
  StronglySorted R (a ++ b) -> forall x y, In x a -> In y b -> R x y.
Proof.
  induction a as [|h t IH]; intros Hs x y Hx Hy; [contradiction|].
  cbn [app] in Hs. inversion Hs as [|? ? Ht Hh]; subst.
  destruct Hx as [<- | Hx].
  - rewrite Forall_forall in Hh. apply Hh. apply in_or_app. now right.
  - now apply IH.
Qed.

Lemma by_popularity_sorted (l : list Product) :
  StronglySorted (fun a b => (popularity b <= popularity a)%Z)
                 (Array_sort by_popularity l).
Proof.
  eapply StronglySorted_impl;
    [| apply (Array_sort_descending by_popularity
                (fun p => inject_Z (popularity p)) by_popularity_key)].
  intros a b H. unfold descending in H. rewrite Zle_Qle. exact H.
Qed.

(** X5: the selector keeps the most popular candidates.  When at most 20
    pooled products have a price in range all of them are kept; otherwise a
    product with a price in range that is left out is at most as popular as
    every product kept. *)
Theorem validProducts_most_popular (allProducts : list Product) :
  ((List.length (filter price_ok allProducts) <= 20)%nat ->
   Permutation (filter price_ok allProducts) (validProducts allProducts)) /\
  (forall q, In q allProducts -> price_ok q = true ->
     In q (validProducts allProducts) \/
     Forall (fun p => (popularity q <= popularity p)%Z) (validProducts allProducts)).
Proof.
  unfold validProducts.
  set (s := Array_sort by_popularity (filter price_ok allProducts)).
  assert (Hperm : Permutation (filter price_ok allProducts) s)
    by apply Array_sort_perm.
  split.
  - intros Hlen. rewrite firstn_all2; [exact Hperm|].
    now rewrite <- (Permutation_length Hperm).
  - intros q Hq Hok.
    assert (Hin : In q s).
    { apply (Permutation_in _ Hperm). apply filter_In. auto. }
    rewrite <- (firstn_skipn 20 s) in Hin. apply in_app_or in Hin.
    destruct Hin as [Hin | Hin]; [now left | right].
    apply Forall_forall. intros p Hp.
    pose proof (by_popularity_sorted (filter price_ok allProducts)) as Hs.
    fold s in Hs. rewrite <- (firstn_skipn 20 s) in Hs.
    exact (StronglySorted_app_order _ _ _ Hs p q Hp Hin).
Qed.

Lemma validProducts_most_popular_witness :
  (List.length (filter price_ok [desk_lamp]) <= 20)%nat /\
  Permutation (filter price_ok [desk_lamp]) (validProducts [desk_lamp]).
Proof.
  assert (H : (List.length (filter price_ok [desk_lamp]) <= 20)%nat)
    by (apply Nat.leb_le; reflexivity).
  split; [exact H|].
  exact (proj1 (validProducts_most_popular [desk_lamp]) H).
Defined.

Lemma filter_all {A : Type} (f : A -> bool) (l : list A) :
  Forall (fun a => f a = true) l -> filter f l = l.
Proof.
  induction 1 as [|a r Ha _ IH]; cbn [filter]; [reflexivity|].
  now rewrite Ha, IH.
Qed.

Section SortedInput.
Context {A : Type} (comparefn : A -> A -> num) (key : A -> Q).
Hypothesis comparefn_key :
  forall x y, ngt (comparefn x y) (Fin 0) = Qlt_bool (key x) (key y).

(** Sorting a list that is already in descending order changes nothing. *)
Lemma Array_sort_sorted (l : list A) :
  StronglySorted (descending key) l -> Array_sort comparefn l = l.
Proof.
  induction 1 as [|x r Hs IH Hx]; cbn [Array_sort fold_right]; [reflexivity|].
  fold (Array_sort comparefn r). rewrite IH.
  destruct r as [|y t]; cbn [insert_sorted]; [reflexivity|].
  rewrite comparefn_key.
  inversion Hx as [|? ? Hy _]; subst. unfold descending in Hy.
  assert (E : Qlt_bool (key x) (key y) = false) by now apply Qlt_bool_false.
  now rewrite E.
Qed.

(** The sort is stable: elements of one key keep their order. *)
Lemma insert_sorted_stable (P : A -> bool) (x : A) (l : list A) :
  (forall a b, P a = true -> P b = true -> key a == key b) ->
  filter P (insert_sorted comparefn x l) = filter P (x :: l).
Proof.
  intros HP. induction l as [|y r IH]; cbn [insert_sorted]; [reflexivity|].
  rewrite comparefn_key.
  destruct (Qlt_bool (key x) (key y)) eqn:E; [|reflexivity].
  apply Qlt_bool_iff in E.
  cbn [filter] in *. rewrite IH.
  destruct (P x) eqn:Ex, (P y) eqn:Ey; try reflexivity.
  specialize (HP x y Ex Ey). lra.
Qed.

Lemma Array_sort_stable (P : A -> bool) (l : list A) :
  (forall a b, P a = true -> P b = true -> key a == key b) ->
  filter P (Array_sort comparefn l) = filter P l.
Proof.
  intros HP. induction l as [|x r IH]; cbn [Array_sort fold_right]; [reflexivity|].
  fold (Array_sort comparefn r). rewrite insert_sorted_stable by exact HP.
  cbn [filter]. now rewrite IH.
Qed.
End SortedInput.

(** X6: selecting twice is selecting once: the selector's output already
    has every price in range, is in descending order of popularity and has
    at most 20 products, so the selector returns it unchanged. *)
Theorem validProducts_idempotent (allProducts : list Product) :
  validProducts (validProducts allProducts) = validProducts allProducts.
Proof.
  set (v := validProducts allProducts).
  assert (Hok : Forall (fun p => price_ok p = true) v).
  { unfold v, validProducts. apply Forall_firstn.
    apply (Permutation_Forall (Array_sort_perm by_popularity _)).
    apply Forall_forall. intros p Hp. now apply filter_In in Hp. }
  assert (Hs : StronglySorted (descending (fun p => inject_Z (popularity p))) v).
  { unfold v, validProducts. apply StronglySorted_firstn.
    apply (Array_sort_descending by_popularity _ by_popularity_key). }
  assert (Hlen : (List.length v <= 20)%nat).
  { unfold v, validProducts. apply firstn_le_length. }
  unfold validProducts at 1. rewrite (filter_all _ _ Hok).
  rewrite (Array_sort_sorted by_popularity _ by_popularity_key v Hs).
  now apply firstn_all2.
Qed.

(** X7: the ranking is stable: among the products with a price in range,
    those of one popularity come out of the sort in the order they had in
    the pool. *)
Theorem validProducts_sort_stable (allProducts : list Product) (k : Z) :
  filter (fun p => (popularity p =? k)%Z)
         (Array_sort by_popularity (filter price_ok allProducts))
  = filter (fun p => (popularity p =? k)%Z) (filter price_ok allProducts).
Proof.
  apply (Array_sort_stable by_popularity (fun p => inject_Z (popularity p))
           by_popularity_key).
  intros a b Ha Hb. apply Z.eqb_eq in Ha, Hb. now rewrite Ha, Hb.
Qed.

(** ** Scoring engine: order, randomness, merge *)

Lemma analyzeProductsWithAI_analysed
    (ai : option Collaborator) (products : list Analysed) (g : Rng) :
  map analysed (fst (analyzeProductsWithAI ai products g)) = products.
Proof.
  unfold analyzeProductsWithAI.
  destruct ai as [scoreBatch|].
  - destruct (scoreBatch (productSummaries products)) as [|analysisArray].
    + rewrite <- (map_id products) at 2. apply mapM_map. reflexivity.
    + cbn [ret fst]. rewrite <- (map_id products) at 2.
      apply mapi_from_map. reflexivity.
  - rewrite <- (map_id products) at 2. apply mapM_map. reflexivity.
Qed.

(** X8: on each of its three paths the scoring engine returns one
    ScoredProduct per candidate, in the candidates' order, each carrying its
    candidate unchanged. *)
Theorem analyzeProductsWithAI_keeps_order
    (ai : option Collaborator) (products : list Analysed) (g : Rng) :
  map analysed (fst (analyzeProductsWithAI ai products g)) = products /\
  List.length (fst (analyzeProductsWithAI ai products g)) = List.length products.
Proof.
  split; [apply analyzeProductsWithAI_analysed|].
  rewrite <- (analyzeProductsWithAI_analysed ai products g) at 2.
  now rewrite length_map.
Qed.

Lemma mapM_draws {A B : Type} (f : A -> M B) (k : nat) (l : list A) :
  (forall a g, draws (snd (f a g)) = draws g /\ pos (snd (f a g)) = (pos g + k)%nat) ->
  forall g, draws (snd (mapM f l g)) = draws g /\
            pos (snd (mapM f l g)) = (pos g + k * List.length l)%nat.
Proof.
  intros Hf. induction l as [|a r IH]; intros g; cbn [mapM List.length].
  - cbn. split; [reflexivity | lia].
  - unfold bind. destruct (Hf a g) as [Hd Hp].
    destruct (f a g) as [b g1]. cbn [snd] in Hd, Hp.
    destruct (IH g1) as [Hd' Hp']. destruct (mapM f r g1) as [bs g2].
    cbn [snd ret] in *. split; [congruence | lia].
Qed.

(** X9: the assisted path never calls Math.random; with no collaborator
    configured the engine draws three numbers per product, and after a
    failure of the assisted path one per product. *)
Theorem analyzeProductsWithAI_draws
    (ai : option Collaborator) (products : list Analysed) (g : Rng) :
  draws (snd (analyzeProductsWithAI ai products g)) = draws g /\
  pos (snd (analyzeProductsWithAI ai products g))
  = (pos g +
     match ai with
     | None => 3 * List.length products
     | Some scoreBatch =>
         match scoreBatch (productSummaries products) with
         | Threw => 1 * List.length products
         | Returned _ => 0
         end
     end)%nat.
Proof.
  unfold analyzeProductsWithAI. destruct ai as [scoreBatch|].
  - destruct (scoreBatch (productSummaries products)) as [|analysisArray].
    + apply mapM_draws. intros a g'. cbn. split; [reflexivity | lia].
    + cbn. split; [reflexivity | lia].
  - apply mapM_draws. intros a g'. cbn. split; [reflexivity | lia].
Qed.

Lemma find_first_match {A : Type} (f : A -> bool) (pre post : list A) (a : A) :
  Forall (fun b => f b = false) pre -> f a = true ->
  find f (pre ++ a :: post) = Some a.
Proof.
  induction 1 as [|b r Hb _ IH]; intros Ha; cbn [app find].
  - now rewrite Ha.
  - rewrite Hb. now apply IH.
Qed.

(** X10: the merge is by position and the first match wins: the product at
    0-based index i receives the fields of the first returned assessment
    whose productIndex is i + 1, whatever follows it in the answer; a score
    that is missing or 0 becomes 75, a trend, competition or recommendation
    that is missing or empty becomes Stable, Medium and the generic
    sentence. *)
Theorem assisted_merge_first_match
    (scoreBatch : Collaborator) (pre post : list Assessment.t) (a : Assessment.t)
    (products : list Analysed) (g : Rng) (i : nat) (candidate : Analysed) :
  scoreBatch (productSummaries products) = Returned (pre ++ a :: post) ->
  (forall b, In b pre -> Assessment.productIndex b <> Some (Z.of_nat i + 1)%Z) ->
  Assessment.productIndex a = Some (Z.of_nat i + 1)%Z ->
  nth_error products i = Some candidate ->
  nth_error (fst (analyzeProductsWithAI (Some scoreBatch) products g)) i
  = Some {| analysed := candidate;
            aiScore := Q_or (Assessment.aiScore a) 75;
            trend := str_or (Assessment.trend a) "Stable";
            competition := str_or (Assessment.competition a) "Medium";
            recommendation :=
              str_or (Assessment.recommendation a)
                     "Good potential for dropshipping" |}.
Proof.
  intros Hret Hpre Ha Hnth. unfold analyzeProductsWithAI. rewrite Hret.
  cbn [ret fst]. rewrite nth_error_mapi_from, Hnth. cbn [option_map Nat.add].
  unfold mergeAnalysis. rewrite find_first_match; [reflexivity | |].
  - apply Forall_forall. intros b Hb. specialize (Hpre b Hb).
    unfold matches_position. destruct (Assessment.productIndex b) as [k|]; [|reflexivity].
    apply Z.eqb_neq. congruence.
  - unfold matches_position. rewrite Ha. apply Z.eqb_refl.
Qed.

Lemma assisted_merge_first_match_witness :
  nth_error
    (fst (analyzeProductsWithAI (Some duplicating) [analysed_lamp] half_draws)) 0
  = Some {| analysed := analysed_lamp;
            aiScore := 75;
            trend := "Stable";
            competition := "Low";
            recommendation := "Good potential for dropshipping" |}.
Proof.
  apply (assisted_merge_first_match duplicating
           [ {| Assessment.productIndex := Some 2%Z; Assessment.aiScore := Some 60;
                Assessment.trend := Some "Declining";
                Assessment.competition := Some "High";
                Assessment.recommendation := Some "Skip" |} ]
           [ {| Assessment.productIndex := Some 1%Z; Assessment.aiScore := Some 90;
                Assessment.trend := Some "Rising";
                Assessment.competition := Some "High";
                Assessment.recommendation := Some "Sell it" |} ]
           {| Assessment.productIndex := Some 1%Z; Assessment.aiScore := Some 0;
              Assessment.trend := None; Assessment.competition := Some "Low";
              Assessment.recommendation := Some EmptyString |}
           [analysed_lamp] half_draws 0 (analysed_lamp)).
  - reflexivity.
  - intros b [<- | []]. cbn. discriminate.
  - reflexivity.
  - reflexivity.
Defined.

(** X11: the prompt describes the first min(10, n) candidates and no other,
    in order, numbered 1, 2, 3, ... without a gap: the numbering the merge
    relies on. *)
Theorem productSummaries_positions (products : list Analysed) :
  map s_position (productSummaries products)
  = seq 1 (Nat.min 10 (List.length products)) /\
  map s_title (productSummaries products)
  = map (fun p => title (product p)) (firstn 10 products) /\
  map s_price (productSummaries products)
  = map (fun p => price (product p)) (firstn 10 products).
Proof.
  destruct (productSummaries_first_ten products) as (H1 & H2 & H3 & _).
  split; [exact H1 | split; [exact H2 | exact H3]].
Qed.

(** ** The recommendations route: what a successful answer holds *)

Lemma by_aiScore_key (x y : ScoredProduct) :
  ngt (by_aiScore x y) (Fin 0) = Qlt_bool (aiScore x) (aiScore y).
Proof. unfold by_aiScore, ngt, nsub. cbn [nneg nadd nlt]. apply Qlt_bool_diff. Qed.

Lemma validProducts_In (allProducts : list Product) (p : Product) :
  In p (validProducts allProducts) -> In p allProducts /\ price_ok p = true.
Proof.
  unfold validProducts. intros H. apply In_firstn in H.
  apply (Permutation_in _ (Permutation_sym (Array_sort_perm by_popularity _))) in H.
  now apply filter_In in H.
Qed.

Lemma map_throwing_Some {A B : Type} (f : A -> option B) (l : list A) (bs : list B) :
  map_throwing f l = Some bs -> Forall2 (fun a b => f a = Some b) l bs.
Proof.
  revert bs. induction l as [|a r IH]; intros bs H; cbn [map_throwing] in H.
  - injection H as <-. constructor.
  - unfold and_then in H. destruct (f a) as [b|] eqn:E; [|discriminate].
    destruct (map_throwing f r) as [bs'|]; [|discriminate].
    injection H as <-. constructor; [exact E | now apply IH].
Qed.

Lemma map_throwing_all {A B : Type} (f : A -> option B) (l : list A) :
  Forall (fun a => exists b, f a = Some b) l -> exists bs, map_throwing f l = Some bs.
Proof.
  induction 1 as [|a r (b & E) _ (bs & IH)]; cbn [map_throwing].
  - now exists [].
  - exists (b :: bs). unfold and_then. now rewrite E, IH.
Qed.

Lemma map_throwing_None {A B : Type} (f : A -> option B) (l : list A) :
  Exists (fun a => f a = None) l -> map_throwing f l = None.
Proof.
  induction 1 as [a r E | a r _ IH]; cbn [map_throwing]; unfold and_then.
  - now rewrite E.
  - rewrite IH. now destruct (f a).
Qed.

Lemma Forall2_In_r {A B : Type} (R : A -> B -> Prop) (l : list A) (bs : list B) (b : B) :
  Forall2 R l bs -> In b bs -> exists a, In a l /\ R a b.
Proof.
  induction 1 as [|a b' r bs' HR _ IH]; intros Hin; [contradiction|].
  destruct Hin as [<- | Hin].
  - exists a. split; [now left | exact HR].
  - destruct (IH Hin) as (a' & Ha & HR'). exists a'. split; [now right | exact HR'].
Qed.

(** What [addAnalysis] returns, when it returns. *)
Lemma addAnalysis_Some (p : Product) (a : Analysed) :
  addAnalysis p = Some a ->
  product a = p /\
  margins a = calculateMargins (to_double (price p)) /\
  getSourcingRecommendations (title p) = Some (sourcing a).
Proof.
  unfold addAnalysis, and_then. cbn zeta.
  destruct (getSourcingRecommendations (title p)) as [s|]; [|discriminate].
  intros H. injection H as <-. repeat split.
Qed.

Lemma addAnalysis_well_formed (p : Product) :
  well_formed (title p) = true -> exists a, addAnalysis p = Some a.
Proof.
  intros H. destruct (encodeURIComponent_well_formed _ H) as [name Hname].
  unfold addAnalysis, and_then. cbn zeta.
  rewrite getSourcingRecommendations_encoded, Hname. cbn [option_map]. now eexists.
Qed.

Lemma addAnalysis_ill_formed (p : Product) :
  well_formed (title p) = false -> addAnalysis p = None.
Proof.
  intros H. unfold addAnalysis, and_then. cbn zeta.
  rewrite getSourcingRecommendations_encoded, (encodeURIComponent_ill_formed _ H).
  reflexivity.
Qed.

Lemma recommendFrom_nonempty (ai : option Collaborator) (allProducts : list Product)
    (candidates : list Analysed) (g : Rng) :
  allProducts <> [] ->
  map_throwing addAnalysis (validProducts allProducts) = Some candidates ->
  fst (recommendFrom ai allProducts g)
  = let sortedProducts :=
      Array_sort by_aiScore (fst (analyzeProductsWithAI ai candidates g)) in
    Success sortedProducts (trendingNiches sortedProducts) (List.length sortedProducts).
Proof.
  intros Hne Hc. unfold recommendFrom. destruct allProducts as [|p r]; [contradiction|].
  rewrite Hc. unfold bind.
  destruct (analyzeProductsWithAI ai candidates g).
  reflexivity.
Qed.

Lemma recommendFrom_throws (ai : option Collaborator) (allProducts : list Product) (g : Rng) :
  allProducts <> [] ->
  map_throwing addAnalysis (validProducts allProducts) = None ->
  recommendFrom ai allProducts g = (Failure "URI malformed", g).
Proof.
  intros Hne Hc. unfold recommendFrom. destruct allProducts as [|p r]; [contradiction|].
  rewrite Hc. reflexivity.
Qed.

Lemma sorted_candidates (ai : option Collaborator) (candidates : list Analysed) (g : Rng) :
  Permutation
    (map analysed
       (Array_sort by_aiScore (fst (analyzeProductsWithAI ai candidates g))))
    candidates.
Proof.
  eapply perm_trans.
  - apply Permutation_map, Permutation_sym, Array_sort_perm.
  - rewrite analyzeProductsWithAI_analysed. apply Permutation_refl.
Qed.

Lemma Forall2_map_l {A B : Type} (h : B -> A) (l : list A) (bs : list B) :
  Forall2 (fun a b => h b = a) l bs -> map h bs = l.
Proof. induction 1 as [|a b r bs' E _ IH]; cbn [map]; [reflexivity | now rewrite E, IH]. Qed.

(** X12: whenever the pool is not empty and no selected candidate's title
    holds an unpaired surrogate, the route answers success, and its
    products are the selected candidates, each with the margins of its own
    price and the sourcing catalog of its own title, ranked in descending
    order of aiScore; there are at most 20, each with a price strictly
    between 0 and 200, and totalProducts is their number.  When the title
    of a selected candidate holds an unpaired surrogate,
    [encodeURIComponent] throws and the route answers success = false with
    the message "URI malformed", before anything is scored. *)
Theorem recommendFrom_success
    (ai : option Collaborator) (allProducts : list Product) (g : Rng) :
  allProducts <> [] ->
  (Forall (fun p => well_formed (title p) = true) (validProducts allProducts) ->
   exists products candidates,
     fst (recommendFrom ai allProducts g)
     = Success products (trendingNiches products) (List.length products) /\
     map product candidates = validProducts allProducts /\
     Permutation (map analysed products) candidates /\
     StronglySorted (descending aiScore) products /\
     (List.length products <= 20)%nat /\
     Forall (fun p =>
               price_in_range (product (analysed p)) /\
               margins (analysed p)
               = calculateMargins (to_double (price (product (analysed p)))) /\
               getSourcingRecommendations (title (product (analysed p)))
               = Some (sourcing (analysed p)))
            products) /\
  (Exists (fun p => well_formed (title p) = false) (validProducts allProducts) ->
   recommendFrom ai allProducts g = (Failure "URI malformed", g)).
Proof.
  intros Hne. split.
  - intros Hwf.
    destruct (map_throwing_all addAnalysis (validProducts allProducts)) as [candidates Hc].
    { eapply Forall_impl; [|exact Hwf]. intros p. apply addAnalysis_well_formed. }
    pose proof (map_throwing_Some _ _ _ Hc) as Hrel.
    eexists. exists candidates.
    split; [apply (recommendFrom_nonempty ai allProducts candidates g Hne Hc)|].
    cbn zeta.
    pose proof (sorted_candidates ai candidates g) as Hperm.
    set (products := Array_sort by_aiScore _) in *.
    assert (Hprod : map product candidates = validProducts allProducts).
    { apply Forall2_map_l. eapply Forall2_impl; [|exact Hrel].
      intros a b H. now apply addAnalysis_Some in H. }
    split; [exact Hprod|]. split; [exact Hperm|]. split; [|split].
    + apply (Array_sort_descending by_aiScore aiScore by_aiScore_key).
    + rewrite <- (length_map analysed), (Permutation_length Hperm).
      rewrite <- (length_map product), Hprod.
      unfold validProducts. apply firstn_le_length.
    + apply Forall_forall. intros p Hp.
      assert (Hin : In (analysed p) candidates).
      { apply (Permutation_in _ Hperm). now apply in_map. }
      destruct (Forall2_In_r _ _ _ _ Hrel Hin) as (c & Hc' & Ha).
      apply addAnalysis_Some in Ha. destruct Ha as (Ep & Em & Es).
      apply validProducts_In in Hc'. destruct Hc' as [_ Hok].
      rewrite Ep. split; [now apply price_ok_in_range | split; [exact Em | exact Es]].
  - intros Hbad. apply recommendFrom_throws; [exact Hne|].
    apply map_throwing_None. eapply Exists_impl; [|exact Hbad].
    intros p. apply addAnalysis_ill_formed.
Qed.

Lemma recommendFrom_success_witness :
  (exists products,
     fst (recommendFrom None [desk_lamp] half_draws)
     = Success products (trendingNiches products) (List.length products) /\
     (List.length products <= 20)%nat) /\
  recommendFrom None [unnameable] half_draws = (Failure "URI malformed", half_draws).
Proof.
  split.
  - destruct (proj1 (recommendFrom_success None [desk_lamp] half_draws ltac:(discriminate)))
      as (ps & cs & H1 & _ & _ & _ & H4 & _).
    + repeat constructor.
    + exists ps. split; [exact H1 | exact H4].
  - apply (proj2 (recommendFrom_success None [unnameable] half_draws ltac:(discriminate))).
    constructor. reflexivity.
Defined.

Lemma trendingNiches_perm (ps : list ScoredProduct) :
  Permutation
    (map (fun c => finish_niche (niche_totals ps c)) (distinct_categories ps))
    (trendingNiches ps).
Proof.
  unfold trendingNiches. rewrite niches_after_loop, map_map.
  apply Array_sort_perm.
Qed.

Lemma trendingNiches_category (ps : list ScoredProduct) (n : Niche.t) :
  In n (trendingNiches ps) -> In (Niche.category n) (map sp_category ps).
Proof.
  intros H. apply (Permutation_in _ (Permutation_sym (trendingNiches_perm ps))) in H.
  apply in_map_iff in H. destruct H as (c & <- & Hc).
  cbn [finish_niche niche_totals Niche.category].
  now apply distinct_categories_In.
Qed.

Lemma trendingNiches_counts (ps : list ScoredProduct) :
  Zsum (map Niche.count (trendingNiches ps)) = Z.of_nat (List.length ps).
Proof.
  rewrite <- (Zsum_perm _ _ (Permutation_map Niche.count (trendingNiches_perm ps))).
  rewrite map_map. cbn [finish_niche niche_totals Niche.count].
  apply member_counts_sum; [apply distinct_categories_NoDup|].
  intros p Hp. apply distinct_categories_In. now apply in_map.
Qed.

Lemma collectProducts_category
    (scrapecreators : Category -> Upstream) (selectedCategories : list Category)
    (p : Product) :
  In p (collectProducts scrapecreators selectedCategories) ->
  In (category p) selectedCategories.
Proof.
  unfold collectProducts. intros Hp. apply in_flat_map in Hp.
  destruct Hp as (c & Hc & Hp).
  destruct (scrapecreators c) as [msg|items]; [contradiction|].
  apply filter_In in Hp. destruct Hp as [Hp _].
  apply in_map_iff in Hp. destruct Hp as (item & <- & _). exact Hc.
Qed.

(** X13: in a successful answer every niche is one of the categories that
    were queried, every product belongs to one of them too, the niches'
    counts add up to totalProducts, and totalProducts is the number of
    products returned. *)
Theorem recommendations_niches
    (scrapecreators : Category -> Upstream) (selectedCategories : list Category)
    (ai : option Collaborator) (g : Rng)
    (products : list ScoredProduct) (niches : list Niche.t) (totalProducts : nat) :
  fst (recommendations scrapecreators selectedCategories ai g)
  = Success products niches totalProducts ->
  Forall (fun n => In (Niche.category n) selectedCategories) niches /\
  Forall (fun p => In (sp_category p) selectedCategories) products /\
  Zsum (map Niche.count niches) = Z.of_nat totalProducts /\
  totalProducts = List.length products.
Proof.
  unfold recommendations. intros H.
  set (pool := collectProducts scrapecreators selectedCategories) in *.
  assert (Hne : pool <> []).
  { intros E. rewrite E in H. discriminate. }
  destruct (map_throwing addAnalysis (validProducts pool)) as [candidates|] eqn:Hc.
  2: { rewrite (recommendFrom_throws ai pool g Hne Hc) in H. discriminate. }
  pose proof (map_throwing_Some _ _ _ Hc) as Hrel.
  rewrite (recommendFrom_nonempty ai pool candidates g Hne Hc) in H. cbn zeta in H.
  pose proof (sorted_candidates ai candidates g) as Hperm.
  set (ps := Array_sort by_aiScore _) in *.
  injection H as <- <- <-.
  assert (Hcat : Forall (fun p => In (sp_category p) selectedCategories) ps).
  { apply Forall_forall. intros p Hp.
    assert (Hin : In (analysed p) candidates).
    { apply (Permutation_in _ Hperm). now apply in_map. }
    destruct (Forall2_In_r _ _ _ _ Hrel Hin) as (c & Hv & Ha).
    apply addAnalysis_Some in Ha. destruct Ha as (Ep & _).
    apply validProducts_In in Hv. destruct Hv as [Hv _].
    unfold sp_category. rewrite Ep.
    exact (collectProducts_category _ _ _ Hv). }
  split; [|split; [exact Hcat | split; [apply trendingNiches_counts | reflexivity]]].
  apply Forall_forall. intros n Hn. apply trendingNiches_category in Hn.
  apply in_map_iff in Hn. destruct Hn as (p & <- & Hp).
  rewrite Forall_forall in Hcat. now apply Hcat.
Qed.

Lemma recommendations_niches_witness :
  exists products niches totalProducts,
    fst (recommendations priced_upstream [HomeDecor; Makeup] None half_draws)
    = Success products niches totalProducts /\
    Forall (fun n => In (Niche.category n) [HomeDecor; Makeup]) niches /\
    totalProducts = 2%nat.
Proof.
  eexists. eexists. eexists. split; [reflexivity|].
  split; [|reflexivity].
  eapply (proj1 (recommendations_niches priced_upstream [HomeDecor; Makeup]
                   None half_draws _ _ _ eq_refl)).
Defined.

(** ** Margin calculator: break-even and ceiling *)

Lemma toFixedQ_negative (q : Q) (f : nat) :
  fixed_negative (toFixedQ q f) = Qlt_bool q 0.
Proof. unfold toFixedQ. now destruct (Qle_bool _ _). Qed.

Lemma round_half_up_nonneg (x : Q) : 0 <= x -> (0 <= round_half_up x)%Z.
Proof.
  intros H. unfold round_half_up. change 0%Z with (Qfloor 0).
  apply Qfloor_resp_le. lra.
Qed.

Lemma round_half_up_le (x : Q) (k : Z) : x <= inject_Z k -> (round_half_up x <= k)%Z.
Proof.
  intros H. unfold round_half_up.
  assert (Hlt : (Qfloor (x + (1 # 2)) < k + 1)%Z).
  { rewrite Zlt_Qlt. eapply Qle_lt_trans; [apply Qfloor_le|].
    rewrite inject_Z_plus. change (inject_Z 1) with 1. lra. }
  lia.
Qed.

Lemma printed_at_most (x : Q) (k : Z) (f : nat) :
  x <= inject_Z k / inject_Z (pow10 f) -> (0 <= k)%Z ->
  exists v, fixed_value (toFixedQ x f) = Some v /\ v <= inject_Z k / inject_Z (pow10 f).
Proof.
  intros Hx Hk. pose proof (pow10_pos f) as HP. set (P := inject_Z (pow10 f)) in *.
  assert (Hk0 : 0 <= inject_Z k / P).
  { apply Qle_shift_div_l; [exact HP|]. rewrite Zle_Qle in Hk.
    change (inject_Z 0) with 0 in Hk. lra. }
  unfold toFixedQ. pose proof (Qabs_sign x) as Hs.
  destruct (Qle_bool (inject_Z (pow10 21)) (Qabs x)).
  - eexists. split; [reflexivity|]. lra.
  - eexists. split; [reflexivity|]. cbn zeta. fold P.
    destruct (Qlt_bool x 0) eqn:En.
    + assert (Hn : (0 <= round_half_up (Qabs x * P))%Z).
      { apply round_half_up_nonneg. pose proof (Qabs_nonneg x).
        apply Qmult_le_0_compat; lra. }
      rewrite Zle_Qle in Hn. change (inject_Z 0) with 0 in Hn.
      assert (0 <= inject_Z (round_half_up (Qabs x * P)) / P)
        by (apply Qle_shift_div_l; lra).
      lra.
    + assert (Hn : (round_half_up (Qabs x * P) <= k)%Z).
      { apply round_half_up_le.
        assert (H : Qabs x * P <= inject_Z k / P * P)
          by (apply Qmult_le_compat_r; lra).
        assert (E : inject_Z k / P * P == inject_Z k) by (field; lra).
        lra. }
      rewrite Zle_Qle in Hn.
      apply Qle_shift_div_l; [exact HP|].
      assert (E : inject_Z (round_half_up (Qabs x * P)) / P * P
                  == inject_Z (round_half_up (Qabs x * P))) by (field; lra).
      assert (E' : inject_Z k / P * P == inject_Z k) by (field; lra).
      lra.
Qed.

(** X14: for every double from 0.01 to 1,000,000, the profit is printed
    with a minus sign when the price is below 50/3 (16.67), the price at
    which 30% of the price pays the flat shipping cost of 5, by 1e-8 or
    more, and without one when the price is above 50/3 by 1e-8 or more; in
    between, the rounding of the operations decides: at the double just
    below 50/3 the profit reads 0.00, without a sign.  The profit margin
    printed is at most 30.0. *)
Theorem calculateMargins_break_even (p : double) :
  finite64 p -> 1 # 100 <= SF2Q p <= 1000000 ->
  (SF2Q p <= (50 # 3) - (1 # 100000000) ->
   fixed_negative (profit (calculateMargins p)) = true) /\
  ((50 # 3) + (1 # 100000000) <= SF2Q p ->
   fixed_negative (profit (calculateMargins p)) = false) /\
  (exists v, fixed_value (profitMargin (calculateMargins p)) = Some v /\ v <= 30) /\
  SF2Q price_below_break_even < 50 # 3 /\
  fixed_to_string (profit (calculateMargins price_below_break_even)) = Some "0.00".
Proof.
  intros Hp HP.
  destruct (margin_figures_error p Hp HP)
    as (_ & _ & _ & _ & (Fp & Ep) & (Fm & Em)).
  cbn zeta in *. unfold calculateMargins. cbn [profit profitMargin].
  fold lit_supplier lit_ad lit_fees lit_shipping.
  rewrite (toFixed_finite64 _ 2 Fp), (toFixed_finite64 _ 1 Fm), toFixedQ_negative.
  apply Qabs_Qle_condition in Ep. apply Qabs_Qle_condition in Em. unfold slack in *.
  set (P := SF2Q p) in *.
  set (PR := SF2Q (sub64 p _)) in *. set (MG := SF2Q (mul64 _ _)) in *.
  split; [|split; [|split; [|split]]].
  - intros H. apply Qlt_bool_iff. lra.
  - intros H. apply Qlt_bool_false. lra.
  - set (Y := / P).
    assert (HY : P * Y == 1) by (unfold Y; field; lra).
    assert (HY0 : 1 <= 1000000 * Y).
    { assert (H : P * Y <= 1000000 * Y).
      { apply Qmult_le_compat_r; [lra|]. unfold Y. apply Qinv_le_0_compat. lra. }
      lra. }
    assert (EM : 500 / P == 500 * Y) by (unfold Y; field; lra).
    rewrite EM in Em.
    assert (E30 : inject_Z 300 / inject_Z (pow10 1) == 30) by reflexivity.
    destruct (printed_at_most MG 300 1) as (v & Hv & Hle); [rewrite E30; lra | lia |].
    exists v. split; [exact Hv | lra].
  - apply Qlt_bool_iff. vm_compute. reflexivity.
  - vm_compute. reflexivity.
Qed.

Lemma calculateMargins_break_even_witness :
  finite64 price_10 /\
  fixed_negative (profit (calculateMargins price_10)) = true /\
  exists v, fixed_value (profitMargin (calculateMargins price_10)) = Some v /\ v <= 30.
Proof.
  assert (H : finite64 price_10) by (vm_compute; split; [|split]; congruence).
  split; [exact H|].
  destruct (calculateMargins_break_even price_10 H) as (H1 & _ & H3 & _).
  - split; apply Qle_bool_iff; vm_compute; reflexivity.
  - split; [|exact H3]. apply H1. apply Qle_bool_iff. vm_compute. reflexivity.
Defined.

(** ** Sourcing catalog: the generated URLs *)

Lemma all_chars_app (p : ascii -> bool) (a b : string) :
  all_chars p (a ++ b) = all_chars p a && all_chars p b.
Proof.
  induction a as [|c r IH]; cbn [String.append all_chars]; [reflexivity|].
  now rewrite IH, andb_assoc.
Qed.

Lemma hex_digit_unreserved (n : N) : (n < 16)%N -> is_unreserved (hex_digit n) = true.
Proof.
  intros H. rewrite <- (N2Nat.id n).
  assert (Hk : (N.to_nat n < 16)%nat) by lia.
  generalize dependent (N.to_nat n). intros k Hk.
  do 16 (destruct k as [|k]; [reflexivity|]). lia.
Qed.

Lemma percent_url_safe (byte : N) :
  (byte < 256)%N -> all_chars url_safe (percent byte) = true.
Proof.
  intros H. unfold percent. cbn [all_chars]. unfold url_safe at 2 3.
  rewrite !hex_digit_unreserved.
  - reflexivity.
  - apply N.mod_lt. discriminate.
  - apply N.Div0.div_lt_upper_bound. exact H.
Qed.

Lemma continuation_byte (x : N) : (128 + x mod 64 < 256)%N.
Proof. pose proof (N.mod_lt x 64 ltac:(discriminate)). lia. Qed.

(** Every byte of the UTF-8 encoding of a code point is a byte. *)
Lemma utf8_bytes (cp : N) : (cp < 1114112)%N -> Forall (fun b => (b < 256)%N) (utf8 cp).
Proof.
  intros H. unfold utf8.
  destruct (N.ltb_spec cp 128); [repeat constructor; lia|].
  destruct (N.ltb_spec cp 2048).
  { assert (cp / 64 < 32)%N by (apply N.Div0.div_lt_upper_bound; lia).
    repeat constructor; try apply continuation_byte. lia. }
  destruct (N.ltb_spec cp 65536).
  { assert (cp / 4096 < 16)%N by (apply N.Div0.div_lt_upper_bound; lia).
    repeat constructor; try apply continuation_byte. lia. }
  assert (cp / 262144 < 5)%N by (apply N.Div0.div_lt_upper_bound; lia).
  repeat constructor; try apply continuation_byte. lia.
Qed.

Lemma escape_bytes_url_safe (bytes : list N) :
  Forall (fun b => (b < 256)%N) bytes ->
  all_chars url_safe (concat EmptyString (map percent bytes)) = true.
Proof.
  induction 1 as [|b r Hb Hr IH]; [reflexivity|].
  cbn [map]. destruct r as [|b' r'].
  - cbn [map concat]. now apply percent_url_safe.
  - change (concat EmptyString (percent b :: map percent (b' :: r')))
      with (percent b ++ EmptyString ++ concat EmptyString (map percent (b' :: r'))).
    rewrite !all_chars_app, IH, (percent_url_safe b Hb). reflexivity.
Qed.

Lemma escape_url_safe (cp : N) : (cp < 1114112)%N -> all_chars url_safe (escape cp) = true.
Proof. intros H. apply escape_bytes_url_safe, utf8_bytes, H. Qed.

Lemma unit_code_bound (u : unit16) : (unit_code u < 65536)%N.
Proof.
  destruct u as [h l]. unfold unit_code.
  pose proof (N_ascii_bounded h). pose proof (N_ascii_bounded l). lia.
Qed.

Lemma pair_code_point_bound (lead trail : N) :
  is_high_surrogate lead = true -> is_low_surrogate trail = true ->
  (pair_code_point lead trail < 1114112)%N.
Proof.
  unfold is_high_surrogate, is_low_surrogate, pair_code_point.
  rewrite !andb_true_iff, !N.leb_le. lia.
Qed.

Lemma all_chars_option_map (piece : string) (rest : option string) (name : string) :
  all_chars url_safe piece = true ->
  (forall s, rest = Some s -> all_chars url_safe s = true) ->
  option_map (append piece) rest = Some name -> all_chars url_safe name = true.
Proof.
  intros Hp Hr H. destruct rest as [s|]; [|discriminate].
  injection H as <-. now rewrite all_chars_app, Hp, (Hr s eq_refl).
Qed.

Lemma encodeURIComponent_url_safe_upto (n : nat) (t : text) (name : string) :
  (List.length t <= n)%nat ->
  encodeURIComponent t = Some name -> all_chars url_safe name = true.
Proof.
  revert t name. induction n as [|n IH]; intros t name Hlen H.
  - destruct t; [|cbn in Hlen; lia]. injection H as <-. reflexivity.
  - destruct t as [|u r]; [injection H as <-; reflexivity|].
    cbn [List.length] in Hlen. cbn [encodeURIComponent] in H.
    destruct (is_unreserved16 u) eqn:Eu.
    + destruct u as [h l]. cbn [is_unreserved16] in Eu.
      apply andb_true_iff in Eu. destruct Eu as [_ Eu].
      apply (all_chars_option_map (String l EmptyString) (encodeURIComponent r));
        [cbn [all_chars]; unfold url_safe; now rewrite Eu | | exact H].
      intros s Hs. apply (IH r s); [lia | exact Hs].
    + destruct (is_high_surrogate (unit_code u)) eqn:Eh.
      * destruct r as [|v r']; [discriminate|]. cbn [List.length] in Hlen.
        destruct (is_low_surrogate (unit_code v)) eqn:El; [|discriminate].
        apply (all_chars_option_map _ (encodeURIComponent r') name
                 (escape_url_safe _ (pair_code_point_bound _ _ Eh El)));
          [|exact H].
        intros s Hs. apply (IH r' s); [lia | exact Hs].
      * destruct (is_low_surrogate (unit_code u)); [discriminate|].
        pose proof (unit_code_bound u) as Hu.
        apply (all_chars_option_map _ (encodeURIComponent r) name
                 (escape_url_safe (unit_code u) ltac:(lia)));
          [|exact H].
        intros s Hs. apply (IH r s); [lia | exact Hs].
Qed.

Lemma encodeURIComponent_url_safe (t : text) (name : string) :
  encodeURIComponent t = Some name -> all_chars url_safe name = true.
Proof. apply (encodeURIComponent_url_safe_upto (List.length t) t name (le_n _)). Qed.

Lemma count_string_app (p : ascii -> bool) (a b : string) :
  (count_string p (a ++ b) = count_string p a + count_string p b)%nat.
Proof.
  induction a as [|c r IH]; cbn [String.append count_string]; [reflexivity|].
  rewrite IH. lia.
Qed.

(** A character that is not safe does not occur in a safe string. *)
Lemma count_unsafe (c : ascii) (s : string) :
  url_safe c = false -> all_chars url_safe s = true ->
  count_string (Ascii.eqb c) s = 0%nat.
Proof.
  intros Hbad Hsafe.
  induction s as [|d r IH]; cbn [count_string all_chars] in *; [reflexivity|].
  apply andb_true_iff in Hsafe. destruct Hsafe as [Hd Hr].
  rewrite (IH Hr).
  destruct (Ascii.eqb_spec c d) as [<- | _]; [congruence | reflexivity].
Qed.

Lemma reserved_unsafe (c : ascii) :
  In c [" "; "/"; "?"; "&"; "#"; "="; "+"]%char -> url_safe c = false.
Proof.
  intros Hc. cbn [In] in Hc.
  repeat (destruct Hc as [<- | Hc]; [reflexivity|]). contradiction.
Qed.

(** The encoder at a space and an ampersand, at U+00E9, at U+20AC, at the
    pair D83D DD25 (U+1F525), and at a lone trail surrogate. *)
Lemma encodeURIComponent_examples :
  encodeURIComponent (text_of_string "Desk Lamp & Co") = Some "Desk%20Lamp%20%26%20Co" /\
  encodeURIComponent [U16 zero (ascii_of_nat 233)] = Some "%C3%A9" /\
  encodeURIComponent [U16 (ascii_of_nat 32) (ascii_of_nat 172)] = Some "%E2%82%AC" /\
  encodeURIComponent [U16 (ascii_of_nat 216) (ascii_of_nat 61);
                      U16 (ascii_of_nat 221) (ascii_of_nat 37)]
  = Some "%F0%9F%94%A5" /\
  encodeURIComponent [U16 (ascii_of_nat 221) (ascii_of_nat 37)] = None.
Proof. repeat split. Qed.

(** X15: when [encodeURIComponent] accepts the product name, each of the
    three search URLs is its supplier's fixed address followed by the
    encoded name, and whatever the name, its encoding holds nothing but
    unreserved characters and percent escapes: no space, slash, question
    mark, ampersand or hash of the name reaches the URL.  It accepts the
    names without unpaired surrogate; on every other name the call throws
    and no catalog is returned. *)
Theorem getSourcingRecommendations_urls (productName : text) :
  match encodeURIComponent productName with
  | Some name =>
      well_formed productName = true /\
      option_map (map url) (getSourcingRecommendations productName)
      = Some [ "https://www.aliexpress.com/wholesale?SearchText=" ++ name;
               "https://cjdropshipping.com/search?keyword=" ++ name;
               "https://www.spocket.co/search/" ++ name ] /\
      all_chars url_safe name = true /\
      forall c, In c [" "; "/"; "?"; "&"; "#"; "="; "+"]%char ->
                count_string (Ascii.eqb c) name = 0%nat
  | None =>
      well_formed productName = false /\
      getSourcingRecommendations productName = None
  end.
Proof.
  rewrite getSourcingRecommendations_encoded.
  destruct (encodeURIComponent productName) as [name|] eqn:E.
  - pose proof (encodeURIComponent_url_safe productName name E) as Hsafe.
    split; [|split; [reflexivity | split; [exact Hsafe|]]].
    + destruct (well_formed productName) eqn:W; [reflexivity|].
      rewrite (encodeURIComponent_ill_formed _ W) in E. discriminate.
    + intros c Hc. apply count_unsafe; [now apply reserved_unsafe | exact Hsafe].
  - split; [|reflexivity].
    destruct (well_formed productName) eqn:W; [|reflexivity].
    destruct (encodeURIComponent_well_formed _ W) as [s Hs]. congruence.
Qed.

(** ** Record normalizer: the engagement is a percentage *)

(** X16: whenever the plays are positive and the likes are between 0 and
    the plays, the engagement is a plain decimal with two places between
    0.00 and 100.00. *)
Theorem extractEngagement_percentage
    (item : Raw.t) (st : Raw.Statistics) (v : Z) :
  Raw.statistics item = Some st ->
  Raw.play_count st = Some v ->
  (0 < v)%Z ->
  (0 <= int_or (Raw.digg_count st) 0 <= v)%Z ->
  exists n, extractEngagement item = EngFixed (FixDec false n 2) /\
            (0 <= n <= 10000)%Z.
Proof.
  intros Hst Hv Hpos Hd.
  rewrite (extractEngagement_statistics item st v Hst Hv Hpos).
  set (d := int_or (Raw.digg_count st) 0) in *.
  destruct (percentage_range d v Hpos Hd) as (Hf & Hx).
  rewrite (toFixed_finite64 _ 2 Hf). unfold toFixedQ.
  set (x := SF2Q (percentage d v)) in *.
  assert (Ea : Qabs x == x) by (apply Qabs_pos; lra).
  assert (En : Qlt_bool x 0 = false) by (apply Qlt_bool_false; lra).
  assert (Eb : Qle_bool (inject_Z (pow10 21)) (Qabs x) = false).
  { destruct (Qle_bool (inject_Z (pow10 21)) (Qabs x)) eqn:E; [|reflexivity].
    apply Qle_bool_iff in E.
    assert (100 < inject_Z (pow10 21)) by reflexivity. lra. }
  rewrite En, Eb. eexists. split; [reflexivity|].
  change (inject_Z (pow10 2)) with 100. split.
  - apply round_half_up_nonneg. lra.
  - apply round_half_up_le. change (inject_Z 10000) with 10000. lra.
Qed.

Lemma extractEngagement_percentage_witness :
  exists n, extractEngagement played_item = EngFixed (FixDec false n 2) /\
            (0 <= n <= 10000)%Z.
Proof.
  apply (extractEngagement_percentage played_item
           {| Raw.play_count := Some 2000%Z; Raw.digg_count := Some 150%Z |}
           2000%Z); try reflexivity.
  cbn. split; discriminate.
Defined.

(** ** Configuration: what is posted is what is read *)

(** X17: posting a configuration and reading it back returns, for each of
    the three keys, the posted value when the body gives one and the value
    stored before when it does not; no key is lost by a post that does not
    mention it, and each has-flag tells whether the key is non-empty. *)
Theorem config_post_then_get (body : ConfigBody) (s : Server) :
  let stored := loadConfig (file s) in
  let view := route_config_get (route_config_post body s) in
  view_apiKey view
  = str_or (posted (body_apiKey body) (Config.apiKey stored)) EmptyString /\
  view_openaiKey view
  = str_or (posted (body_openaiKey body) (Config.openaiKey stored)) EmptyString /\
  view_geminiKey view
  = str_or (posted (body_geminiKey body) (Config.geminiKey stored)) EmptyString /\
  hasKey view = negb (String.eqb (view_apiKey view) EmptyString) /\
  hasOpenAIKey view = negb (String.eqb (view_openaiKey view) EmptyString) /\
  hasGeminiKey view = negb (String.eqb (view_geminiKey view) EmptyString).
Proof.
  cbn zeta. unfold route_config_get, route_config_post, posted.
  destruct (loadConfig (file s)) as [ka ko kg].
  destruct (body_apiKey body) as [[|? ?]|], (body_openaiKey body) as [[|? ?]|],
    (body_geminiKey body) as [[|? ?]|];
    cbn [file saveConfig loadConfig Config.apiKey Config.openaiKey
         Config.geminiKey hasKey hasOpenAIKey hasGeminiKey view_apiKey
         view_openaiKey view_geminiKey];
    destruct ka as [[|? ?]|], ko as [[|? ?]|], kg as [[|? ?]|];
    (split; [|split; [|split; [|split; [|split]]]]); reflexivity.
Qed.

(** ** Collaborator handles: cached, and reset by a post of the key *)

Lemma getOpenAI_current (s : Server) :
  handles_current s -> handles_current (snd (getOpenAI s)).
Proof.
  intros H. unfold getOpenAI.
  destruct (openai s) as [h|] eqn:E; [exact H|].
  destruct (truthy_str _) as [k|] eqn:Ek; [|exact H].
  destruct H as [_ Hg].
  cbn [snd]. split; cbn [openai genAI file].
  - intros h Hh. injection Hh as <-. exact Ek.
  - exact Hg.
Qed.

Lemma getGemini_current (s : Server) :
  handles_current s -> handles_current (snd (getGemini s)).
Proof.
  intros H. unfold getGemini.
  destruct (genAI s) as [h|] eqn:E; [exact H|].
  destruct (truthy_str _) as [k|] eqn:Ek; [|exact H].
  destruct H as [Ho _].
  cbn [snd]. split; cbn [openai genAI file].
  - exact Ho.
  - intros h Hh. injection Hh as <-. exact Ek.
Qed.

Lemma route_config_post_current (body : ConfigBody) (s : Server) :
  handles_current s -> handles_current (route_config_post body s).
Proof.
  unfold route_config_post, handles_current. intros [Ho Hg].
  destruct (body_apiKey body) as [a|], (body_openaiKey body) as [o|],
    (body_geminiKey body) as [m|];
    cbn [file openai genAI saveConfig loadConfig Config.apiKey Config.openaiKey
         Config.geminiKey];
    split; intros h Hh; try discriminate; auto.
Qed.

Lemma perform_current (s : Server) (op : Operation) :
  handles_current s -> handles_current (perform s op).
Proof.
  destruct op; cbn [perform].
  - apply getOpenAI_current.
  - apply getGemini_current.
  - apply route_config_post_current.
Qed.

Lemma fold_perform_current (ops : list Operation) :
  forall s, handles_current s -> handles_current (fold_left perform ops s).
Proof.
  induction ops as [|op r IH]; intros s H; cbn [fold_left]; [exact H|].
  apply IH, perform_current, H.
Qed.

Lemma getOpenAI_of_current (s : Server) :
  handles_current s ->
  fst (getOpenAI s)
  = option_map (fun k => {| handle_key := k |})
      (truthy_str (Config.openaiKey (loadConfig (file s)))).
Proof.
  intros [Ho _]. unfold getOpenAI.
  destruct (openai s) as [h|] eqn:E.
  - rewrite (Ho h eq_refl). destruct h. reflexivity.
  - destruct (truthy_str _); reflexivity.
Qed.

(** X18: from the start of the process on, and whatever calls to getOpenAI,
    getGemini and posts of the configuration come in, the OpenAI handle that
    getOpenAI returns is built with the OpenAI key now on file, and there is
    none exactly when that key is absent or empty: a stale handle is never
    served after the key was posted anew. *)
Theorem getOpenAI_serves_current_key (f : ConfigFile) (ops : list Operation) :
  let s := fold_left perform ops (startup f) in
  handles_current s /\
  fst (getOpenAI s)
  = option_map (fun k => {| handle_key := k |})
      (truthy_str (Config.openaiKey (loadConfig (file s)))).
Proof.
  cbn zeta.
  assert (H : handles_current (fold_left perform ops (startup f))).
  { apply fold_perform_current. split; intros h Hh; discriminate. }
  split; [exact H | now apply getOpenAI_of_current].
Qed.

(** X19: once a handle is cached it is served again without the file being
    read: a second call returns the same handle and leaves the state as it
    is, whatever the file holds by then; only a post that carries the
    OpenAI key drops it, and a post that does not carry it keeps it. *)
Theorem getOpenAI_cached (s : Server) (h : Handle) (f' : ConfigFile) (body : ConfigBody) :
  fst (getOpenAI s) = Some h ->
  getOpenAI {| file := f'; openai := openai (snd (getOpenAI s));
               genAI := genAI (snd (getOpenAI s)) |}
  = (Some h, {| file := f'; openai := Some h; genAI := genAI s |}) /\
  (body_openaiKey body = None ->
   openai (route_config_post body (snd (getOpenAI s))) = Some h) /\
  (body_openaiKey body <> None ->
   openai (route_config_post body (snd (getOpenAI s))) = None).
Proof.
  intros H.
  assert (Hs : openai (snd (getOpenAI s)) = Some h /\
               genAI (snd (getOpenAI s)) = genAI s).
  { unfold getOpenAI in *. destruct (openai s) as [h0|] eqn:E.
    - cbn in *. split; congruence.
    - destruct (truthy_str _) as [k|]; cbn in *; [|discriminate].
      split; congruence. }
  destruct Hs as [Ho Hg]. split; [|split].
  - unfold getOpenAI at 1. cbn [openai]. rewrite Ho, Hg. reflexivity.
  - intros Hb. unfold route_config_post. rewrite Hb.
    destruct (body_apiKey body), (body_geminiKey body); cbn [openai]; exact Ho.
  - intros Hb. unfold route_config_post.
    destruct (body_openaiKey body) as [k|]; [|contradiction].
    destruct (body_apiKey body), (body_geminiKey body); reflexivity.
Qed.

Lemma getOpenAI_cached_witness :
  fst (getOpenAI (startup keyed_file)) = Some {| handle_key := "sk-old" |} /\
  fst (getOpenAI {| file := NoFile;
                    openai := openai (snd (getOpenAI (startup keyed_file)));
                    genAI := genAI (snd (getOpenAI (startup keyed_file))) |})
  = Some {| handle_key := "sk-old" |} /\
  openai (route_config_post new_openai_key (snd (getOpenAI (startup keyed_file))))
  = None.
Proof.
  assert (H : fst (getOpenAI (startup keyed_file)) = Some {| handle_key := "sk-old" |})
    by reflexivity.
  destruct (getOpenAI_cached (startup keyed_file) _ NoFile new_openai_key H)
    as (H1 & _ & H3).
  split; [exact H|]. split.
  - now rewrite H1.
  - apply H3. discriminate.
Defined.

(** ** The ScrapeCreators helper: no key, no call *)

(** X20: while no ScrapeCreators key is on file (none, or an empty one),
    each of the five proxy routes answers success = false with the message
    "API key not set. Click Settings to add your key.", whatever the service
    would have answered: the service is not called. *)
Theorem proxies_without_key
    {D : Type} (network : Network D) (credits_remaining : D -> option Z)
    (s : Server) (q : option string) :
  truthy_str (Config.apiKey (loadConfig (file s))) = None ->
  route_tiktok_search network s q
  = ProxyFailure "API key not set. Click Settings to add your key." /\
  route_tiktok_top network s q
  = ProxyFailure "API key not set. Click Settings to add your key." /\
  route_tiktok_shop network s q
  = ProxyFailure "API key not set. Click Settings to add your key." /\
  route_instagram_reels network s q
  = ProxyFailure "API key not set. Click Settings to add your key." /\
  route_test network credits_remaining s
  = ProxyFailure "API key not set. Click Settings to add your key.".
Proof.
  intros H.
  unfold route_tiktok_search, route_tiktok_top, route_tiktok_shop,
    route_instagram_reels, route_test, scrapecreators.
  rewrite H. repeat split.
Qed.

Lemma proxies_without_key_witness :
  route_tiktok_shop (fun _ _ _ => Fetched 7%Z) (startup NoFile) (Some "lamp")
  = ProxyFailure "API key not set. Click Settings to add your key.".
Proof.
  apply (proxies_without_key (fun _ _ _ => Fetched 7%Z) (fun _ => None)
           (startup NoFile) (Some "lamp")).
  reflexivity.
Defined.

Lemma route_config_post_apiKey (body : ConfigBody) (s : Server) :
  Config.apiKey (loadConfig (file (route_config_post body s)))
  = match body_apiKey body with
    | Some k => Some k
    | None => Config.apiKey (loadConfig (file s))
    end.
Proof.
  unfold route_config_post.
  destruct (body_apiKey body), (body_openaiKey body), (body_geminiKey body);
    reflexivity.
Qed.

(** X21: a ScrapeCreators key posted to the configuration route is the key
    the next proxy call sends, with no restart: the key is read from the
    file at every call.  Posting the empty key turns the proxies off, and a
    post without that field leaves them as they were. *)
Theorem posted_key_reaches_proxies
    {D : Type} (network : Network D) (body : ConfigBody) (s : Server)
    (q : option string) :
  route_tiktok_shop network (route_config_post body s) q
  = match body_apiKey body with
    | Some EmptyString =>
        ProxyFailure "API key not set. Click Settings to add your key."
    | Some key =>
        answer (fun d => d) (network key "/v1/tiktok/shop/search" [("query", q)])
    | None => route_tiktok_shop network s q
    end /\
  route_tiktok_search network (route_config_post body s) q
  = match body_apiKey body with
    | Some EmptyString =>
        ProxyFailure "API key not set. Click Settings to add your key."
    | Some key =>
        answer (fun d => d) (network key "/v1/tiktok/search/keyword" [("query", q)])
    | None => route_tiktok_search network s q
    end.
Proof.
  unfold route_tiktok_shop, route_tiktok_search, scrapecreators.
  rewrite route_config_post_apiKey.
  destruct (body_apiKey body) as [[|c r]|]; split; reflexivity.
Qed.

(** ** The recommendations route on the process state *)

Lemma collectProducts_all_failed
    (scrapecreators : Category -> Upstream) (selectedCategories : list Category) :
  (forall c, In c selectedCategories -> upstream_returned scrapecreators c = false) ->
  collectProducts scrapecreators selectedCategories = [].
Proof.
  unfold collectProducts, upstream_returned.
  induction selectedCategories as [|c r IH]; intros H; cbn [flat_map]; [reflexivity|].
  pose proof (H c (or_introl eq_refl)) as Hc.
  destruct (scrapecreators c); [|discriminate].
  apply IH. intros c' Hc'. apply H. now right.
Qed.

(** X22: when no category's query comes back - there is no key on file, or
    the service fails every call - the recommendations route answers
    "No products found. Try again or check your API key." and not the
    message of the failure; it scores nothing, so it builds no OpenAI
    handle, and the only random numbers drawn are those of the sort that
    picks the categories, which leaves the catalog reordered. *)
Theorem route_recommendations_all_failed
    (network : Network ShopData) (service : Handle -> Collaborator)
    (sort_randomly : RandomSort) (catalog : list Category) (s : Server) (g : Rng) :
  (truthy_str (Config.apiKey (loadConfig (file s))) = None \/
   forall key endpoint params, exists message,
       network key endpoint params = Thrown message) ->
  route_recommendations network service sort_randomly catalog s g
  = (Failure "No products found. Try again or check your API key.",
     fst (sort_randomly catalog g), s, snd (sort_randomly catalog g)).
Proof.
  intros H. unfold route_recommendations.
  destruct (sort_randomly catalog g) as [catalog' g1]. cbn [fst snd].
  rewrite collectProducts_all_failed; [reflexivity|].
  intros c _. unfold upstream_returned, queryCategory, scrapecreators.
  destruct H as [H | H].
  - now rewrite H.
  - destruct (truthy_str _) as [key|]; [|reflexivity].
    destruct (H key "/v1/tiktok/shop/search"
                [("query", Some (category_name c)); ("region", Some "US")])
      as [message ->].
    reflexivity.
Qed.

Lemma route_recommendations_all_failed_witness :
  route_recommendations network_down (fun _ => well_behaved)
    insertion_sort_randomly TRENDING_CATEGORIES (startup keyed_file) half_draws
  = (Failure "No products found. Try again or check your API key.",
     TRENDING_CATEGORIES, startup keyed_file,
     {| draws := draws half_draws; pos := 17 |}).
Proof.
  rewrite (route_recommendations_all_failed network_down (fun _ => well_behaved)
             insertion_sort_randomly TRENDING_CATEGORIES (startup keyed_file)
             half_draws).
  - reflexivity.
  - right. intros key endpoint params. eexists. reflexivity.
Defined.

(** ** The get-product-images route *)

(** X23: with a product name that [encodeURIComponent] accepts, the images
    route succeeds; it returns the product's own image when the request has
    one and no image otherwise, never more than one; its AliExpress address
    is the one the sourcing catalog gives for the same name; and the Google
    address has a single ampersand, the one before tbm=isch, whatever the
    name holds.  With a name that holds an unpaired surrogate the call
    throws and the route answers success = false with the message
    "URI malformed". *)
Theorem route_get_product_images_spec (request : ImagesRequest) (name : text) :
  truthy_text (productName request) = Some name ->
  match encodeURIComponent name with
  | Some encoded =>
      well_formed name = true /\
      getSourcingRecommendations name = Some (sourcing_for encoded) /\
      exists images google,
        route_get_product_images request
        = ImagesSuccess images
            (nth 0 (map url (sourcing_for encoded)) EmptyString) google /\
        map image_url images
        = match truthy_str (productImage request) with
          | Some u => [u]
          | None => []
          end /\
        (List.length images <= 1)%nat /\
        google = "https://www.google.com/search?q=" ++ encoded ++ "&tbm=isch" /\
        count_string (Ascii.eqb "&") google = 1%nat
  | None =>
      well_formed name = false /\
      route_get_product_images request = ImagesFailure "URI malformed"
  end.
Proof.
  intros H. unfold route_get_product_images. rewrite H.
  rewrite getSourcingRecommendations_encoded.
  destruct (encodeURIComponent name) as [encoded|] eqn:E.
  - split; [|split; [reflexivity|]].
    { destruct (well_formed name) eqn:W; [reflexivity|].
      rewrite (encodeURIComponent_ill_formed _ W) in E. discriminate. }
    eexists. eexists. split; [reflexivity|].
    split; [|split; [|split; [reflexivity|]]].
    + destruct (truthy_str (productImage request)); reflexivity.
    + destruct (truthy_str (productImage request)); cbn [List.length]; lia.
    + rewrite !count_string_app.
      rewrite (count_unsafe "&" encoded eq_refl
                 (encodeURIComponent_url_safe name encoded E)).
      reflexivity.
  - split; [|reflexivity].
    destruct (well_formed name) eqn:W; [|reflexivity].
    destruct (encodeURIComponent_well_formed _ W) as [s' Hs]. congruence.
Qed.

Lemma route_get_product_images_spec_witness :
  (exists images google,
     route_get_product_images
       {| productName := Some (text_of_string "Desk Lamp & Co"); productImage := None |}
     = ImagesSuccess images
         "https://www.aliexpress.com/wholesale?SearchText=Desk%20Lamp%20%26%20Co"
         google /\
     count_string (Ascii.eqb "&") google = 1%nat) /\
  route_get_product_images
    {| productName := Some lone_surrogate; productImage := None |}
  = ImagesFailure "URI malformed".
Proof.
  split.
  - pose proof (route_get_product_images_spec
                  {| productName := Some (text_of_string "Desk Lamp & Co");
                     productImage := None |}
                  (text_of_string "Desk Lamp & Co") eq_refl) as H.
    cbv beta iota zeta delta [encodeURIComponent text_of_string list_ascii_of_string map] in H.
    vm_compute encodeURIComponent in H.
    destruct H as (_ & _ & images & google & H1 & _ & _ & _ & H5).
    exists images, google. split; [exact H1 | exact H5].
  - exact (proj2 (route_get_product_images_spec
                    {| productName := Some lone_surrogate; productImage := None |}
                    lone_surrogate eq_refl)).
Defined.

(** ** The generate-content-prompts route *)

(** X24: for a product with a title the content route never answers
    failure, whatever the model does.  Without a handle it serves the
    default prompts marked "default", with no error; when the call throws,
    the default prompts marked "default" with the error message; when the
    call returns a text that parses, the parsed answer marked "gemini";
    when it returns a text that does not parse, the default prompts marked
    "gemini"; in the last two cases no error is reported.  Each case has
    its own set of default captions; all default sets have the same three
    image prompts and three video prompts for the title, and three
    captions.  The handle fetched is kept. *)
Theorem route_generate_content_prompts_absorbs
    {J : Type} (JSON_parse : string -> option J)
    (generate : Handle -> PromptProduct -> GeminiOutcome)
    (p : PromptProduct) (title : string) (s : Server) :
  truthy_str (prompt_title p) = Some title ->
  exists prompts generatedBy error,
    route_generate_content_prompts JSON_parse generate (Some p) s
    = (ContentSuccess prompts generatedBy error, snd (getGemini s)) /\
    match fst (getGemini s) with
    | None =>
        prompts = inl (default_prompts captions_without_gemini title (prompt_category p)) /\
        generatedBy = "default" /\ error = None
    | Some handle =>
        match generate handle p with
        | GeminiThrew message =>
            prompts = inl (default_prompts captions_after_error title (prompt_category p)) /\
            generatedBy = "default" /\ error = Some message
        | GeminiText text =>
            match JSON_parse (json_source text) with
            | Some parsed => prompts = inr parsed
            | None =>
                prompts = inl (default_prompts captions_after_parse_failure title
                                 (prompt_category p))
            end /\
            generatedBy = "gemini" /\ error = None
        end
    end /\
    match prompts with
    | inr parsed =>
        exists handle text,
          fst (getGemini s) = Some handle /\
          generate handle p = GeminiText text /\
          JSON_parse (json_source text) = Some parsed
    | inl defaults =>
        imagePrompts defaults = default_imagePrompts title /\
        videoPrompts defaults = default_videoPrompts title /\
        List.length (socialCaptions defaults) = 3%nat
    end.
Proof.
  intros Ht. unfold route_generate_content_prompts. rewrite Ht.
  destruct (getGemini s) as [[handle|] s']; cbn [fst snd].
  - destruct (generate handle p) as [message|text] eqn:Eg.
    + do 3 eexists. split; [reflexivity|]. split; [repeat split|].
      repeat split.
    + destruct (JSON_parse (json_source text)) as [parsed|] eqn:Ep.
      * do 3 eexists. split; [reflexivity|]. split; [repeat split|].
        exists handle, text. auto.
      * do 3 eexists. split; [reflexivity|]. split; [repeat split|].
        repeat split.
  - do 3 eexists. split; [reflexivity|]. split; [repeat split|].
    repeat split.
Qed.

Lemma route_generate_content_prompts_absorbs_witness :
  fst (route_generate_content_prompts (fun _ : string => @None nat)
         (fun _ _ => GeminiThrew "quota exceeded")
         (Some {| prompt_title := Some "Desk Lamp"; prompt_category := None |})
         {| file := NoFile; openai := None;
            genAI := Some {| handle_key := "g-key" |} |})
  = ContentSuccess (inl (default_prompts captions_after_error "Desk Lamp" None))
      "default" (Some "quota exceeded").
Proof.
  destruct (route_generate_content_prompts_absorbs (fun _ : string => @None nat)
              (fun _ _ => GeminiThrew "quota exceeded")
              {| prompt_title := Some "Desk Lamp"; prompt_category := None |}
              "Desk Lamp"
              {| file := NoFile; openai := None;
                 genAI := Some {| handle_key := "g-key" |} |} eq_refl)
    as (prompts & generatedBy & error & H1 & H2 & _).
  cbn in H2. destruct H2 as (-> & -> & ->). rewrite H1. reflexivity.
Defined.

Lemma strip_prefix_app (pat r : string) : strip_prefix pat (pat ++ r) = Some r.
Proof.
  induction pat as [|a pat' IH]; cbn [String.append strip_prefix].
  - now destruct r.
  - now rewrite Ascii.eqb_refl.
Qed.

Lemma strip_prefix_head (a : ascii) (pat' : string) (c : ascii) (r : string) :
  c <> a -> strip_prefix (String a pat') (String c r) = None.
Proof.
  intros H. cbn [strip_prefix].
  destruct (Ascii.eqb_spec a c) as [-> | _]; [contradiction | reflexivity].
Qed.

Lemma backtick_free_cons (c : ascii) (r : string) :
  backtick_free (String c r) = true -> c <> "`"%char /\ backtick_free r = true.
Proof.
  unfold backtick_free. cbn [all_chars]. intros H.
  apply andb_true_iff in H. destruct H as [Hc Hr]. split; [|exact Hr].
  intros ->. discriminate.
Qed.

(** The first fence after backtick-free text is found. *)
Lemma find_after_fence (pat' pre r : string) :
  backtick_free pre = true ->
  find_after (String "`" pat') (pre ++ String "`" pat' ++ r) = Some r.
Proof.
  intros H. induction pre as [|c pre' IH].
  - cbn [String.append]. change (String "`" (pat' ++ r)) with (String "`" pat' ++ r).
    destruct (String "`" pat' ++ r) eqn:E; cbn [find_after];
      rewrite <- E, strip_prefix_app; reflexivity.
  - apply backtick_free_cons in H. destruct H as [Hc Hr].
    cbn [String.append find_after].
    rewrite (strip_prefix_head "`" pat' c _ Hc). now apply IH.
Qed.

Lemma find_after_none (pat' text : string) :
  backtick_free text = true -> find_after (String "`" pat') text = None.
Proof.
  intros H. induction text as [|c r IH]; [reflexivity|].
  apply backtick_free_cons in H. destruct H as [Hc Hr].
  cbn [find_after]. rewrite (strip_prefix_head "`" pat' c _ Hc). now apply IH.
Qed.

(** The closing fence after a backtick-free body is the first one. *)
Lemma find_before_closing (body post : string) :
  backtick_free body = true ->
  find_before (newline ++ fence) (body ++ (newline ++ fence) ++ post) = Some body.
Proof.
  intros H. induction body as [|c b IH].
  - reflexivity.
  - apply backtick_free_cons in H. destruct H as [Hc Hb].
    cbn [String.append find_before].
    assert (E : strip_prefix (newline ++ fence)
                  (String c (b ++ (newline ++ fence) ++ post)) = None).
    { unfold newline, fence. cbn [String.append strip_prefix].
      destruct (Ascii.eqb (ascii_of_nat 10) c); [|reflexivity].
      destruct b as [|d b'].
      - reflexivity.
      - apply backtick_free_cons in Hb. destruct Hb as [Hd _].
        cbn [String.append].
        destruct (Ascii.eqb_spec "`" d) as [<- | _]; [contradiction | reflexivity]. }
    rewrite E. now rewrite (IH Hb).
Qed.

(** X25: an answer that wraps its JSON in a json fence is unwrapped: when
    the text before the fence and the body hold no backtick, what reaches
    the parser is exactly the body, whatever follows the closing fence; and
    a text without any backtick reaches the parser whole. *)
Theorem json_source_unwraps (pre body post : string) :
  backtick_free pre = true ->
  backtick_free body = true ->
  json_source (pre ++ (fence ++ "json" ++ newline) ++ body
                   ++ (newline ++ fence) ++ post) = body /\
  json_source pre = pre.
Proof.
  intros Hpre Hbody. split.
  - unfold json_source, fenced.
    change ((fence ++ "json") ++ newline) with (String "`" ("``json" ++ newline)).
    change (fence ++ "json" ++ newline) with (String "`" ("``json" ++ newline)).
    rewrite (find_after_fence _ pre _ Hpre).
    now rewrite (find_before_closing body post Hbody).
  - unfold json_source, fenced.
    change ((fence ++ "json") ++ newline) with (String "`" ("``json" ++ newline)).
    change (fence ++ newline) with (String "`" ("``" ++ newline)).
    now rewrite !(find_after_none _ pre Hpre).
Qed.

Lemma json_source_unwraps_witness :
  json_source ("Here it is:" ++ (fence ++ "json" ++ newline) ++ "{}"
                 ++ (newline ++ fence) ++ " Enjoy!") = "{}".
Proof.
  apply (json_source_unwraps "Here it is:" "{}" " Enjoy!"); reflexivity.
Defined.

(** ** The price normalizer on digits and dots *)

(** A digit or a dot starts the number: it is no white space, no sign, and
    not the I of Infinity. *)
Lemma numeric_first (c : ascii) (r : string) :
  is_numeric c = true ->
  trim_start (String c r) = String c r /\
  read_sign (String c r) = (false, String c r) /\
  prefix "Infinity" (String c r) = false.
Proof.
  destruct c as [[] [] [] [] [] [] [] []]; intros H;
    try discriminate H; repeat split.
Qed.

Lemma all_chars_cons (p : ascii -> bool) (c : ascii) (r : string) :
  all_chars p (String c r) = true -> p c = true /\ all_chars p r = true.
Proof. cbn [all_chars]. intros H. now apply andb_true_iff in H. Qed.

Lemma span_digits_all (s : string) :
  forall acc cnt,
    all_chars is_digit s = true ->
    span_digits s acc cnt
    = (digits_from acc s, (cnt + String.length s)%nat, EmptyString).
Proof.
  induction s as [|c r IH]; intros acc cnt H.
  - cbn. now rewrite Nat.add_0_r.
  - apply all_chars_cons in H. destruct H as [Hc Hr].
    cbn [span_digits digits_from String.length]. rewrite Hc, (IH _ _ Hr).
    now rewrite Nat.add_succ_r.
Qed.

(** After the digits of a string of digits and dots comes a dot or the end,
    and digits only add to a number that is not negative. *)
Lemma span_digits_numeric (s : string) :
  forall acc cnt,
    (0 <= acc)%Z ->
    all_chars is_numeric s = true ->
    exists v n rest,
      span_digits s acc cnt = (v, n, rest) /\
      (0 <= v)%Z /\
      all_chars is_numeric rest = true /\
      (rest = EmptyString \/ exists r, rest = String "." r).
Proof.
  induction s as [|c r IH]; intros acc cnt Hacc H.
  - exists acc, cnt, EmptyString. cbn. auto.
  - pose proof H as Hall. apply all_chars_cons in H. destruct H as [Hc Hr].
    cbn [span_digits]. destruct (is_digit c) eqn:Hd.
    + apply IH; [lia | exact Hr].
    + exists acc, cnt, (String c r). repeat split; [exact Hacc | exact Hall |].
      right. exists r. unfold is_numeric in Hc. rewrite Hd in Hc. cbn in Hc.
      apply Ascii.eqb_eq in Hc. now subst c.
Qed.

Lemma filter_string_numeric_digits (s : string) :
  all_chars is_numeric s = true ->
  all_chars is_digit (strip_dots s) = true /\
  String.length (strip_dots s) = count_string is_digit s.
Proof.
  unfold strip_dots. induction s as [|c r IH]; intros H; [now split|].
  apply all_chars_cons in H. destruct H as [Hc Hr].
  destruct (IH Hr) as [IH1 IH2]. cbn [filter_string count_string].
  unfold is_numeric in Hc. destruct (Ascii.eqb c ".") eqn:Hdot.
  - cbn [negb]. apply Ascii.eqb_eq in Hdot. subst c. cbn. now split.
  - cbn [negb all_chars String.length]. rewrite orb_false_r in Hc.
    rewrite Hc, IH1, IH2. now split.
Qed.

Lemma strip_non_numeric_numeric (s : string) :
  all_chars is_numeric (strip_non_numeric s) = true.
Proof.
  unfold strip_non_numeric. induction s as [|c r IH]; [reflexivity|].
  cbn [filter_string]. destruct (is_digit c || Ascii.eqb c ".") eqn:E; [|exact IH].
  cbn [all_chars]. unfold is_numeric at 1. now rewrite E, IH.
Qed.

(** A run of digits parses to the number it writes. *)
Lemma parseFloat_digits (s : string) :
  s <> EmptyString ->
  all_chars is_digit s = true ->
  exists q, parseFloat s = Fin q /\ q == inject_Z (digits_from 0 s).
Proof.
  intros Hne H. destruct s as [|c r]; [contradiction|].
  assert (Hc : is_numeric c = true).
  { apply all_chars_cons in H. unfold is_numeric. now rewrite (proj1 H). }
  destruct (numeric_first c r Hc) as (Ht & Hs & Hp).
  unfold parseFloat. rewrite Ht, Hs, Hp, (span_digits_all _ 0%Z 0%nat H).
  cbn [Nat.add String.length read_exponent Z.of_nat Z.sub Z.opp Z.add Qpower].
  eexists. split; [reflexivity|]. ring.
Qed.

(** Digits and dots never parse to a negative number. *)
Lemma parseFloat_numeric (s : string) :
  all_chars is_numeric s = true ->
  parseFloat s = NaN \/ exists q, parseFloat s = Fin q /\ 0 <= q.
Proof.
  intros H. destruct s as [|c r]; [left; reflexivity|].
  pose proof H as Hall. apply all_chars_cons in H. destruct H as [Hc _].
  destruct (numeric_first c r Hc) as (Ht & Hs & Hp).
  unfold parseFloat. rewrite Ht, Hs, Hp.
  destruct (span_digits_numeric (String c r) 0%Z 0%nat (Z.le_refl 0) Hall)
    as (ip & ni & r1 & -> & Hip & Hr1 & Hshape).
  assert (Hfrac : exists m nf r2,
             match r1 with
             | String "." r => span_digits r ip 0
             | _ => (ip, 0%nat, r1)
             end = (m, nf, r2) /\ (0 <= m)%Z /\ read_exponent r2 = 0%Z).
  { destruct Hshape as [-> | [r' ->]].
    - exists ip, 0%nat, EmptyString. auto.
    - apply all_chars_cons in Hr1. destruct Hr1 as [_ Hr'].
      destruct (span_digits_numeric r' ip 0%nat Hip Hr')
        as (m & nf & r2 & E & Hm & _ & Hshape2).
      exists m, nf, r2. split; [exact E|]. split; [exact Hm|].
      destruct Hshape2 as [-> | [r3 ->]]; reflexivity. }
  destruct Hfrac as (m & nf & r2 & -> & Hm & ->).
  assert (Hv : 0 <= inject_Z m * Qpower 10 (0 - Z.of_nat nf)).
  { apply Qmult_le_0_compat.
    - change 0 with (inject_Z 0). now rewrite <- Zle_Qle.
    - apply Qpower.Qpower_0_le. discriminate. }
  destruct ni, nf; [left; reflexivity | right | right | right];
    (eexists; split; [reflexivity | exact Hv]).
Qed.

(** X26: in a price in dong the dots are grouping marks: for a price
    written with digits and dots the normalizer reads the digits in their
    order as one whole number, wherever the dots stand, and divides it by
    25000 (in exact arithmetic); so two such strings with the same digits
    give the same price. *)
Theorem normalizePrice_dong_grouping (item : Raw.t) (info : PriceInfo.t) :
  Raw.product_price_info item = Some info ->
  is_str (PriceInfo.currency_name info) "VND" = true ->
  all_chars is_numeric (priceStr info) = true ->
  (0 < count_string is_digit (priceStr info))%nat ->
  exists q,
    normalizePrice item = Fin q /\
    q == inject_Z (digits_from 0 (strip_dots (priceStr info))) / 25000.
Proof.
  intros Hinfo Hvnd Hnum Hdigit.
  unfold normalizePrice. rewrite Hinfo, Hvnd.
  destruct (filter_string_numeric_digits _ Hnum) as [Hall Hlen].
  destruct (parseFloat_digits (strip_dots (priceStr info))) as (q & -> & Hq).
  - intros E. rewrite E in Hlen. cbn in Hlen. lia.
  - exact Hall.
  - exists (q / 25000). split; [reflexivity|]. now rewrite Hq.
Qed.

Lemma normalizePrice_dong_grouping_witness :
  exists q,
    normalizePrice
      {| Raw.product_name := Some (text_of_string "Desk Lamp"); Raw.title := None;
         Raw.product_img_url := None; Raw.image := None; Raw.cover := None;
         Raw.statistics := None; Raw.rate_info := None; Raw.sold_info := None;
         Raw.top_sold_count := None; Raw.top_sales := None;
         Raw.product_price_info := Some dong_price_info; Raw.price := None;
         Raw.min_price := None |} = Fin q /\
    q == 50.
Proof.
  destruct (normalizePrice_dong_grouping
              {| Raw.product_name := Some (text_of_string "Desk Lamp"); Raw.title := None;
                 Raw.product_img_url := None; Raw.image := None; Raw.cover := None;
                 Raw.statistics := None; Raw.rate_info := None; Raw.sold_info := None;
                 Raw.top_sold_count := None; Raw.top_sales := None;
                 Raw.product_price_info := Some dong_price_info; Raw.price := None;
                 Raw.min_price := None |}
              dong_price_info eq_refl eq_refl eq_refl)
    as (q & H1 & H2).
  - vm_compute. lia.
  - exists q. split; [exact H1|]. rewrite H2. reflexivity.
Defined.

(** X27: for a currency that is neither dong nor dollar the normalized
    price is never a negative number, whatever the price string holds: the
    sign, like every character that is not a digit or a dot, is removed
    before the number is read. *)
Theorem normalizePrice_other_currency_not_negative
    (item : Raw.t) (info : PriceInfo.t) :
  Raw.product_price_info item = Some info ->
  is_str (PriceInfo.currency_name info) "VND" = false ->
  is_str (PriceInfo.currency_name info) "USD" = false ->
  is_str (PriceInfo.currency_symbol info) "$" = false ->
  normalizePrice item = parseFloat (strip_non_numeric (priceStr info)) /\
  nlt (normalizePrice item) (Fin 0) = false.
Proof.
  intros Hinfo Hvnd Husd Hsym.
  unfold normalizePrice. rewrite Hinfo, Hvnd, Husd, Hsym. cbn [orb].
  split; [reflexivity|].
  destruct (parseFloat_numeric _ (strip_non_numeric_numeric (priceStr info)))
    as [-> | (q & -> & Hq)]; [reflexivity|].
  cbn [nlt]. apply Qlt_bool_false. exact Hq.
Qed.

Lemma normalizePrice_other_currency_not_negative_witness :
  nlt (normalizePrice
         {| Raw.product_name := Some (text_of_string "Desk Lamp"); Raw.title := None;
            Raw.product_img_url := None; Raw.image := None; Raw.cover := None;
            Raw.statistics := None; Raw.rate_info := None; Raw.sold_info := None;
            Raw.top_sold_count := None; Raw.top_sales := None;
            Raw.product_price_info := Some euro_price_info; Raw.price := None;
            Raw.min_price := None |}) (Fin 0) = false.
Proof.
  apply (normalizePrice_other_currency_not_negative
           {| Raw.product_name := Some (text_of_string "Desk Lamp"); Raw.title := None;
              Raw.product_img_url := None; Raw.image := None; Raw.cover := None;
              Raw.statistics := None; Raw.rate_info := None; Raw.sold_info := None;
              Raw.top_sold_count := None; Raw.top_sales := None;
              Raw.product_price_info := Some euro_price_info; Raw.price := None;
              Raw.min_price := None |}
           euro_price_info eq_refl eq_refl eq_refl eq_refl).
Defined.
